(** * Lid-driven cavity flow solver: shallow embedding and properties

    The program solves the incompressible Navier-Stokes equations in a
    square cavity by artificial compressibility and pseudo-time marching.
    Every routine of the relaxation engine is a function here, from the
    arrays it reads to the arrays it changes.

    Every [double] is a real number, so the statements are statements in
    exact arithmetic; the special values of a double, which one property
    needs, are modelled apart in module [IEEE].  An [int] index is a
    natural number: the grid sizes are array sizes, far below the range of
    [int], and on a grid of at least 3 x 3 nodes no index expression of the
    program is negative.  Printing and file output are left out. *)

From Stdlib Require Import Reals Lra Lia List ZArith Bool.
From stdpp Require Import base list.
Import ListNotations.

Local Open Scope R_scope.

(** ** Numerical constants *)

Abbreviation zero := 0%R.
Abbreviation tenth := 0.1%R.
Abbreviation fifth := 0.2%R.
Abbreviation fourth := 0.25%R.
Abbreviation half := 0.5%R.
Abbreviation one := 1%R.
Abbreviation two := 2%R.
Abbreviation three := 3%R.
Abbreviation four := 4%R.
Abbreviation six := 6%R.

(** Number of equations (mass, x-momentum, y-momentum). *)
Definition neq : nat := 3.

(** ** User inputs

    The block "User sets inputs here" together with the two array-size
    macros.  They are compile-time constants of the program, gathered in a
    record so that a property can be stated for every setting. *)

Record Inputs := mkInputs {
  imax : nat;
  jmax : nat;
  nmax : Z;
  iterout : Z;
  imms : Z;
  isgs : Z;
  irstr : Z;
  residualOut : Z;
  cfl : R;
  Cx : R;
  Cy : R;
  toler : R;
  rkappa : R;
  Re : R;
  pinf : R;
  uinf : R;
  rho : R;
  xmin : R;
  xmax : R;
  ymin : R;
  ymax : R
}.

(** The values the source file ships with. *)
Definition source_inputs : Inputs :=
  {| imax := 251; jmax := 251;
     nmax := 1000000000; iterout := 500;
     imms := 0; isgs := 1; irstr := 0; residualOut := 10;
     cfl := 0.8; Cx := 0.01; Cy := 0.01; toler := 1e-10; rkappa := 0.1;
     Re := 10; pinf := 0.801333844662; uinf := 1; rho := 1;
     xmin := 0; xmax := 0.05; ymin := 0; ymax := 0.05 |}.

(** ** Loops *)

(** [for (x : xs) body] *)
Definition for_each {S X : Type} (xs : list X) (body : X -> S -> S) (s : S) : S :=
  fold_left (fun s x => body x s) xs s.

(** [for (i = lo; i < hi; i++) body] *)
Definition for_range {S : Type} (lo hi : nat) (body : nat -> S -> S) (s : S) : S :=
  for_each (seq lo (hi - lo)) body s.

(** [for (i = hi; i > lo; i--) body] *)
Definition for_down {S : Type} (hi lo : nat) (body : nat -> S -> S) (s : S) : S :=
  for_each (rev (seq (lo + 1) (hi - lo))) body s.

(** ** Array3 and Array2

    A dense block of doubles behind a [data] pointer, addressed row-major.
    The block is a list; reading past its end gives 0 and writing past its
    end does nothing, where the program's behaviour is undefined. *)

Record Array3 := mkArray3 {
  idim3 : nat;
  jdim3 : nat;
  kdim3 : nat;
  data3 : list R
}.

Definition index3 (A : Array3) (i j k : nat) : nat :=
  i * jdim3 A * kdim3 A + j * kdim3 A + k.

(** [A(i,j,k)] as an rvalue *)
Definition get3 (A : Array3) (i j k : nat) : R :=
  nth (index3 A i j k) (data3 A) 0.

(** [A(i,j,k) = v] *)
Definition set3 (A : Array3) (i j k : nat) (v : R) : Array3 :=
  mkArray3 (idim3 A) (jdim3 A) (kdim3 A) (<[index3 A i j k := v]> (data3 A)).

(** [memcpy(dst, src, n * sizeof(double))] *)
Definition memcpy (dst src : list R) (n : nat) : list R :=
  take n src ++ drop n dst.

(** [this.copyData(A)] returns the new [this]. *)
Definition copyData3 (this A : Array3) : Array3 :=
  mkArray3 (idim3 this) (jdim3 this) (kdim3 this)
           (memcpy (data3 this) (data3 A) (idim3 this * jdim3 this * kdim3 this)).

(** [this.swapData(A)] exchanges the two [data] pointers and nothing else;
    it returns the new [this] and the new [A]. *)
Definition swapData3 (this A : Array3) : Array3 * Array3 :=
  let temp := data3 this in
  (mkArray3 (idim3 this) (jdim3 this) (kdim3 this) (data3 A),
   mkArray3 (idim3 A) (jdim3 A) (kdim3 A) temp).

Record Array2 := mkArray2 {
  idim2 : nat;
  jdim2 : nat;
  data2 : list R
}.

Definition index2 (A : Array2) (i j : nat) : nat := i * jdim2 A + j.

Definition get2 (A : Array2) (i j : nat) : R :=
  nth (index2 A i j) (data2 A) 0.

Definition set2 (A : Array2) (i j : nat) (v : R) : Array2 :=
  mkArray2 (idim2 A) (jdim2 A) (<[index2 A i j := v]> (data2 A)).

Definition copyData2 (this A : Array2) : Array2 :=
  mkArray2 (idim2 this) (jdim2 this)
           (memcpy (data2 this) (data2 A) (idim2 this * jdim2 this)).

Definition swapData2 (this A : Array2) : Array2 * Array2 :=
  let temp := data2 this in
  (mkArray2 (idim2 this) (jdim2 this) (data2 A),
   mkArray2 (idim2 A) (jdim2 A) temp).

(** An array as [main] allocates it: [Array3 u(imax, jmax, neq)]. *)
Definition shaped3 (c : Inputs) (A : Array3) : Prop :=
  idim3 A = imax c /\ jdim3 A = jmax c /\ kdim3 A = neq /\
  length (data3 A) = (imax c * jmax c * neq)%nat.

Definition shaped2 (c : Inputs) (A : Array2) : Prop :=
  idim2 A = imax c /\ jdim2 A = jmax c /\
  length (data2 A) = (imax c * jmax c)%nat.

(** A field of a given shape holding [f i j k] at node [(i,j)], slot [k]. *)
Definition tabulate3 (ni nj nk : nat) (f : nat -> nat -> nat -> R) : Array3 :=
  mkArray3 ni nj nk
    (flat_map (fun i => flat_map (fun j => map (f i j) (seq 0 nk)) (seq 0 nj)) (seq 0 ni)).

Definition tabulate2 (ni nj : nat) (f : nat -> nat -> R) : Array2 :=
  mkArray2 ni nj (flat_map (fun i => map (f i) (seq 0 nj)) (seq 0 ni)).

(** ** A field that can be read and written

    The boundary routines are written once against this interface and run
    on a plain [Array3] or on an [Array3] that also records which cells
    were assigned, in order. *)

Class Field3 (S : Type) := {
  rd3 : S -> nat -> nat -> nat -> R;
  wr3 : S -> nat -> nat -> nat -> R -> S
}.

#[export] Instance Array3_Field3 : Field3 Array3 :=
  {| rd3 := get3; wr3 := set3 |}.

Record Logged := mkLogged {
  field : Array3;
  writes : list (nat * nat * nat)
}.

#[export] Instance Logged_Field3 : Field3 Logged :=
  {| rd3 l := get3 (field l);
     wr3 l i j k v := mkLogged (set3 (field l) i j k v) (writes l ++ [(i, j, k)]) |}.

Definition pow2 (x : R) : R := let x2 := x * x in x2.
Definition pow3 (x : R) : R := let x3 := x * x * x in x3.
Definition pow4 (x : R) : R := let x4 := x * x * x * x in x4.

(** ** Derived input quantities ([set_derived_inputs]) *)

Section Solver.

Variable c : Inputs.

Definition rhoinv : R := one / rho c.
Definition rlength : R := xmax c - xmin c.
Definition rmu : R := (rho c * uinf c * rlength) / Re c.
Definition vel2ref : R := uinf c * uinf c.
Definition dx : R := (xmax c - xmin c) / INR (imax c - 1).
Definition dy : R := (ymax c - ymin c) / INR (jmax c - 1).
Definition rpi : R := acos (- one).

(** ** Manufactured solution *)

Definition phi0 : list R := [0.25; 0.3; 0.2].
Definition phix : list R := [0.5; 0.15; 1 / 6].
Definition phiy : list R := [0.4; 0.2; 0.25].
Definition phixy : list R := [1 / 3; 0.25; 0.1].
Definition apx : list R := [0.5; 1 / 3; 7 / 17].
Definition apy : list R := [0.2; 0.25; 1 / 6].
Definition apxy : list R := [2 / 7; 0.4; 1 / 3].
Definition fsinx : list R := [0; 1; 0].
Definition fsiny : list R := [1; 0; 0].
Definition fsinxy : list R := [1; 1; 0].

(** [a[k]] for a global table *)
Definition sub (a : list R) (k : nat) : R := nth k a 0.

Definition umms (x y : R) (k : nat) : R :=
  let argx := sub apx k * rpi * x / rlength in
  let argy := sub apy k * rpi * y / rlength in
  let argxy := sub apxy k * rpi * x * y / rlength / rlength in
  let termx := sub phix k * (sub fsinx k * sin argx + (one - sub fsinx k) * cos argx) in
  let termy := sub phiy k * (sub fsiny k * sin argy + (one - sub fsiny k) * cos argy) in
  let termxy := sub phixy k * (sub fsinxy k * sin argxy + (one - sub fsinxy k) * cos argxy) in
  let ummstmp := sub phi0 k + termx + termy + termxy in
  ummstmp.

(** ** Initial state ([initial], run from scratch)

    The restart branch reads a file and is not part of the model. *)

Definition initial (u s : Array3) : option (Z * R * list R * Array3 * Array3) :=
  if (irstr c =? 0)%Z then
    let ninit := 1%Z in
    let rtime := zero in
    let resinit := for_range 0 neq (fun k resinit => <[k := one]> resinit) [zero; zero; zero] in
    let '(u, s) :=
      for_range 0 (imax c) (fun i '(u, s) =>
        let '(u, s) :=
          for_range 0 (jmax c) (fun j '(u, s) =>
            let u := set3 u i j 0 (pinf c) in
            let u := set3 u i j 1 zero in
            let u := set3 u i j 2 zero in
            let s := set3 s i j 0 zero in
            let s := set3 s i j 1 zero in
            let s := set3 s i j 2 zero in
            (u, s)) (u, s) in
        let u := set3 u i (jmax c - 1) 1 (uinf c) in
        (u, s)) (u, s) in
    Some (ninit, rtime, resinit, u, s)
  else None.

(** ** Boundary conditions *)

Section Boundary.

Context {S : Type} `{Field3 S}.

(** First loop of [bndry]: the left and right walls, [j = 0 .. jmax-1]. *)
Definition bndry_side_walls (u : S) : S :=
  for_range 0 (jmax c) (fun j u =>
    let u := wr3 u 0 j 1 zero in
    let u := wr3 u 0 j 2 zero in
    let u := wr3 u (imax c - 1) j 1 zero in
    let u := wr3 u (imax c - 1) j 2 zero in
    let u := wr3 u (imax c - 1) j 0
                 (two * rd3 u (imax c - 2) j 0 - rd3 u (imax c - 3) j 0) in
    let u := wr3 u 0 j 0 (two * rd3 u 1 j 0 - rd3 u 2 j 0) in
    u) u.

(** Second loop of [bndry]: the bottom wall and the lid, [i = 1 .. imax-2]. *)
Definition bndry_top_bottom_walls (u : S) : S :=
  for_range 1 (imax c - 1) (fun i u =>
    let u := wr3 u i 0 1 zero in
    let u := wr3 u i 0 2 zero in
    let u := wr3 u i 0 0 (two * rd3 u i 1 0 - rd3 u i 2 0) in
    let u := wr3 u i (jmax c - 1) 1 (uinf c) in
    let u := wr3 u i (jmax c - 1) 2 0 in
    let u := wr3 u i (jmax c - 1) 0
                 (two * rd3 u i (jmax c - 2) 0 - rd3 u i (jmax c - 3) 0) in
    u) u.

Definition bndry (u : S) : S :=
  bndry_top_bottom_walls (bndry_side_walls u).

End Boundary.

(** First loop of [bndrymms]: the side walls, [j = 1 .. jmax-2]. *)
Definition bndrymms_side_walls (u : Array3) : Array3 :=
  for_range 1 (jmax c - 1) (fun j u =>
    let y := (ymax c - ymin c) * INR j / INR (jmax c - 1) in
    let i := 0%nat in
    let x := xmin c in
    let u := set3 u i j 0 (umms x y 0) in
    let u := set3 u i j 1 (umms x y 1) in
    let u := set3 u i j 2 (umms x y 2) in
    let u := set3 u 0 j 0 (two * get3 u 1 j 0 - get3 u 2 j 0) in
    let i := (imax c - 1)%nat in
    let x := xmax c in
    let u := set3 u i j 0 (umms x y 0) in
    let u := set3 u i j 1 (umms x y 1) in
    let u := set3 u i j 2 (umms x y 2) in
    let u := set3 u (imax c - 1) j 0
                  (two * get3 u (imax c - 2) j 0 - get3 u (imax c - 3) j 0) in
    u) u.

(** Second loop of [bndrymms]: top and bottom walls, [i = 0 .. imax-1]. *)
Definition bndrymms_top_bottom_walls (u : Array3) : Array3 :=
  for_range 0 (imax c) (fun i u =>
    let x := (xmax c - xmin c) * INR i / INR (imax c - 1) in
    let j := 0%nat in
    let y := ymin c in
    let u := set3 u i j 0 (umms x y 0) in
    let u := set3 u i j 1 (umms x y 1) in
    let u := set3 u i j 2 (umms x y 2) in
    let u := set3 u i 0 0 (two * get3 u i 1 0 - get3 u i 2 0) in
    let j := (jmax c - 1)%nat in
    let y := ymax c in
    let u := set3 u i j 0 (umms x y 0) in
    let u := set3 u i j 1 (umms x y 1) in
    let u := set3 u i j 2 (umms x y 2) in
    let u := set3 u i (jmax c - 1) 0
                  (two * get3 u i (jmax c - 2) 0 - get3 u i (jmax c - 3) 0) in
    u) u.

Definition bndrymms (u : Array3) : Array3 :=
  bndrymms_top_bottom_walls (bndrymms_side_walls u).

(** ** Local time step *)

Definition compute_time_step (u : Array3) (dt : Array2) (dtmin : R) : Array2 * R :=
  for_range 1 (imax c - 1) (fun i =>
    for_range 1 (jmax c - 1) (fun j '(dt, dtmin) =>
      let uvel2 := get3 u i j 1 * get3 u i j 1 + get3 u i j 2 * get3 u i j 2 in
      let beta2 := Rmax uvel2 (rkappa c * uinf c) in
      let lambda_x := 0.5 * (Rabs (get3 u i j 1) + sqrt (pow2 (get3 u i j 1) + four * beta2)) in
      let lambda_y := 0.5 * (Rabs (get3 u i j 2) + sqrt (pow2 (get3 u i j 2) + four * beta2)) in
      let lambda_max := if Rgt_dec lambda_x lambda_y then lambda_x else lambda_y in
      let dtconv := Rmin dx dy / lambda_max in
      let dtvisc := (dx * dy) / (four * rmu * rhoinv) in
      let dtmin := cfl c * Rmin dtconv dtvisc in
      let dt := set2 dt i j dtmin in
      (dt, dtmin)))
    (dt, dtmin).

(** ** Artificial viscosity *)

Definition Compute_Artificial_Viscosity (u : Array3) (viscx viscy : Array2)
  : Array2 * Array2 :=
  let v :=
    for_range 2 (jmax c - 2) (fun j =>
      for_range 2 (imax c - 2) (fun i '(viscx, viscy) =>
        let uvel2 := pow2 (get3 u i j 1) + pow2 (get3 u i j 2) in
        let beta2 := Rmax uvel2 (rkappa c * uinf c) in
        let lambda_x := 0.5 * (Rabs (get3 u i j 1) + sqrt (uvel2 + four * beta2)) in
        let lambda_y := 0.5 * (Rabs (get3 u i j 2) + sqrt (uvel2 + four * beta2)) in
        let d4pdx4 := (get3 u (i + 2) j 0 - four * get3 u (i + 1) j 0 + six * get3 u i j 0
                       - four * get3 u (i - 1) j 0 + get3 u (i - 2) j 0) / dx in
        let d4pdy4 := (get3 u i (j + 2) 0 - four * get3 u i (j + 1) 0 + six * get3 u i j 0
                       - four * get3 u i (j - 1) 0 + get3 u i (j - 2) 0) / dy in
        let viscx := set2 viscx i j ((- Rabs lambda_x * Cx c * d4pdx4) / beta2) in
        let viscy := set2 viscy i j ((- Rabs lambda_y * Cy c * d4pdy4) / beta2) in
        (viscx, viscy)))
      (viscx, viscy) in
  (* linear extrapolations *)
  let sides := [1%nat; (imax c - 2)%nat] in
  let top_bottom := [1%nat; (jmax c - 2)%nat] in
  let v :=
    for_each sides (fun i =>
      for_range 1 (jmax c - 1) (fun j '(viscx, viscy) =>
        let viscx :=
          if (i =? 1)%nat then
            let slope_x := (get2 viscx (i + 2) j - get2 viscx (i + 1) j) / dx in
            let viscx := set2 viscx i j (get2 viscx (i + 1) j + slope_x * dx) in
            let slope_y := (get2 viscx (i + 2) j - get2 viscx (i + 1) j) / dx in
            let viscx := set2 viscx i j (get2 viscx (i + 1) j + slope_y * dx) in
            viscx
          else viscx in
        let viscx :=
          if (i =? imax c - 1)%nat then
            let slope_x := (get2 viscx (i - 2) j - get2 viscx (i - 1) j) / dx in
            let viscx := set2 viscx i j (get2 viscx (i - 1) j + slope_x * dx) in
            let slope_y := (get2 viscx (i - 2) j - get2 viscx (i - 1) j) / dx in
            let viscx := set2 viscx i j (get2 viscx (i - 1) j + slope_y * dx) in
            viscx
          else viscx in
        (viscx, viscy)))
      v in
  let v :=
    for_each top_bottom (fun j =>
      for_range 1 (imax c - 1) (fun i '(viscx, viscy) =>
        let viscx :=
          if (j =? 1)%nat then
            let slope_x := (get2 viscx i (j + 2) - get2 viscx i (j + 1)) / dy in
            let viscx := set2 viscx i j (get2 viscx i (j + 1) + slope_x * dy) in
            let slope_y := (get2 viscy i (j + 2) - get2 viscy i (j + 1)) / dy in
            let viscx := set2 viscx i j (get2 viscy i (j + 1) + slope_y * dy) in
            viscx
          else viscx in
        let viscx :=
          if (j =? jmax c - 1)%nat then
            let slope_x := (get2 viscx i (j - 2) - get2 viscx i (j - 1)) / dy in
            let viscx := set2 viscx i j (get2 viscx (i - 1) j + slope_x * dy) in
            let slope_y := (get2 viscy i (j - 2) - get2 viscy i (j - 1)) / dy in
            let viscx := set2 viscx i j (get2 viscy i (j - 1) + slope_y * dy) in
            viscx
          else viscx in
        (viscx, viscy)))
      v in
  v.

(** ** Relaxation sweeps *)

Definition SGS_forward_sweep (u : Array3) (viscx viscy dt : Array2) (s : Array3) : Array3 :=
  for_range 1 (jmax c - 1) (fun j =>
    for_range 1 (imax c - 1) (fun i u =>
      let uvel2 := pow2 (get3 u i j 1) + pow2 (get3 u i j 2) in
      let beta2 := Rmax uvel2 (rkappa c * uinf c) in
      let dpdx := (get3 u (i + 1) j 0 - get3 u (i - 1) j 0) / (two * dx) in
      let dpdy := (get3 u i (j + 1) 0 - get3 u i (j - 1) 0) / (two * dy) in
      let dudx := (get3 u (i + 1) j 1 - get3 u (i - 1) j 1) / (two * dx) in
      let dudy := (get3 u i (j + 1) 1 - get3 u i (j - 1) 1) / (two * dy) in
      let d2udx2 := (get3 u (i + 1) j 1 - 2 * get3 u i j 1 + get3 u (i - 1) j 1) / (dx * dx) in
      let d2udy2 := (get3 u i (j + 1) 1 - 2 * get3 u i j 1 + get3 u i (j - 1) 1) / (dy * dy) in
      let dvdx := (get3 u (i + 1) j 2 - get3 u (i - 1) j 2) / (two * dx) in
      let dvdy := (get3 u i (j + 1) 2 - get3 u i (j - 1) 2) / (two * dy) in
      let d2vdx2 := (get3 u (i + 1) j 2 - two * get3 u i j 2 + get3 u (i - 1) j 2) / (dx * dx) in
      let d2vdy2 := (get3 u i (j + 1) 2 - two * get3 u i j 2 + get3 u i (j - 1) 2) / (dy * dy) in
      let continuity_it_resid :=
        (rho c * dudx) + (rho c * dvdy) - get2 viscx i j - get2 viscy i j - get3 s i j 0 in
      let u := set3 u i j 0 (get3 u i j 0 - beta2 * get2 dt i j * continuity_it_resid) in
      let xmomentum_it_resid :=
        (rho c * get3 u i j 1 * dudx) + (rho c * get3 u i j 2 * dudy) + dpdx
        - (rmu * d2udx2) - (rmu * d2udy2) - get3 s i j 1 in
      let u := set3 u i j 1 (get3 u i j 1 - get2 dt i j * rhoinv * xmomentum_it_resid) in
      let ymomentum_it_resid :=
        (rho c * get3 u i j 1 * dvdx) + (rho c * get3 u i j 2 * dvdy) + dpdy
        - (rmu * d2vdx2) - (rmu * d2vdy2) - get3 s i j 2 in
      let u := set3 u i j 2 (get3 u i j 2 - get2 dt i j * rhoinv * ymomentum_it_resid) in
      u))
    u.

Definition SGS_backward_sweep (u : Array3) (viscx viscy dt : Array2) (s : Array3) : Array3 :=
  for_down (jmax c - 2) 0 (fun j =>
    for_down (imax c - 2) 0 (fun i u =>
      let uvel2 := pow2 (get3 u i j 1) + pow2 (get3 u i j 2) in
      let beta2 := Rmax uvel2 (rkappa c * uinf c) in
      let dpdx := (get3 u (i + 1) j 0 - get3 u (i - 1) j 0) / (two * dx) in
      let dpdy := (get3 u i (j + 1) 0 - get3 u i (j - 1) 0) / (two * dy) in
      let dudx := (get3 u (i + 1) j 1 - get3 u (i - 1) j 1) / (two * dx) in
      let dudy := (get3 u i (j + 1) 1 - get3 u i (j - 1) 1) / (two * dy) in
      let d2udx2 := (get3 u (i + 1) j 1 - two * get3 u i j 1 + get3 u (i - 1) j 1) / (dx * dx) in
      let d2udy2 := (get3 u i (j + 1) 1 - two * get3 u i j 1 + get3 u i (j - 1) 1) / (dy * dy) in
      let dvdx := (get3 u (i + 1) j 2 - get3 u (i - 1) j 2) / (two * dx) in
      let dvdy := (get3 u i (j + 1) 2 - get3 u i (j - 1) 2) / (two * dy) in
      let d2vdx2 := (get3 u (i + 1) j 2 - two * get3 u i j 2 + get3 u (i - 1) j 2) / (dx * dx) in
      let d2vdy2 := (get3 u i (j + 1) 2 - two * get3 u i j 2 + get3 u i (j - 1) 2) / (dy * dy) in
      let continuity_it_resid :=
        (rho c * dudx) + (rho c * dvdy) - get2 viscx i j - get2 viscy i j - get3 s i j 0 in
      let u := set3 u i j 0 (get3 u i j 0 - beta2 * get2 dt i j * continuity_it_resid) in
      let xmomentum_it_resid :=
        (rho c * get3 u i j 1 * dudx) + (rho c * get3 u i j 2 * dudy) + dpdx
        - (rmu * d2udx2) - (rmu * d2udy2) - get3 s i j 1 in
      let u := set3 u i j 1 (get3 u i j 1 - get2 dt i j * rhoinv * xmomentum_it_resid) in
      let ymomentum_it_resid :=
        (rho c * get3 u i j 1 * dvdx) + (rho c * get3 u i j 2 * dvdy) + dpdy
        - (rmu * d2vdx2) - (rmu * d2vdy2) - get3 s i j 2 in
      let u := set3 u i j 2 (get3 u i j 2 - get2 dt i j * rhoinv * ymomentum_it_resid) in
      u))
    u.

Definition point_Jacobi (u uold : Array3) (viscx viscy dt : Array2) (s : Array3) : Array3 :=
  for_range 1 (imax c - 1) (fun i =>
    for_range 1 (jmax c - 1) (fun j u =>
      let dpdx := (get3 uold (i + 1) j 0 - get3 uold (i - 1) j 0) / (two * dx) in
      let dpdy := (get3 uold i (j + 1) 0 - get3 uold i (j - 1) 0) / (two * dy) in
      let dudx := (get3 uold (i + 1) j 1 - get3 uold (i - 1) j 1) / (two * dx) in
      let dudy := (get3 uold i (j + 1) 1 - get3 uold i (j - 1) 1) / (two * dy) in
      let dvdx := (get3 uold (i + 1) j 2 - get3 uold (i - 1) j 2) / (two * dx) in
      let dvdy := (get3 uold i (j + 1) 2 - get3 uold i (j - 1) 2) / (two * dy) in
      let d2udx2 := (get3 uold (i + 1) j 1 - two * get3 uold i j 1 + get3 uold (i - 1) j 1) / pow2 dx in
      let d2udy2 := (get3 uold i (j + 1) 1 - two * get3 uold i j 1 + get3 uold i (j - 1) 1) / pow2 dy in
      let d2vdx2 := (get3 uold (i + 1) j 2 - two * get3 uold i j 2 + get3 uold (i - 1) j 2) / pow2 dx in
      let d2vdy2 := (get3 uold i (j + 1) 2 - two * get3 uold i j 2 + get3 uold i (j - 1) 2) / pow2 dy in
      let uvel2 := pow2 (get3 u i j 1) + pow2 (get3 u i j 2) in
      let beta2 := Rmax uvel2 (rkappa c * vel2ref) in
      let u := set3 u i j 0
        (get3 uold i j 0
         - (beta2 * get2 dt i j
            * ((rho c * dudx) + (rho c * dvdy) - get2 viscx i j - get2 viscy i j - get3 s i j 0))) in
      let u := set3 u i j 1
        (get3 uold i j 1
         - ((get2 dt i j * rhoinv)
            * ((rho c * get3 uold i j 1 * dudx) + (rho c * get3 uold i j 2 * dudy) + dpdx
               - (rmu * d2udx2) - (rmu * d2udy2) - get3 s i j 1))) in
      let u := set3 u i j 2
        (get3 uold i j 2
         - ((get2 dt i j * rhoinv)
            * ((rho c * get3 uold i j 1 * dvdx) + (rho c * get3 uold i j 2 * dvdy) + dpdy
               - (rmu * d2vdx2) - (rmu * d2vdy2) - get3 s i j 2))) in
      u))
    u.

(** ** Iteration steps

    [boundaryConditionPointer] and [iterationStepPointer] are function
    types; an iteration step returns the arrays it changed: [u], [uold],
    [viscx] and [viscy]. *)

Definition boundaryConditionPointer : Type := Array3 -> Array3.

Definition iterationStepPointer : Type :=
  boundaryConditionPointer -> Array3 -> Array3 -> Array3 -> Array2 -> Array2 -> Array2 ->
  Array3 * Array3 * Array2 * Array2.

Definition GS_iteration : iterationStepPointer :=
  fun set_boundary_conditions u uold src viscx viscy dt =>
  let uold := copyData3 uold u in
  let '(viscx, viscy) := Compute_Artificial_Viscosity u viscx viscy in
  let u := SGS_forward_sweep u viscx viscy dt src in
  let u := set_boundary_conditions u in
  let '(viscx, viscy) := Compute_Artificial_Viscosity u viscx viscy in
  let u := SGS_backward_sweep u viscx viscy dt src in
  let u := set_boundary_conditions u in
  (u, uold, viscx, viscy).

Definition PJ_iteration : iterationStepPointer :=
  fun set_boundary_conditions u uold src viscx viscy dt =>
  let '(uold, u) := swapData3 uold u in
  let '(viscx, viscy) := Compute_Artificial_Viscosity uold viscx viscy in
  let u := point_Jacobi u uold viscx viscy dt src in
  let u := set_boundary_conditions u in
  (u, uold, viscx, viscy).

(** ** Pressure rescaling *)

Definition pressure_rescaling (u : Array3) : Array3 :=
  let iref := ((imax c - 1) / 2)%nat in
  let jref := ((jmax c - 1) / 2)%nat in
  let deltap :=
    if (imms c =? 1)%Z then
      let x := (xmax c - xmin c) * INR iref / INR (imax c - 1) in
      let y := (ymax c - ymin c) * INR jref / INR (jmax c - 1) in
      get3 u iref jref 0 - umms x y 0
    else
      get3 u iref jref 0 - pinf c in
  for_range 0 (imax c) (fun i =>
    for_range 0 (jmax c) (fun j u =>
      set3 u i j 0 (get3 u i j 0 - deltap)))
    u.

(** ** Iterative convergence

    Returns the new [res] and [conv]; the printing is left out. *)

Definition check_iterative_convergence (n : Z) (u uold : Array3) (dt : Array2)
    (res resinit : list R) (ninit : Z) (rtime dtmin : R) : list R * R :=
  let res := <[0%nat := zero]> res in
  let res := <[1%nat := zero]> res in
  let res := <[2%nat := zero]> res in
  let local_resid := 0 in
  let '(res, local_resid) :=
    for_range 1 (imax c - 1) (fun i =>
      for_range 1 (jmax c - 1) (fun j =>
        for_range 0 neq (fun k '(res, local_resid) =>
          let local_resid :=
            if (k =? 0)%nat then
              let uvel2 := pow2 (get3 u i j 1) + pow2 (get3 u i j 2) in
              let beta2 := Rmax uvel2 (rkappa c * uinf c) in
              (get3 u i j 0 - get3 uold i j 0) / (- beta2 * get2 dt i j)
            else if (k =? 1)%nat then
              - rho c * (get3 u i j 1 - get3 uold i j 1) / get2 dt i j
            else if (k =? 2)%nat then
              - rho c * (get3 u i j 2 - get3 uold i j 2) / get2 dt i j
            else local_resid in
          let res := <[k := sub res k + pow2 (Rabs local_resid)]> res in
          (res, local_resid))))
      (res, local_resid) in
  let res := <[0%nat := sqrt (sub res 0 / INR (imax c * jmax c))]> res in
  let res := <[1%nat := sqrt (sub res 1 / INR (imax c * jmax c))]> res in
  let res := <[2%nat := sqrt (sub res 2 / INR (imax c * jmax c))]> res in
  let L2Norminit := sqrt (pow2 (sub resinit 0) / INR (imax c * jmax c)) in
  let conv := Rmax (sub res 0) (Rmax (sub res 1) (sub res 2)) / L2Norminit in
  (res, conv).

(** ** Main loop *)

Record State := mkState {
  u : Array3;
  uold : Array3;
  src : Array3;
  viscx : Array2;
  viscy : Array2;
  dt : Array2;
  res : list R;
  resinit : list R;
  rtime : R;
  dtmin : R;
  conv : R
}.

(** How [main] leaves its loop: through [goto converged] at iteration [n],
    or by running past [nmax]. *)
Inductive Exit :=
| converged (n : Z)
| notconverged.

(** [for (n = ninit; n <= nmax; n++) { step; if (test) goto converged; }]
    with [fuel] the number of values of [n] still to run. *)
Fixpoint control_loop {St : Type} (step : Z -> St -> St) (test : St -> bool)
    (fuel : nat) (n : Z) (s : St) : Exit * St :=
  match fuel with
  | O => (notconverged, s)
  | S fuel =>
      let s := step n s in
      if test s then (converged n, s)
      else control_loop step test fuel (n + 1)%Z s
  end.

(** The body of the main loop up to the convergence test. *)
Definition main_iteration (iterationStep : iterationStepPointer)
    (set_boundary_conditions : boundaryConditionPointer) (ninit : Z) (n : Z) (s : State)
  : State :=
  let '(dt, dtmin) := compute_time_step (u s) (dt s) (dtmin s) in
  let '(u, uold, viscx, viscy) :=
    iterationStep set_boundary_conditions (u s) (uold s) (src s) (viscx s) (viscy s) dt in
  let u := pressure_rescaling u in
  let rtime := rtime s + dtmin in
  let '(res, conv) :=
    check_iterative_convergence n u uold dt (res s) (resinit s) ninit rtime dtmin in
  mkState u uold (src s) viscx viscy dt res (resinit s) rtime dtmin conv.


(** The two selections [main] makes before anything else; [None] is
    [exit(0)] after the error message. *)
Definition select_iterationStep : option iterationStepPointer :=
  if (isgs c =? 1)%Z then Some GS_iteration
  else if (isgs c =? 0)%Z then Some PJ_iteration
  else None.

Definition select_boundary_conditions : option boundaryConditionPointer :=
  if (imms c =? 0)%Z then Some bndry
  else if (imms c =? 1)%Z then Some bndrymms
  else None.

End Solver.

(** ** NaN and the infinities

    The convergence test is a comparison of doubles, and what it does for
    a NaN or an infinity is not visible in the reals.  This module keeps
    the special values: a double is a finite number, an infinity or NaN.
    Arithmetic on finite numbers stays exact (no rounding, no overflow) and
    zero carries no sign: the only divisor below is the result of a square
    root, which is never -0 here.  The operations are those of C: [fmax]
    returns its other argument when one argument is NaN, every ordered
    comparison with a NaN is false, and [sqrt] of a negative number is
    NaN. *)

Module IEEE.

Inductive double :=
| Num (r : R)
| PInf
| NInf
| NaN.

Definition fmax (x y : double) : double :=
  match x, y with
  | NaN, _ => y
  | _, NaN => x
  | PInf, _ => PInf
  | _, PInf => PInf
  | NInf, _ => y
  | _, NInf => x
  | Num a, Num b => Num (Rmax a b)
  end.

(** [x < y] *)
Definition lt (x y : double) : bool :=
  match x, y with
  | NaN, _ => false
  | _, NaN => false
  | _, NInf => false
  | NInf, _ => true
  | PInf, _ => false
  | Num _, PInf => true
  | Num a, Num b => if Rlt_dec a b then true else false
  end.

(** [x * y] *)
Definition mul (x y : double) : double :=
  match x, y with
  | NaN, _ => NaN
  | _, NaN => NaN
  | Num a, Num b => Num (a * b)
  | PInf, PInf => PInf
  | NInf, NInf => PInf
  | PInf, NInf => NInf
  | NInf, PInf => NInf
  | PInf, Num b | Num b, PInf =>
      if Req_dec_T b 0 then NaN else if Rlt_dec b 0 then NInf else PInf
  | NInf, Num b | Num b, NInf =>
      if Req_dec_T b 0 then NaN else if Rlt_dec b 0 then PInf else NInf
  end.

(** [x / y] *)
Definition div (x y : double) : double :=
  match x, y with
  | NaN, _ => NaN
  | _, NaN => NaN
  | PInf, Num b => if Rlt_dec b 0 then NInf else PInf
  | NInf, Num b => if Rlt_dec b 0 then PInf else NInf
  | Num _, PInf => Num 0
  | Num _, NInf => Num 0
  | Num a, Num b =>
      if Req_dec_T b 0 then
        if Req_dec_T a 0 then NaN else if Rlt_dec a 0 then NInf else PInf
      else Num (a / b)
  | _, _ => NaN
  end.

Definition sqrt (x : double) : double :=
  match x with
  | NaN => NaN
  | PInf => PInf
  | NInf => NaN
  | Num a => if Rlt_dec a 0 then NaN else Num (R_sqrt.sqrt a)
  end.

Definition pow2 (x : double) : double := let x2 := mul x x in x2.

Section Monitor.

Variable c : Inputs.

(** The end of [check_iterative_convergence], from the three sums of
    squares on: the norms, and their ratio to the initial norm. *)
Definition residual_norms (sums : double * double * double)
  : double * double * double :=
  let '(s0, s1, s2) := sums in
  (sqrt (div s0 (Num (INR (imax c * jmax c)))),
   sqrt (div s1 (Num (INR (imax c * jmax c)))),
   sqrt (div s2 (Num (INR (imax c * jmax c))))).

Definition convergence_ratio (res : double * double * double) (resinit0 : double)
  : double :=
  let '(res0, res1, res2) := res in
  let L2Norminit := sqrt (div (pow2 resinit0) (Num (INR (imax c * jmax c)))) in
  let conv := div (fmax res0 (fmax res1 res2)) L2Norminit in
  conv.

(** [if (conv < toler) goto converged;] *)
Definition converged_test (conv : double) : bool := lt conv (Num (toler c)).

(** A run seen through its monitor: iteration [n] ends with the sums of
    squares [sums_at n]; the state of the loop is the iteration count. *)
Definition monitored_run (sums_at : Z -> double * double * double)
    (resinit0 : double) (fuel : nat) (ninit : Z) : Exit :=
  fst (control_loop (fun n _ => n)
         (fun n => converged_test (convergence_ratio (residual_norms (sums_at n)) resinit0))
         fuel ninit ninit).

End Monitor.

Definition nan_or_inf (x : double) : Prop := x = NaN \/ x = PInf \/ x = NInf.

(** A square root is NaN, plus infinity or a number that is not negative. *)
Definition unsigned (x : double) : Prop :=
  x = NaN \/ x = PInf \/ exists r, x = Num r /\ 0 <= r.

(** The norms of a diverged iteration: all three are NaN or infinite, or
    one of them is plus infinity. *)
Definition diverged (res : double * double * double) : Prop :=
  (nan_or_inf (fst (fst res)) /\ nan_or_inf (snd (fst res)) /\ nan_or_inf (snd res)) \/
  fst (fst res) = PInf \/ snd (fst res) = PInf \/ snd res = PInf.


End IEEE.

(** ** Vocabulary of the statements

    Closed forms of what the loops compute, the sample fields and inputs
    the statements are evaluated at, and the trace of [bndry]. *)

(** Cells of a field, for the loop lemmas. *)
Definition cell : Type := nat * nat * nat.

Definition get_cell (A : Array3) (k : cell) : R :=
  get3 A (fst (fst k)) (snd (fst k)) (snd k).

Definition valid_cell (c : Inputs) (k : cell) : Prop :=
  (fst (fst k) < imax c)%nat /\ (snd (fst k) < jmax c)%nat /\ (snd k < neq)%nat.

(** The reference pressure: the manufactured pressure at the centre node
    when [imms = 1], the input constant [pinf] otherwise. *)
Definition reference_pressure (c : Inputs) : R :=
  if (imms c =? 1)%Z then
    umms c ((xmax c - xmin c) * INR ((imax c - 1) / 2) / INR (imax c - 1))
           ((ymax c - ymin c) * INR ((jmax c - 1) / 2) / INR (jmax c - 1)) 0
  else pinf c.

(** The constant [pressure_rescaling] subtracts. *)
Definition rescaling_deltap (c : Inputs) (u : Array3) : R :=
  get3 u ((imax c - 1) / 2) ((jmax c - 1) / 2) 0 - reference_pressure c.

(** The local step [compute_time_step] stores at node [(i,j)]. *)
Definition local_time_step (c : Inputs) (u : Array3) (i j : nat) : R :=
  let uvel2 := get3 u i j 1 * get3 u i j 1 + get3 u i j 2 * get3 u i j 2 in
  let beta2 := Rmax uvel2 (rkappa c * uinf c) in
  let lambda_x := 0.5 * (Rabs (get3 u i j 1) + sqrt (pow2 (get3 u i j 1) + four * beta2)) in
  let lambda_y := 0.5 * (Rabs (get3 u i j 2) + sqrt (pow2 (get3 u i j 2) + four * beta2)) in
  let lambda_max := if Rgt_dec lambda_x lambda_y then lambda_x else lambda_y in
  let dtconv := Rmin (dx c) (dy c) / lambda_max in
  let dtvisc := (dx c * dy c) / (four * rmu c * rhoinv c) in
  cfl c * Rmin dtconv dtvisc.

(** A field at rest but for one fast node, [(1,1)]. *)
Definition one_fast_node (c : Inputs) : Array3 :=
  tabulate3 (imax c) (jmax c) neq
    (fun i j k => if ((i =? 1) && (j =? 1) && (1 <=? k))%nat then 200 else 0).

(** A state of the main loop built from one field: [u] and [uold] hold
    it, every other array is zero. *)
Definition state_of_field (c : Inputs) (f : Array3) : State :=
  mkState f f
    (tabulate3 (imax c) (jmax c) neq (fun _ _ _ => 0))
    (tabulate2 (imax c) (jmax c) (fun _ _ => 0))
    (tabulate2 (imax c) (jmax c) (fun _ _ => 0))
    (tabulate2 (imax c) (jmax c) (fun _ _ => 0))
    [0; 0; 0] [1; 1; 1] 0 1e99 0.

(** The residual of equation [k] at node [(i,j)] that
    [check_iterative_convergence] forms from the new and the old field. *)
Definition local_resid (c : Inputs) (u uold : Array3) (dt : Array2) (k i j : nat) : R :=
  match k with
  | 0%nat =>
      let uvel2 := pow2 (get3 u i j 1) + pow2 (get3 u i j 2) in
      let beta2 := Rmax uvel2 (rkappa c * uinf c) in
      (get3 u i j 0 - get3 uold i j 0) / (- beta2 * get2 dt i j)
  | _ => - rho c * (get3 u i j k - get3 uold i j k) / get2 dt i j
  end.

(** The interior nodes, [1 <= i <= imax-2] and [1 <= j <= jmax-2]. *)
Definition interior (c : Inputs) : list (nat * nat) :=
  list_prod (seq 1 (imax c - 2)) (seq 1 (jmax c - 2)).

Definition Rsum (l : list R) : R := fold_right Rplus 0 l.

(** The sum over the interior nodes of the squared residual of equation [k]. *)
Definition sum_sq_resid (c : Inputs) (u uold : Array3) (dt : Array2) (k : nat) : R :=
  Rsum (map (fun p => local_resid c u uold dt k (fst p) (snd p)
                      * local_resid c u uold dt k (fst p) (snd p)) (interior c)).

(** Closed forms of the four boundary loops: the value each leaves in
    cell [(i,j,k)] of a field [u]. *)

Definition bndry_side_walls_spec (c : Inputs) (u : Array3) (i j k : nat) : R :=
  if (i =? 0)%nat then
    if (k =? 0)%nat then two * get3 u 1 j 0 - get3 u 2 j 0 else zero
  else if (i =? imax c - 1)%nat then
    if (k =? 0)%nat then two * get3 u (imax c - 2) j 0 - get3 u (imax c - 3) j 0 else zero
  else get3 u i j k.

Definition bndry_top_bottom_walls_spec (c : Inputs) (u : Array3) (i j k : nat) : R :=
  if ((1 <=? i) && (i <=? imax c - 2))%nat then
    if (j =? 0)%nat then
      if (k =? 0)%nat then two * get3 u i 1 0 - get3 u i 2 0 else zero
    else if (j =? jmax c - 1)%nat then
      if (k =? 0)%nat then two * get3 u i (jmax c - 2) 0 - get3 u i (jmax c - 3) 0
      else if (k =? 1)%nat then uinf c else zero
    else get3 u i j k
  else get3 u i j k.

Definition bndrymms_side_walls_spec (c : Inputs) (u : Array3) (i j k : nat) : R :=
  if ((1 <=? j) && (j <=? jmax c - 2))%nat then
    if (i =? 0)%nat then
      if (k =? 0)%nat then two * get3 u 1 j 0 - get3 u 2 j 0
      else umms c (xmin c) ((ymax c - ymin c) * INR j / INR (jmax c - 1)) k
    else if (i =? imax c - 1)%nat then
      if (k =? 0)%nat then two * get3 u (imax c - 2) j 0 - get3 u (imax c - 3) j 0
      else umms c (xmax c) ((ymax c - ymin c) * INR j / INR (jmax c - 1)) k
    else get3 u i j k
  else get3 u i j k.

Definition bndrymms_top_bottom_walls_spec (c : Inputs) (u : Array3) (i j k : nat) : R :=
  if (j =? 0)%nat then
    if (k =? 0)%nat then two * get3 u i 1 0 - get3 u i 2 0
    else umms c ((xmax c - xmin c) * INR i / INR (imax c - 1)) (ymin c) k
  else if (j =? jmax c - 1)%nat then
    if (k =? 0)%nat then two * get3 u i (jmax c - 2) 0 - get3 u i (jmax c - 3) 0
    else umms c ((xmax c - xmin c) * INR i / INR (imax c - 1)) (ymax c) k
  else get3 u i j k.

(** Cells a loop iteration may assign: the two wall cells of row [j], and
    the two wall cells of column [i]. *)
Definition side_cell (c : Inputs) (j : nat) (k : cell) : Prop :=
  (fst (fst k) = 0%nat \/ fst (fst k) = (imax c - 1)%nat) /\ snd (fst k) = j.

Definition top_bottom_cell (c : Inputs) (i : nat) (k : cell) : Prop :=
  (snd (fst k) = 0%nat \/ snd (fst k) = (jmax c - 1)%nat) /\ fst (fst k) = i.

(** The four corner nodes. *)
Definition corners (c : Inputs) : list (nat * nat) :=
  [(0, 0); (0, jmax c - 1); (imax c - 1, 0); (imax c - 1, jmax c - 1)]%nat.

Definition is_corner (c : Inputs) (i j : nat) : Prop :=
  (i = 0 \/ i = imax c - 1)%nat /\ (j = 0 \/ j = jmax c - 1)%nat.

(** The cells each loop of [bndry] assigns, in order, when [bndry] runs on
    the field [u]. *)
Definition side_walls_writes (c : Inputs) (u : Array3) : list cell :=
  writes (bndry_side_walls c (mkLogged u [])).

Definition top_bottom_walls_writes (c : Inputs) (u : Array3) : list cell :=
  writes (bndry_top_bottom_walls c (mkLogged (bndry_side_walls c u) [])).

(** The cells of one node. *)
Definition node_cell (p : nat * nat) (k : cell) : Prop := fst k = p.

(** The two loops of [bndry], and the trace of its assignments: each cell
    assigned, tagged with the loop that assigned it, in order of
    execution. *)
Inductive wall_pass :=
| side_walls_pass
| top_bottom_walls_pass.

Definition bndry_writes (c : Inputs) (u : Array3) : list (wall_pass * cell) :=
  map (pair side_walls_pass) (side_walls_writes c u)
  ++ map (pair top_bottom_walls_pass) (top_bottom_walls_writes c u).

(** The loop that made the last assignment to cell [k] in a trace. *)
Fixpoint last_writer (log : list (wall_pass * cell)) (k : cell) : option wall_pass :=
  match log with
  | [] => None
  | (p, k') :: log =>
      match last_writer log k with
      | Some q => Some q
      | None => if decide (k' = k) then Some p else None
      end
  end.

(** A field that is zero but for the pressure of the wall node [(1,0)]. *)
Definition wall_pressure_bump (c : Inputs) : Array3 :=
  tabulate3 (imax c) (jmax c) neq
    (fun i j k => if ((i =? 1) && (j =? 0) && (k =? 0))%nat then 1 else 0).

(** A field at rest with uniform pressure [pinf]. *)
Definition uniform_field (c : Inputs) : Array3 :=
  tabulate3 (imax c) (jmax c) neq (fun i j k => if (k =? 0)%nat then pinf c else 0).

(** An array holding the same value everywhere. *)
Definition constant2 (c : Inputs) (v : R) : Array2 :=
  tabulate2 (imax c) (jmax c) (fun _ _ => v).

(** The damping value the stencil loop of [Compute_Artificial_Viscosity]
    stores in [viscy] at node [(i,j)]. *)
Definition stencil_viscy (c : Inputs) (u : Array3) (i j : nat) : R :=
  let uvel2 := pow2 (get3 u i j 1) + pow2 (get3 u i j 2) in
  let beta2 := Rmax uvel2 (rkappa c * uinf c) in
  let lambda_y := 0.5 * (Rabs (get3 u i j 2) + sqrt (uvel2 + four * beta2)) in
  let d4pdy4 := (get3 u i (j + 2) 0 - four * get3 u i (j + 1) 0 + six * get3 u i j 0
                 - four * get3 u i (j - 1) 0 + get3 u i (j - 2) 0) / dy c in
  (- Rabs lambda_y * Cy c * d4pdy4) / beta2.

(** The source inputs with a lid twice as fast. *)
Definition fast_lid_inputs : Inputs :=
  {| imax := 251; jmax := 251;
     nmax := 1000000000; iterout := 500;
     imms := 0; isgs := 1; irstr := 0; residualOut := 10;
     cfl := 0.8; Cx := 0.01; Cy := 0.01; toler := 1e-10; rkappa := 0.1;
     Re := 10; pinf := 0.801333844662; uinf := 2; rho := 1;
     xmin := 0; xmax := 0.05; ymin := 0; ymax := 0.05 |}.

(** A source array that is zero everywhere. *)
Definition zero_field (c : Inputs) : Array3 :=
  tabulate3 (imax c) (jmax c) neq (fun _ _ _ => 0).

(** The continuity residual of the sweeps at node [(i,j)]: read from the
    field [u] with the damping terms and the source term. *)
Definition continuity_resid (c : Inputs) (u : Array3) (viscx viscy : Array2) (s : Array3)
    (i j : nat) : R :=
  let dudx := (get3 u (i + 1) j 1 - get3 u (i - 1) j 1) / (two * dx c) in
  let dvdy := (get3 u i (j + 1) 2 - get3 u i (j - 1) 2) / (two * dy c) in
  (rho c * dudx) + (rho c * dvdy) - get2 viscx i j - get2 viscy i j - get3 s i j 0.


(** ** Source terms of the manufactured solution

    [pow(z, 2)] of the C library is [z ^ 2]. *)

Section Sources.

Variable c : Inputs.

Definition srcmms_mass (x y : R) : R :=
  let dudx :=
    sub phix 1 * sub apx 1 * rpi / rlength c * cos (sub apx 1 * rpi * x / rlength c)
    + sub phixy 1 * sub apxy 1 * rpi * y / rlength c / rlength c
      * cos (sub apxy 1 * rpi * x * y / rlength c / rlength c) in
  let dvdy :=
    - sub phiy 2 * sub apy 2 * rpi / rlength c * sin (sub apy 2 * rpi * y / rlength c)
    - sub phixy 2 * sub apxy 2 * rpi * x / rlength c / rlength c
      * sin (sub apxy 2 * rpi * x * y / rlength c / rlength c) in
  let srcmasstmp := rho c * dudx + rho c * dvdy in
  srcmasstmp.

Definition srcmms_xmtm (x y : R) : R :=
  let termx := sub phix 1 * sin (sub apx 1 * rpi * x / rlength c) in
  let termy := sub phiy 1 * cos (sub apy 1 * rpi * y / rlength c) in
  let termxy := sub phixy 1 * sin (sub apxy 1 * rpi * x * y / rlength c / rlength c) in
  let uvel := sub phi0 1 + termx + termy + termxy in
  let termx := sub phix 2 * cos (sub apx 2 * rpi * x / rlength c) in
  let termy := sub phiy 2 * cos (sub apy 2 * rpi * y / rlength c) in
  let termxy := sub phixy 2 * cos (sub apxy 2 * rpi * x * y / rlength c / rlength c) in
  let vvel := sub phi0 2 + termx + termy + termxy in
  let dudx :=
    sub phix 1 * sub apx 1 * rpi / rlength c * cos (sub apx 1 * rpi * x / rlength c)
    + sub phixy 1 * sub apxy 1 * rpi * y / rlength c / rlength c
      * cos (sub apxy 1 * rpi * x * y / rlength c / rlength c) in
  let dudy :=
    - sub phiy 1 * sub apy 1 * rpi / rlength c * sin (sub apy 1 * rpi * y / rlength c)
    + sub phixy 1 * sub apxy 1 * rpi * x / rlength c / rlength c
      * cos (sub apxy 1 * rpi * x * y / rlength c / rlength c) in
  let dpdx :=
    - sub phix 0 * sub apx 0 * rpi / rlength c * sin (sub apx 0 * rpi * x / rlength c)
    + sub phixy 0 * sub apxy 0 * rpi * y / rlength c / rlength c
      * cos (sub apxy 0 * rpi * x * y / rlength c / rlength c) in
  let d2udx2 :=
    - sub phix 1 * (sub apx 1 * rpi / rlength c) ^ 2 * sin (sub apx 1 * rpi * x / rlength c)
    - sub phixy 1 * (sub apxy 1 * rpi * y / rlength c / rlength c) ^ 2
      * sin (sub apxy 1 * rpi * x * y / rlength c / rlength c) in
  let d2udy2 :=
    - sub phiy 1 * (sub apy 1 * rpi / rlength c) ^ 2 * cos (sub apy 1 * rpi * y / rlength c)
    - sub phixy 1 * (sub apxy 1 * rpi * x / rlength c / rlength c) ^ 2
      * sin (sub apxy 1 * rpi * x * y / rlength c / rlength c) in
  let srcxmtmtmp :=
    rho c * uvel * dudx + rho c * vvel * dudy + dpdx - rmu c * (d2udx2 + d2udy2) in
  srcxmtmtmp.

Definition srcmms_ymtm (x y : R) : R :=
  let termx := sub phix 1 * sin (sub apx 1 * rpi * x / rlength c) in
  let termy := sub phiy 1 * cos (sub apy 1 * rpi * y / rlength c) in
  let termxy := sub phixy 1 * sin (sub apxy 1 * rpi * x * y / rlength c / rlength c) in
  let uvel := sub phi0 1 + termx + termy + termxy in
  let termx := sub phix 2 * cos (sub apx 2 * rpi * x / rlength c) in
  let termy := sub phiy 2 * cos (sub apy 2 * rpi * y / rlength c) in
  let termxy := sub phixy 2 * cos (sub apxy 2 * rpi * x * y / rlength c / rlength c) in
  let vvel := sub phi0 2 + termx + termy + termxy in
  let dvdx :=
    - sub phix 2 * sub apx 2 * rpi / rlength c * sin (sub apx 2 * rpi * x / rlength c)
    - sub phixy 2 * sub apxy 2 * rpi * y / rlength c / rlength c
      * sin (sub apxy 2 * rpi * x * y / rlength c / rlength c) in
  let dvdy :=
    - sub phiy 2 * sub apy 2 * rpi / rlength c * sin (sub apy 2 * rpi * y / rlength c)
    - sub phixy 2 * sub apxy 2 * rpi * x / rlength c / rlength c
      * sin (sub apxy 2 * rpi * x * y / rlength c / rlength c) in
  let dpdy :=
    sub phiy 0 * sub apy 0 * rpi / rlength c * cos (sub apy 0 * rpi * y / rlength c)
    + sub phixy 0 * sub apxy 0 * rpi * x / rlength c / rlength c
      * cos (sub apxy 0 * rpi * x * y / rlength c / rlength c) in
  let d2vdx2 :=
    - sub phix 2 * (sub apx 2 * rpi / rlength c) ^ 2 * cos (sub apx 2 * rpi * x / rlength c)
    - sub phixy 2 * (sub apxy 2 * rpi * y / rlength c / rlength c) ^ 2
      * cos (sub apxy 2 * rpi * x * y / rlength c / rlength c) in
  let d2vdy2 :=
    - sub phiy 2 * (sub apy 2 * rpi / rlength c) ^ 2 * cos (sub apy 2 * rpi * y / rlength c)
    - sub phixy 2 * (sub apxy 2 * rpi * x / rlength c / rlength c) ^ 2
      * cos (sub apxy 2 * rpi * x * y / rlength c / rlength c) in
  let srcymtmtmp :=
    rho c * uvel * dvdx + rho c * vvel * dvdy + dpdy - rmu c * (d2vdx2 + d2vdy2) in
  srcymtmtmp.

(** The source terms, once, at the interior nodes. *)
Definition compute_source_terms (s : Array3) : Array3 :=
  for_range 1 (imax c - 1) (fun i =>
    for_range 1 (jmax c - 1) (fun j s =>
      let x := (xmax c - xmin c) * INR i / INR (imax c - 1) in
      let y := (ymax c - ymin c) * INR j / INR (jmax c - 1) in
      let s := set3 s i j 0 (IZR (imms c) * srcmms_mass x y) in
      let s := set3 s i j 1 (IZR (imms c) * srcmms_xmtm x y) in
      let s := set3 s i j 2 (IZR (imms c) * srcmms_ymtm x y) in
      s))
    s.

(** ** Discretization error norms

    The six arrays are locals of the routine, declared without an
    initialiser: what they hold on entry is an argument here.  The routine
    returns nothing and prints the three norm arrays, which are the
    result. *)

Definition Discretization_Error_Norms (u : Array3)
    (rL1norm rL2norm rLinfnorm rL1 rL2 rLinf : list R) : list R * list R * list R :=
  if (imms c =? 1)%Z then
    let '(rL1norm, rL2norm, rLinfnorm) :=
      for_range 0 neq (fun k '(rL1norm, rL2norm, rLinfnorm) =>
        let rL1norm := <[k := 0]> rL1norm in
        let rL2norm := <[k := 0]> rL2norm in
        let rLinfnorm := <[k := 0]> rLinfnorm in
        (rL1norm, rL2norm, rLinfnorm))
        (rL1norm, rL2norm, rLinfnorm) in
    let '(rL1, rL2, rLinf) :=
      for_range 1 (imax c - 1) (fun i =>
        for_range 1 (jmax c - 1) (fun j acc =>
          let x := (xmax c - xmin c) * INR i / INR (imax c - 1) in
          let y := (ymax c - ymin c) * INR j / INR (jmax c - 1) in
          for_range 0 neq (fun k '(rL1, rL2, rLinf) =>
            let DE := Rabs (get3 u i j k - umms c x y k) in
            let rL1 := <[k := sub rL1 k + DE]> rL1 in
            let rL2 := <[k := sub rL2 k + pow2 DE]> rL2 in
            let rLinf := <[k := Rmax (sub rLinf k) DE]> rLinf in
            (rL1, rL2, rLinf))
            acc))
        (rL1, rL2, rLinf) in
    for_range 0 neq (fun k '(rL1norm, rL2norm, rLinfnorm) =>
      let rL1norm := <[k := sub rL1 k / INR (imax c * jmax c)]> rL1norm in
      let rL2norm := <[k := sqrt (sub rL2 k / INR (imax c * jmax c))]> rL2norm in
      let rLinfnorm := <[k := sub rLinf k]> rLinfnorm in
      (rL1norm, rL2norm, rLinfnorm))
      (rL1norm, rL2norm, rLinfnorm)
  else (rL1norm, rL2norm, rLinfnorm).

(** ** The program

    [main] up to its loop, and as a whole.  The arrays come from
    [new double[...]] and [res], [conv] from declarations without an
    initialiser: their first contents are arguments.  [None] is [exit(0)]
    after an error message, or the restart from a file. *)

Definition main_setup (u uold src : Array3) (viscx viscy dt : Array2)
    (res : list R) (conv : R)
  : option (iterationStepPointer * boundaryConditionPointer * Z * State) :=
  let dtmin := 1e99 in
  match select_iterationStep c with
  | None => None
  | Some iterationStep =>
      match select_boundary_conditions c with
      | None => None
      | Some set_boundary_conditions =>
          match initial c u src with
          | None => None
          | Some (ninit, rtime, resinit, u, src) =>
              let u := set_boundary_conditions u in
              let src := compute_source_terms src in
              Some (iterationStep, set_boundary_conditions, ninit,
                    mkState u uold src viscx viscy dt res resinit rtime dtmin conv)
          end
      end
  end.


End Sources.

(** ** Vocabulary of the further statements *)

(** The coordinates the routines give to node [i] and to node [j]. *)
Definition xnode (c : Inputs) (i : nat) : R :=
  (xmax c - xmin c) * INR i / INR (imax c - 1).

Definition ynode (c : Inputs) (j : nat) : R :=
  (ymax c - ymin c) * INR j / INR (jmax c - 1).

(** Nodes off the walls, and nodes on a wall. *)
Definition interior_node (c : Inputs) (i j : nat) : Prop :=
  (1 <= i <= imax c - 2)%nat /\ (1 <= j <= jmax c - 2)%nat.

Definition wall_node (c : Inputs) (i j : nat) : Prop :=
  (i < imax c)%nat /\ (j < jmax c)%nat /\
  (i = 0 \/ i = imax c - 1 \/ j = 0 \/ j = jmax c - 1)%nat.

(** [b] is [a] with the pressure of every node raised by [d]. *)
Definition pressure_shifted (c : Inputs) (d : R) (a b : Array3) : Prop :=
  forall i j k, (i < imax c)%nat -> (j < jmax c)%nat -> (k < neq)%nat ->
    get3 b i j k = if (k =? 0)%nat then get3 a i j k + d else get3 a i j k.

(** Inputs of a flow: positive density, lid speed, Reynolds number, CFL
    number and preconditioning constant, a cavity of positive width and
    height, and at least two nodes each way. *)
Definition physical (c : Inputs) : Prop :=
  0 < cfl c /\ 0 < rho c /\ 0 < uinf c /\ 0 < Re c /\ 0 < rkappa c /\
  xmin c < xmax c /\ ymin c < ymax c /\ (2 <= imax c)%nat /\ (2 <= jmax c)%nat.

(** The discretization error of equation [k] at node [p]. *)
Definition node_error (c : Inputs) (u : Array3) (k : nat) (p : nat * nat) : R :=
  Rabs (get3 u (fst p) (snd p) k - umms c (xnode c (fst p)) (ynode c (snd p)) k).

(** The largest of [a] and the numbers of [l]. *)
Definition Rmax_list (a : R) (l : list R) : R := fold_left Rmax l a.

(** The field [initial] builds: pressure [pinf], the lid row moving at
    [uinf], everything else at rest. *)
Definition initial_field (c : Inputs) (i j k : nat) : R :=
  if (k =? 0)%nat then pinf c
  else if ((k =? 1) && (j =? jmax c - 1))%nat then uinf c
  else 0.

(** The source term of equation [k]. *)
Definition srcmms (c : Inputs) (k : nat) (x y : R) : R :=
  match k with
  | 0%nat => srcmms_mass c x y
  | 1%nat => srcmms_xmtm c x y
  | _ => srcmms_ymtm c x y
  end.

(** Two fields of the allocated shape, the second being the first with its
    pressure raised by [d]. *)
Definition level_rel (c : Inputs) (d : R) (t1 t2 : Array3) : Prop :=
  shaped3 c t1 /\ shaped3 c t2 /\ pressure_shifted c d t1 t2.

(** A field with its pressure raised by [d]. *)
Definition raised (c : Inputs) (d : R) (f : Array3) : Array3 :=
  tabulate3 (imax c) (jmax c) neq
    (fun i j k => if (k =? 0)%nat then get3 f i j k + d else get3 f i j k).

(** The source inputs in verification mode. *)
Definition mms_inputs : Inputs :=
  {| imax := 251; jmax := 251;
     nmax := 1000000000; iterout := 500;
     imms := 1; isgs := 1; irstr := 0; residualOut := 10;
     cfl := 0.8; Cx := 0.01; Cy := 0.01; toler := 1e-10; rkappa := 0.1;
     Re := 10; pinf := 0.801333844662; uinf := 1; rho := 1;
     xmin := 0; xmax := 0.05; ymin := 0; ymax := 0.05 |}.


(** The damping value the stencil loop of [Compute_Artificial_Viscosity]
    stores in [viscx] at node [(i,j)]. *)
Definition stencil_viscx (c : Inputs) (u : Array3) (i j : nat) : R :=
  let uvel2 := pow2 (get3 u i j 1) + pow2 (get3 u i j 2) in
  let beta2 := Rmax uvel2 (rkappa c * uinf c) in
  let lambda_x := 0.5 * (Rabs (get3 u i j 1) + sqrt (uvel2 + four * beta2)) in
  let d4pdx4 := (get3 u (i + 2) j 0 - four * get3 u (i + 1) j 0 + six * get3 u i j 0
                 - four * get3 u (i - 1) j 0 + get3 u (i - 2) j 0) / dx c in
  (- Rabs lambda_x * Cx c * d4pdx4) / beta2.

(** The nodes of the stencil loop: two cells or more from every wall. *)
Definition stencil_node (c : Inputs) (i j : nat) : Prop :=
  (2 <= i <= imax c - 3)%nat /\ (2 <= j <= jmax c - 3)%nat.

(** The three values a Gauss-Seidel sweep assigns at node [(i,j)], from
    the reads [rd] of the field: the pressure, the x-velocity, and the
    y-velocity, whose residual takes the x-velocity just assigned. *)
Definition node_update (c : Inputs) (rd : nat -> nat -> nat -> R)
    (viscx viscy dt : Array2) (s : Array3) (i j : nat) : R * R * R :=
  let uvel2 := pow2 (rd i j 1%nat) + pow2 (rd i j 2%nat) in
  let beta2 := Rmax uvel2 (rkappa c * uinf c) in
  let dpdx := (rd (i + 1)%nat j 0%nat - rd (i - 1)%nat j 0%nat) / (two * dx c) in
  let dpdy := (rd i (j + 1)%nat 0%nat - rd i (j - 1)%nat 0%nat) / (two * dy c) in
  let dudx := (rd (i + 1)%nat j 1%nat - rd (i - 1)%nat j 1%nat) / (two * dx c) in
  let dudy := (rd i (j + 1)%nat 1%nat - rd i (j - 1)%nat 1%nat) / (two * dy c) in
  let d2udx2 := (rd (i + 1)%nat j 1%nat - two * rd i j 1%nat + rd (i - 1)%nat j 1%nat)
                / (dx c * dx c) in
  let d2udy2 := (rd i (j + 1)%nat 1%nat - two * rd i j 1%nat + rd i (j - 1)%nat 1%nat)
                / (dy c * dy c) in
  let dvdx := (rd (i + 1)%nat j 2%nat - rd (i - 1)%nat j 2%nat) / (two * dx c) in
  let dvdy := (rd i (j + 1)%nat 2%nat - rd i (j - 1)%nat 2%nat) / (two * dy c) in
  let d2vdx2 := (rd (i + 1)%nat j 2%nat - two * rd i j 2%nat + rd (i - 1)%nat j 2%nat)
                / (dx c * dx c) in
  let d2vdy2 := (rd i (j + 1)%nat 2%nat - two * rd i j 2%nat + rd i (j - 1)%nat 2%nat)
                / (dy c * dy c) in
  let continuity_it_resid :=
    (rho c * dudx) + (rho c * dvdy) - get2 viscx i j - get2 viscy i j - get3 s i j 0 in
  let p := rd i j 0%nat - beta2 * get2 dt i j * continuity_it_resid in
  let xmomentum_it_resid :=
    (rho c * rd i j 1%nat * dudx) + (rho c * rd i j 2%nat * dudy) + dpdx
    - (rmu c * d2udx2) - (rmu c * d2udy2) - get3 s i j 1 in
  let unew := rd i j 1%nat - get2 dt i j * rhoinv c * xmomentum_it_resid in
  let ymomentum_it_resid :=
    (rho c * unew * dvdx) + (rho c * rd i j 2%nat * dvdy) + dpdy
    - (rmu c * d2vdx2) - (rmu c * d2vdy2) - get3 s i j 2 in
  let vnew := rd i j 2%nat - get2 dt i j * rhoinv c * ymomentum_it_resid in
  (p, unew, vnew).

(** Node [(a,b)] comes before node [(i,j)] in the order of the forward
    sweep: rows [j] from the bottom, each row from the left. *)
Definition swept_before (a b i j : nat) : bool :=
  ((b <? j) || ((b =? j) && (a <? i)))%nat.

(** * Properties *)

(** ** Loops *)

Lemma for_each_nil {S X : Type} (body : X -> S -> S) (s : S) :
  for_each [] body s = s.
Proof. reflexivity. Qed.

Lemma for_each_cons {S X : Type} (x : X) (xs : list X) (body : X -> S -> S) (s : S) :
  for_each (x :: xs) body s = for_each xs body (body x s).
Proof. reflexivity. Qed.

Lemma for_each_app {S X : Type} (xs ys : list X) (body : X -> S -> S) (s : S) :
  for_each (xs ++ ys) body s = for_each ys body (for_each xs body s).
Proof. unfold for_each. apply fold_left_app. Qed.

Lemma for_each_snoc {S X : Type} (xs : list X) (x : X) (body : X -> S -> S) (s : S) :
  for_each (xs ++ [x]) body s = body x (for_each xs body s).
Proof. rewrite for_each_app. reflexivity. Qed.

Lemma for_each_ext {S X : Type} (xs : list X) (f g : X -> S -> S) (s : S) :
  (forall x t, In x xs -> f x t = g x t) ->
  for_each xs f s = for_each xs g s.
Proof.
  revert s. induction xs as [|x xs IH]; intros s Hfg; [reflexivity|].
  rewrite !for_each_cons, (Hfg x s) by (left; reflexivity).
  apply IH. intros y t Hy. apply Hfg. right. exact Hy.
Qed.

(** A loop nest is one loop over the pairs of indices, in order. *)
Lemma for_each_nested {S X Y : Type} (xs : list X) (ys : list Y)
    (body : X -> Y -> S -> S) (s : S) :
  for_each xs (fun x => for_each ys (body x)) s
  = for_each (list_prod xs ys) (fun p => body (fst p) (snd p)) s.
Proof.
  revert s. induction xs as [|x xs IH]; intros s; [reflexivity|].
  rewrite for_each_cons. cbn [list_prod]. rewrite for_each_app, <- IH.
  f_equal. clear. revert s. induction ys as [|y ys IH]; intros s; [reflexivity|].
  cbn [map]. rewrite !for_each_cons. apply IH.
Qed.

(** An invariant of the body is an invariant of the loop. *)
Lemma for_each_invariant {S X : Type} (P : S -> Prop) (xs : list X)
    (body : X -> S -> S) (s : S) :
  (forall x t, In x xs -> P t -> P (body x t)) -> P s -> P (for_each xs body s).
Proof.
  revert s. induction xs as [|x xs IH]; intros s Hb Hs; [exact Hs|].
  rewrite for_each_cons. apply IH.
  - intros y t Hy. apply Hb. right. exact Hy.
  - apply Hb; [left; reflexivity | exact Hs].
Qed.

Lemma NoDup_list_prod {X Y : Type} (xs : list X) (ys : list Y) :
  NoDup xs -> NoDup ys -> NoDup (list_prod xs ys).
Proof.
  intros Hx Hy. induction Hx as [|x xs Hnin Hx IH]; [constructor|].
  cbn [list_prod]. apply NoDup_app. split; [|split].
  - apply NoDup_fmap_2; [|exact Hy]. intros a b E. congruence.
  - intros [a b] Ha Hb. apply list_elem_of_In in Ha, Hb.
    apply in_map_iff in Ha as (y & E & _). inversion E; subst.
    apply in_prod_iff in Hb as [Hb _]. apply Hnin, list_elem_of_In, Hb.
  - exact IH.
Qed.

(** Iterations that write disjoint sets of cells.

    [get s k] reads cell [k] of state [s]; [W x k] says that iteration [x]
    may assign cell [k].  When the iterations of a loop assign disjoint
    cells, a cell that no iteration assigns keeps its value, and a cell
    assigned by iteration [x] ends with the value [x] gives it in any state
    that agrees with the initial one outside the cells of the other
    iterations. *)

Section DisjointWrites.

Context {S X K : Type}.
Variable get : S -> K -> R.
Variable ok : S -> Prop.
Variable valid : K -> Prop.
Variable body : X -> S -> S.
Variable W : X -> K -> Prop.
Variable xs : list X.

Hypothesis ok_body : forall x s, In x xs -> ok s -> ok (body x s).
Hypothesis frame :
  forall x s k, In x xs -> ok s -> valid k -> ~ W x k -> get (body x s) k = get s k.

Lemma for_each_ok_sub (l : list X) (s : S) :
  incl l xs -> ok s -> ok (for_each l body s).
Proof.
  intros Hl. apply for_each_invariant. intros x t Hx. apply ok_body, Hl, Hx.
Qed.

Lemma for_each_frame_sub (l : list X) (s : S) (k : K) :
  incl l xs -> ok s -> valid k -> (forall x, In x l -> ~ W x k) ->
  get (for_each l body s) k = get s k.
Proof.
  revert s. induction l as [|x l IH]; intros s Hl Hs Hk Hw; [reflexivity|].
  rewrite for_each_cons, IH.
  - apply frame; auto. apply Hl. left. reflexivity. apply Hw. left. reflexivity.
  - intros y Hy. apply Hl. right. exact Hy.
  - apply ok_body; auto. apply Hl. left. reflexivity.
  - exact Hk.
  - intros y Hy. apply Hw. right. exact Hy.
Qed.

Lemma for_each_ok (s : S) : ok s -> ok (for_each xs body s).
Proof. apply for_each_ok_sub, incl_refl. Qed.

Lemma for_each_frame (s : S) (k : K) :
  ok s -> valid k -> (forall x, In x xs -> ~ W x k) ->
  get (for_each xs body s) k = get s k.
Proof. apply for_each_frame_sub, incl_refl. Qed.

Lemma for_each_value (s0 : S) (x : X) (k : K) (v : R) :
  NoDup xs -> In x xs -> ok s0 -> valid k ->
  (forall y, In y xs -> y <> x -> ~ W y k) ->
  (forall s, ok s ->
     (forall k', valid k' -> (forall y, In y xs -> y <> x -> ~ W y k') ->
                 get s k' = get s0 k') ->
     get (body x s) k = v) ->
  get (for_each xs body s0) k = v.
Proof.
  intros Hnd Hx Hs0 Hk Hdisj Hval.
  destruct (in_split _ _ Hx) as (l1 & l2 & E).
  assert (Hnd' := Hnd). rewrite E in Hnd'.
  apply NoDup_ListNoDup, NoDup_remove_2 in Hnd'.
  assert (H1 : incl l1 xs) by (rewrite E; apply incl_appl, incl_refl).
  assert (H2 : incl l2 xs) by (rewrite E; apply incl_appr, incl_tl, incl_refl).
  assert (Hne1 : forall y, In y l1 -> y <> x).
  { intros y Hy ->. apply Hnd', in_or_app. left. exact Hy. }
  assert (Hne2 : forall y, In y l2 -> y <> x).
  { intros y Hy ->. apply Hnd', in_or_app. right. exact Hy. }
  rewrite E at 1. rewrite for_each_app, for_each_cons.
  rewrite for_each_frame_sub; auto.
  - apply Hval; [apply for_each_ok_sub; auto|].
    intros k' Hk' Hw. apply for_each_frame_sub; auto.
  - apply ok_body; auto. apply for_each_ok_sub; auto.
Qed.

End DisjointWrites.

(** ** Arrays *)

Lemma index3_lt (A : Array3) (i j k : nat) :
  (i < idim3 A)%nat -> (j < jdim3 A)%nat -> (k < kdim3 A)%nat ->
  (index3 A i j k < idim3 A * jdim3 A * kdim3 A)%nat.
Proof.
  unfold index3. generalize (idim3 A) (jdim3 A) (kdim3 A). intros I J K Hi Hj Hk.
  assert (H1 : (i * J + j + 1 <= I * J)%nat) by nia.
  assert (H2 : ((i * J + j + 1) * K <= I * J * K)%nat) by (apply Nat.mul_le_mono_r; exact H1).
  nia.
Qed.

Lemma index3_inj (A : Array3) (i j k i' j' k' : nat) :
  (j < jdim3 A)%nat -> (k < kdim3 A)%nat -> (j' < jdim3 A)%nat -> (k' < kdim3 A)%nat ->
  index3 A i j k = index3 A i' j' k' -> i = i' /\ j = j' /\ k = k'.
Proof.
  unfold index3. generalize (jdim3 A) (kdim3 A). intros J K Hj Hk Hj' Hk' E.
  replace (i * J * K + j * K)%nat with ((i * J + j) * K)%nat in E by ring.
  replace (i' * J * K + j' * K)%nat with ((i' * J + j') * K)%nat in E by ring.
  assert (E1 : (i * J + j = i' * J + j')%nat).
  { destruct (Nat.lt_trichotomy (i * J + j) (i' * J + j')) as [L|[L|L]]; [nia | exact L | nia]. }
  assert (k = k') by nia.
  assert (i = i').
  { destruct (Nat.lt_trichotomy i i') as [L|[L|L]]; [nia | exact L | nia]. }
  subst. split; [reflexivity|]. split; [lia | reflexivity].
Qed.

Lemma index2_inj (A : Array2) (i j i' j' : nat) :
  (j < jdim2 A)%nat -> (j' < jdim2 A)%nat ->
  index2 A i j = index2 A i' j' -> i = i' /\ j = j'.
Proof.
  unfold index2. generalize (jdim2 A). intros J Hj Hj' E.
  assert (i = i').
  { destruct (Nat.lt_trichotomy i i') as [L|[L|L]]; [nia | exact L | nia]. }
  subst. split; [reflexivity | lia].
Qed.

Lemma shaped3_set3 (c : Inputs) (A : Array3) (i j k : nat) (v : R) :
  shaped3 c A -> shaped3 c (set3 A i j k v).
Proof.
  unfold shaped3, set3. cbn. rewrite length_insert. tauto.
Qed.

Lemma shaped2_set2 (c : Inputs) (A : Array2) (i j : nat) (v : R) :
  shaped2 c A -> shaped2 c (set2 A i j v).
Proof.
  unfold shaped2, set2. cbn. rewrite length_insert. tauto.
Qed.

Lemma get3_set3_same (c : Inputs) (A : Array3) (i j k : nat) (v : R) :
  shaped3 c A -> (i < imax c)%nat -> (j < jmax c)%nat -> (k < neq)%nat ->
  get3 (set3 A i j k v) i j k = v.
Proof.
  intros (Hi & Hj & Hk & Hlen) Hil Hjl Hkl. unfold get3, set3. cbn.
  change (index3 (mkArray3 _ _ _ _) i j k) with (index3 A i j k).
  rewrite nth_lookup, list_lookup_insert_eq; [reflexivity|].
  rewrite Hlen, <- Hi, <- Hj, <- Hk. apply index3_lt; lia.
Qed.

Lemma get3_set3_other (c : Inputs) (A : Array3) (i j k i' j' k' : nat) (v : R) :
  shaped3 c A -> (j < jmax c)%nat -> (k < neq)%nat -> (j' < jmax c)%nat -> (k' < neq)%nat ->
  i <> i' \/ j <> j' \/ k <> k' ->
  get3 (set3 A i j k v) i' j' k' = get3 A i' j' k'.
Proof.
  intros (Hi & Hj & Hk & Hlen) Hjl Hkl Hjl' Hkl' Hne. unfold get3, set3. cbn.
  change (index3 (mkArray3 _ _ _ _) i' j' k') with (index3 A i' j' k').
  rewrite !nth_lookup, list_lookup_insert_ne; [reflexivity|].
  intros E. apply index3_inj in E; lia.
Qed.

Lemma get2_set2_same (c : Inputs) (A : Array2) (i j : nat) (v : R) :
  shaped2 c A -> (i < imax c)%nat -> (j < jmax c)%nat ->
  get2 (set2 A i j v) i j = v.
Proof.
  intros (Hi & Hj & Hlen) Hil Hjl. unfold get2, set2. cbn.
  change (index2 (mkArray2 _ _ _) i j) with (index2 A i j).
  rewrite nth_lookup, list_lookup_insert_eq; [reflexivity|].
  rewrite Hlen. unfold index2. rewrite Hj. nia.
Qed.

Lemma get2_set2_other (c : Inputs) (A : Array2) (i j i' j' : nat) (v : R) :
  shaped2 c A -> (j < jmax c)%nat -> (j' < jmax c)%nat ->
  i <> i' \/ j <> j' ->
  get2 (set2 A i j v) i' j' = get2 A i' j'.
Proof.
  intros (Hi & Hj & Hlen) Hjl Hjl' Hne. unfold get2, set2. cbn.
  change (index2 (mkArray2 _ _ _) i' j') with (index2 A i' j').
  rewrite !nth_lookup, list_lookup_insert_ne; [reflexivity|].
  intros E. apply index2_inj in E; lia.
Qed.

(** Reading a tabulated field. *)
Lemma nth_flat_map_const {X : Type} (n m : nat) (g : nat -> list X) (d : X) (i j : nat) :
  (forall a, length (g a) = m) -> (i < n)%nat -> (j < m)%nat ->
  nth (i * m + j) (flat_map g (seq 0 n)) d = nth j (g i) d.
Proof.
  intros Hg Hi Hj.
  assert (G : forall lo, nth (i * m + j) (flat_map g (seq lo n)) d = nth j (g (lo + i)%nat) d).
  { revert i Hi. induction n as [|n IH]; intros i Hi lo; [lia|].
    cbn [seq flat_map]. destruct i as [|i].
    - rewrite app_nth1 by (rewrite Hg; lia). rewrite Nat.add_0_r. reflexivity.
    - rewrite app_nth2 by (rewrite Hg; lia). rewrite Hg.
      replace (S i * m + j - m)%nat with (i * m + j)%nat by lia.
      rewrite IH by lia. f_equal. f_equal. lia. }
  apply G.
Qed.

Lemma length_flat_map_const {X : Type} (n m : nat) (g : nat -> list X) (lo : nat) :
  (forall a, length (g a) = m) -> length (flat_map g (seq lo n)) = (n * m)%nat.
Proof.
  intros Hg. revert lo. induction n as [|n IH]; intros lo; [reflexivity|].
  cbn [seq flat_map]. rewrite length_app, Hg, IH. lia.
Qed.

Lemma get3_tabulate3 (ni nj nk : nat) (f : nat -> nat -> nat -> R) (i j k : nat) :
  (i < ni)%nat -> (j < nj)%nat -> (k < nk)%nat ->
  get3 (tabulate3 ni nj nk f) i j k = f i j k.
Proof.
  intros Hi Hj Hk. unfold get3, tabulate3, index3. cbn [data3 jdim3 kdim3].
  replace (i * nj * nk + j * nk + k)%nat with (i * (nj * nk) + (j * nk + k))%nat by ring.
  rewrite nth_flat_map_const with (m := (nj * nk)%nat); [| | exact Hi | nia].
  - rewrite nth_flat_map_const with (m := nk); [| | exact Hj | exact Hk].
    + rewrite nth_indep with (d' := f i j 0%nat) by (rewrite length_map, length_seq; exact Hk).
      rewrite map_nth, seq_nth by exact Hk. reflexivity.
    + intros a. rewrite length_map, length_seq. reflexivity.
  - intros a. apply length_flat_map_const. intros b. rewrite length_map, length_seq. reflexivity.
Qed.

Lemma get2_tabulate2 (ni nj : nat) (f : nat -> nat -> R) (i j : nat) :
  (i < ni)%nat -> (j < nj)%nat ->
  get2 (tabulate2 ni nj f) i j = f i j.
Proof.
  intros Hi Hj. unfold get2, tabulate2, index2. cbn [data2 jdim2].
  rewrite nth_flat_map_const with (m := nj); [| | exact Hi | exact Hj].
  - rewrite nth_indep with (d' := f i 0%nat) by (rewrite length_map, length_seq; exact Hj).
    rewrite map_nth, seq_nth by exact Hj. reflexivity.
  - intros a. rewrite length_map, length_seq. reflexivity.
Qed.

Lemma shaped3_tabulate3 (c : Inputs) (f : nat -> nat -> nat -> R) :
  shaped3 c (tabulate3 (imax c) (jmax c) neq f).
Proof.
  unfold shaped3, tabulate3. cbn [idim3 jdim3 kdim3 data3]. repeat split.
  rewrite length_flat_map_const with (m := (jmax c * neq)%nat); [ring|].
  intros a. apply length_flat_map_const. intros b. rewrite length_map, length_seq. reflexivity.
Qed.

Lemma shaped2_tabulate2 (c : Inputs) (f : nat -> nat -> R) :
  shaped2 c (tabulate2 (imax c) (jmax c) f).
Proof.
  unfold shaped2, tabulate2. cbn [idim2 jdim2 data2]. repeat split.
  apply length_flat_map_const. intros b. rewrite length_map, length_seq. reflexivity.
Qed.

Lemma for_range_nested {S : Type} (a b a' b' : nat) (body : nat -> nat -> S -> S) (s : S) :
  for_range a b (fun i => for_range a' b' (body i)) s
  = for_each (list_prod (seq a (b - a)) (seq a' (b' - a')))
             (fun p => body (fst p) (snd p)) s.
Proof. unfold for_range. apply for_each_nested. Qed.

Lemma in_nodes (a n a' n' : nat) (p : nat * nat) :
  In p (list_prod (seq a n) (seq a' n')) <->
  (a <= fst p < a + n)%nat /\ (a' <= snd p < a' + n')%nat.
Proof. destruct p as [i j]. rewrite in_prod_iff, !in_seq. reflexivity. Qed.

Lemma NoDup_nodes (a n a' n' : nat) : NoDup (list_prod (seq a n) (seq a' n')).
Proof. apply NoDup_list_prod; apply NoDup_seq. Qed.

Lemma cell_neq_iff (i j k i' j' k' : nat) :
  (i, j, k) <> (i', j', k') <-> i <> i' \/ j <> j' \/ k <> k'.
Proof.
  split.
  - intros Hne. destruct (Nat.eq_dec i i'); [|auto]. destruct (Nat.eq_dec j j'); [|auto].
    destruct (Nat.eq_dec k k'); [|auto]. subst. exfalso. apply Hne. reflexivity.
  - intros Hne E. inversion E. lia.
Qed.

Lemma node_neq_iff (i j i' j' : nat) :
  (i, j) <> (i', j') <-> i <> i' \/ j <> j'.
Proof.
  split.
  - intros Hne. destruct (Nat.eq_dec i i'); [|auto]. destruct (Nat.eq_dec j j'); [|auto].
    subst. exfalso. apply Hne. reflexivity.
  - intros Hne E. inversion E. lia.
Qed.

(** ** Pressure rescaling *)

Section PressureRescaling.

Variable c : Inputs.

Lemma pressure_rescaling_flat (u : Array3) :
  pressure_rescaling c u
  = for_each (list_prod (seq 0 (imax c - 0)) (seq 0 (jmax c - 0)))
      (fun p v => set3 v (fst p) (snd p) 0 (get3 v (fst p) (snd p) 0 - rescaling_deltap c u))
      u.
Proof.
  unfold pressure_rescaling. rewrite for_range_nested.
  unfold rescaling_deltap, reference_pressure.
  destruct (imms c =? 1)%Z; reflexivity.
Qed.

Lemma pressure_rescaling_shaped (u : Array3) :
  shaped3 c u -> shaped3 c (pressure_rescaling c u).
Proof.
  intros Hu. rewrite pressure_rescaling_flat. apply for_each_invariant; [|exact Hu].
  intros x t _ Ht. apply shaped3_set3, Ht.
Qed.

Lemma rescaling_body_frame (d : R) (p : nat * nat) (s : Array3) (k : cell) :
  In p (list_prod (seq 0 (imax c - 0)) (seq 0 (jmax c - 0))) ->
  shaped3 c s -> valid_cell c k -> k <> (fst p, snd p, 0%nat) ->
  get_cell (set3 s (fst p) (snd p) 0 (get3 s (fst p) (snd p) 0 - d)) k = get_cell s k.
Proof.
  destruct p as [a b], k as [[i' j'] k']. intros Hin Hs (Hi' & Hj' & Hk') Hw.
  apply in_nodes in Hin. apply cell_neq_iff in Hw. unfold get_cell, neq in *. cbn in *.
  apply (get3_set3_other c); auto; unfold neq; lia.
Qed.

Lemma pressure_rescaling_pressure (u : Array3) (i j : nat) :
  shaped3 c u -> (i < imax c)%nat -> (j < jmax c)%nat ->
  get3 (pressure_rescaling c u) i j 0 = get3 u i j 0 - rescaling_deltap c u.
Proof.
  intros Hu Hi Hj. rewrite pressure_rescaling_flat.
  apply (for_each_value get_cell (shaped3 c) (valid_cell c) _
           (fun p k => k = (fst p, snd p, 0%nat)) _)
    with (x := (i, j)) (k := (i, j, 0%nat)).
  - intros x s _ Hs. apply shaped3_set3, Hs.
  - intros. apply rescaling_body_frame; auto.
  - apply NoDup_nodes.
  - apply in_nodes. cbn. lia.
  - exact Hu.
  - unfold valid_cell, neq. cbn. lia.
  - intros [a b] _ Hne E. cbn in E. inversion E; subst. apply Hne. reflexivity.
  - intros s Hs Hagree. unfold get_cell. cbn [fst snd].
    rewrite (get3_set3_same c) by (auto; unfold neq; lia).
    f_equal. apply (Hagree (i, j, 0%nat)).
    + unfold valid_cell, neq. cbn. lia.
    + intros [a b] _ Hne E. cbn in E. inversion E; subst. apply Hne. reflexivity.
Qed.

Lemma pressure_rescaling_velocity (u : Array3) (i j k : nat) :
  shaped3 c u -> (i < imax c)%nat -> (j < jmax c)%nat -> (k = 1 \/ k = 2)%nat ->
  get3 (pressure_rescaling c u) i j k = get3 u i j k.
Proof.
  intros Hu Hi Hj Hk. rewrite pressure_rescaling_flat.
  apply (for_each_frame get_cell (shaped3 c) (valid_cell c) _
           (fun p k => k = (fst p, snd p, 0%nat)) _) with (k := (i, j, k)).
  - intros x s _ Hs. apply shaped3_set3, Hs.
  - intros. apply rescaling_body_frame; auto.
  - exact Hu.
  - unfold valid_cell, neq. cbn. lia.
  - intros [a b] _ E. inversion E. lia.
Qed.

Lemma pressure_rescaling_center_value (u : Array3) :
  shaped3 c u -> (0 < imax c)%nat -> (0 < jmax c)%nat ->
  get3 (pressure_rescaling c u) ((imax c - 1) / 2) ((jmax c - 1) / 2) 0
  = reference_pressure c.
Proof.
  intros Hu Hi Hj. rewrite pressure_rescaling_pressure.
  - unfold rescaling_deltap. lra.
  - exact Hu.
  - apply Nat.Div0.div_lt_upper_bound. lia.
  - apply Nat.Div0.div_lt_upper_bound. lia.
Qed.

(** C10: pressure rescaling leaves both velocity components of every node
    as they were and subtracts one constant from the pressure of every
    node, so the difference of the pressures of two nodes is kept. *)
Theorem pressure_rescaling_frame (u : Array3) :
  shaped3 c u ->
  (forall i j, (i < imax c)%nat -> (j < jmax c)%nat ->
     get3 (pressure_rescaling c u) i j 1 = get3 u i j 1 /\
     get3 (pressure_rescaling c u) i j 2 = get3 u i j 2 /\
     get3 (pressure_rescaling c u) i j 0 = get3 u i j 0 - rescaling_deltap c u) /\
  (forall i j i' j',
     (i < imax c)%nat -> (j < jmax c)%nat -> (i' < imax c)%nat -> (j' < jmax c)%nat ->
     get3 (pressure_rescaling c u) i j 0 - get3 (pressure_rescaling c u) i' j' 0
     = get3 u i j 0 - get3 u i' j' 0).
Proof.
  intros Hu. split.
  - intros i j Hi Hj. repeat split.
    + apply pressure_rescaling_velocity; auto.
    + apply pressure_rescaling_velocity; auto.
    + apply pressure_rescaling_pressure; auto.
  - intros i j i' j' Hi Hj Hi' Hj'. rewrite !pressure_rescaling_pressure by auto. lra.
Qed.

End PressureRescaling.

(** ** Local time step *)

Lemma for_each_snd_last {A B X : Type} (xs : list X) (body : X -> A * B -> A * B)
    (g : X -> B) (s : A * B) (x0 : X) :
  (forall x t, snd (body x t) = g x) -> xs <> [] ->
  snd (for_each xs body s) = g (List.last xs x0).
Proof.
  intros Hb Hne. destruct (exists_last Hne) as (l & x & ->).
  rewrite for_each_snoc, last_last. apply Hb.
Qed.

Lemma list_prod_snoc {X Y : Type} (xs : list X) (x : X) (ys : list Y) :
  list_prod (xs ++ [x]) ys = list_prod xs ys ++ map (pair x) ys.
Proof.
  induction xs as [|a xs IH]; cbn [app list_prod].
  - rewrite app_nil_r. reflexivity.
  - rewrite IH, app_assoc. reflexivity.
Qed.

Lemma last_list_prod {X Y : Type} (xs : list X) (ys : list Y) (x : X) (y : Y) (d : X * Y) :
  List.last (list_prod (xs ++ [x]) (ys ++ [y])) d = (x, y).
Proof.
  rewrite list_prod_snoc, map_app. cbn [map]. rewrite app_assoc. apply last_last.
Qed.

Section TimeStep.

Variable c : Inputs.

Lemma compute_time_step_flat (u : Array3) (dt : Array2) (dtmin : R) :
  compute_time_step c u dt dtmin
  = for_each (list_prod (seq 1 (imax c - 1 - 1)) (seq 1 (jmax c - 1 - 1)))
      (fun p s => (set2 (fst s) (fst p) (snd p) (local_time_step c u (fst p) (snd p)),
                   local_time_step c u (fst p) (snd p)))
      (dt, dtmin).
Proof.
  unfold compute_time_step. rewrite for_range_nested. apply for_each_ext.
  intros [i j] [d m] _. reflexivity.
Qed.

Lemma compute_time_step_dtmin (u : Array3) (dt : Array2) (dtmin : R) :
  (3 <= imax c)%nat -> (3 <= jmax c)%nat ->
  snd (compute_time_step c u dt dtmin)
  = local_time_step c u (imax c - 2) (jmax c - 2).
Proof.
  intros Hi Hj. rewrite compute_time_step_flat.
  rewrite for_each_snd_last
    with (g := fun p => local_time_step c u (fst p) (snd p)) (x0 := (0%nat, 0%nat)).
  - replace (imax c - 1 - 1)%nat with (S (imax c - 3)) by lia.
    replace (jmax c - 1 - 1)%nat with (S (jmax c - 3)) by lia.
    rewrite !seq_S, last_list_prod. cbn [fst snd]. f_equal; lia.
  - reflexivity.
  - replace (imax c - 1 - 1)%nat with (S (imax c - 3)) by lia.
    replace (jmax c - 1 - 1)%nat with (S (jmax c - 3)) by lia.
    cbn. discriminate.
Qed.


Lemma compute_time_step_dt (u : Array3) (dt : Array2) (dtmin : R) (i j : nat) :
  shaped2 c dt -> (1 <= i <= imax c - 2)%nat -> (1 <= j <= jmax c - 2)%nat ->
  get2 (fst (compute_time_step c u dt dtmin)) i j = local_time_step c u i j.
Proof.
  intros Hdt Hi Hj. rewrite compute_time_step_flat.
  apply (for_each_value (fun (s : Array2 * R) (k : nat * nat) => get2 (fst s) (fst k) (snd k))
           (fun s => shaped2 c (fst s))
           (fun k => (fst k < imax c)%nat /\ (snd k < jmax c)%nat) _
           (fun p k => k = p) _)
    with (x := (i, j)) (k := (i, j)).
  - intros x s _ Hs. apply shaped2_set2, Hs.
  - intros [a b] s [i' j'] Hin Hs (Hi' & Hj') Hw. cbn [fst snd] in *.
    apply in_nodes in Hin. apply node_neq_iff in Hw. cbn [fst snd] in Hin.
    apply (get2_set2_other c); auto; lia.
  - apply NoDup_nodes.
  - apply in_nodes. cbn [fst snd]. lia.
  - exact Hdt.
  - cbn [fst snd]. lia.
  - intros y _ Hne E. apply Hne. symmetry. exact E.
  - intros s Hs _. cbn [fst snd]. apply (get2_set2_same c); auto; lia.
Qed.

End TimeStep.

(** The source inputs: a fast node and a node at rest. *)

Lemma INR_250 : INR 250 = 250.
Proof. rewrite INR_IZR_INZ. reflexivity. Qed.

Lemma lts_rest : local_time_step source_inputs (one_fast_node source_inputs) 249 249 = 0.0000016.
Proof.
  unfold local_time_step, one_fast_node.
  rewrite !get3_tabulate3 by (cbn; unfold neq; lia).
  cbn [Nat.eqb andb Nat.leb].
  unfold dx, dy, rmu, rhoinv, rlength. cbn [imax jmax source_inputs xmax xmin ymax ymin rho uinf Re cfl rkappa].
  change (251 - 1)%nat with 250%nat. rewrite INR_250.
  replace (Rmax (0 * 0 + 0 * 0) (0.1 * 1)) with 0.1 by (rewrite Rmax_right; lra).
  rewrite Rabs_R0. unfold pow2.
  set (q := sqrt (0 * 0 + 4 * 0.1)).
  assert (Hq : 0 < q <= 1).
  { split.
    - apply sqrt_lt_R0. lra.
    - rewrite <- sqrt_1. apply sqrt_le_1_alt. lra. }
  destruct (Rgt_dec _ _) as [_|_].
  all: rewrite (Rmin_left ((0.05 - 0) / 250)) by lra.
  all: replace ((0.05 - 0) / 250 * ((0.05 - 0) / 250) / (4 * (1 * 1 * (0.05 - 0) / 10) * (1 / 1))) with 0.000002 by lra.
  all: rewrite Rmin_right; [lra|].
  all: apply Rmult_le_reg_r with (r := 0.5 * (0 + q)); [lra|].
  all: replace ((0.05 - 0) / 250 / (0.5 * (0 + q)) * (0.5 * (0 + q)))
         with ((0.05 - 0) / 250) by (field; lra).
  all: lra.
Qed.

Lemma sqrt_sq_const (x y : R) : 0 <= y -> x = y * y -> sqrt x = y.
Proof. intros Hy ->. apply sqrt_square, Hy. Qed.

Lemma lts_fast : local_time_step source_inputs (one_fast_node source_inputs) 1 1 = 0.0000004.
Proof.
  unfold local_time_step, one_fast_node.
  rewrite !get3_tabulate3 by (cbn; unfold neq; lia).
  cbn [Nat.eqb andb Nat.leb].
  unfold dx, dy, rmu, rhoinv, rlength. cbn [imax jmax source_inputs xmax xmin ymax ymin rho uinf Re cfl rkappa].
  change (251 - 1)%nat with 250%nat. rewrite INR_250.
  replace (Rmax (200 * 200 + 200 * 200) (0.1 * 1)) with 80000 by (rewrite Rmax_left; lra).
  rewrite (Rabs_pos_eq 200) by lra. unfold pow2.
  rewrite (sqrt_sq_const (200 * 200 + 4 * 80000) 600) by lra.
  destruct (Rgt_dec _ _) as [_|_].
  all: rewrite (Rmin_left ((0.05 - 0) / 250)) by lra.
  all: rewrite Rmin_left; lra.
Qed.

Lemma main_iteration_time (c : Inputs) (iterationStep : iterationStepPointer)
    (bc : boundaryConditionPointer) (ninit n : Z) (s : State) :
  dtmin (main_iteration c iterationStep bc ninit n s)
  = snd (compute_time_step c (u s) (dt s) (dtmin s)) /\
  rtime (main_iteration c iterationStep bc ninit n s)
  = rtime s + snd (compute_time_step c (u s) (dt s) (dtmin s)).
Proof.
  unfold main_iteration.
  destruct (compute_time_step c (u s) (dt s) (dtmin s)) as [dt' dtmin'].
  destruct (iterationStep bc (u s) (uold s) (src s) (viscx s) (viscy s) dt')
    as [[[u' uold'] viscx'] viscy'].
  destruct (check_iterative_convergence _ _ _ _ _ _ _ _ _ _) as [res' conv'].
  split; reflexivity.
Qed.

(** C6: after [compute_time_step] the scalar [dtmin] is the local step
    [cfl * min(dtconv, dtvisc)] of the last interior node the loop visits,
    [(imax-2, jmax-2)]; the main loop adds this value to [rtime] and keeps
    it as [dtmin].  It is not the minimum of [dt] over the grid: it can
    exceed the step stored at another node. *)
Theorem dtmin_is_last_node_step (c : Inputs) (iterationStep : iterationStepPointer)
    (bc : boundaryConditionPointer) (ninit n : Z) (s : State) :
  (3 <= imax c)%nat -> (3 <= jmax c)%nat ->
  snd (compute_time_step c (u s) (dt s) (dtmin s))
  = local_time_step c (u s) (imax c - 2) (jmax c - 2) /\
  dtmin (main_iteration c iterationStep bc ninit n s)
  = local_time_step c (u s) (imax c - 2) (jmax c - 2) /\
  rtime (main_iteration c iterationStep bc ninit n s)
  = rtime s + local_time_step c (u s) (imax c - 2) (jmax c - 2) /\
  ~ (forall c' u' dt' d' i j,
       shaped2 c' dt' -> (1 <= i <= imax c' - 2)%nat -> (1 <= j <= jmax c' - 2)%nat ->
       snd (compute_time_step c' u' dt' d') <= get2 (fst (compute_time_step c' u' dt' d')) i j).
Proof.
  intros Hi Hj.
  destruct (main_iteration_time c iterationStep bc ninit n s) as [E1 E2].
  rewrite E1, E2, compute_time_step_dtmin by assumption.
  repeat split.
  intros Hmin.
  specialize (Hmin source_inputs (one_fast_node source_inputs)
                (tabulate2 251 251 (fun _ _ => 0)) 0 1%nat 1%nat
                (shaped2_tabulate2 source_inputs _)).
  rewrite compute_time_step_dtmin, compute_time_step_dt in Hmin;
    try apply shaped2_tabulate2; try (cbn; lia).
  change (imax source_inputs - 2)%nat with 249%nat in Hmin.
  change (jmax source_inputs - 2)%nat with 249%nat in Hmin.
  rewrite lts_rest, lts_fast in Hmin.
  assert (H1 : (1 <= 1 <= imax source_inputs - 2)%nat) by (cbn; lia).
  specialize (Hmin H1 H1). lra.
Qed.

Lemma dtmin_is_last_node_step_witness :
  (3 <= imax source_inputs)%nat /\ (3 <= jmax source_inputs)%nat /\
  snd (compute_time_step source_inputs
         (u (state_of_field source_inputs (one_fast_node source_inputs)))
         (dt (state_of_field source_inputs (one_fast_node source_inputs)))
         (dtmin (state_of_field source_inputs (one_fast_node source_inputs))))
  = local_time_step source_inputs
      (u (state_of_field source_inputs (one_fast_node source_inputs))) 249 249.
Proof.
  assert (H : (3 <= 251)%nat) by lia.
  split; [exact H|]. split; [exact H|].
  exact (proj1 (dtmin_is_last_node_step source_inputs (GS_iteration source_inputs)
                  (bndry source_inputs) 1 1
                  (state_of_field source_inputs (one_fast_node source_inputs)) H H)).
Defined.

(** ** Iterative convergence *)

Lemma pow2_Rabs (r : R) : pow2 (Rabs r) = r * r.
Proof.
  unfold pow2. cbv zeta. rewrite <- Rabs_mult. apply Rabs_pos_eq. nra.
Qed.

Lemma Rsum_cons (x : R) (l : list R) : Rsum (x :: l) = x + Rsum l.
Proof. reflexivity. Qed.

(** A loop that adds one term per iteration to each of three sums. *)
Lemma for_each_three_sums {X : Type} (xs : list X) (step : X -> list R * R -> list R * R)
    (f0 f1 f2 : X -> R) :
  (forall x a b d lr,
     fst (step x ([a; b; d], lr)) = [a + f0 x; b + f1 x; d + f2 x]) ->
  forall a b d lr,
    fst (for_each xs step ([a; b; d], lr))
    = [a + Rsum (map f0 xs); b + Rsum (map f1 xs); d + Rsum (map f2 xs)].
Proof.
  intros Hstep. induction xs as [|x xs IH]; intros a b d lr.
  - cbn. f_equal; [lra | f_equal; [lra | f_equal; lra]].
  - rewrite for_each_cons. specialize (Hstep x a b d lr).
    destruct (step x ([a; b; d], lr)) as [r lr']. cbn [fst] in Hstep. subst r.
    rewrite IH. cbn [map]. rewrite !Rsum_cons.
    f_equal; [lra | f_equal; [lra | f_equal; lra]].
Qed.

Section Monitor.

Variable c : Inputs.

Lemma check_iterative_convergence_res (n : Z) (u uold : Array3) (dt : Array2)
    (res resinit : list R) (ninit : Z) (rtime dtmin : R) :
  length res = 3%nat ->
  check_iterative_convergence c n u uold dt res resinit ninit rtime dtmin
  = ([sqrt (sum_sq_resid c u uold dt 0 / INR (imax c * jmax c));
      sqrt (sum_sq_resid c u uold dt 1 / INR (imax c * jmax c));
      sqrt (sum_sq_resid c u uold dt 2 / INR (imax c * jmax c))],
     Rmax (sqrt (sum_sq_resid c u uold dt 0 / INR (imax c * jmax c)))
          (Rmax (sqrt (sum_sq_resid c u uold dt 1 / INR (imax c * jmax c)))
                (sqrt (sum_sq_resid c u uold dt 2 / INR (imax c * jmax c))))
     / sqrt (pow2 (sub resinit 0) / INR (imax c * jmax c))).
Proof.
  intros Hlen. destruct res as [|a [|b [|d [|? ?]]]]; try discriminate. clear Hlen.
  unfold check_iterative_convergence. cbn [insert list_insert].
  rewrite for_range_nested.
  match goal with
  | |- context [for_each ?l ?f ?s] =>
      pose proof (for_each_three_sums l f
        (fun p => local_resid c u uold dt 0 (fst p) (snd p) * local_resid c u uold dt 0 (fst p) (snd p))
        (fun p => local_resid c u uold dt 1 (fst p) (snd p) * local_resid c u uold dt 1 (fst p) (snd p))
        (fun p => local_resid c u uold dt 2 (fst p) (snd p) * local_resid c u uold dt 2 (fst p) (snd p)))
        as H;
      destruct (for_each l f s) as [r lr] eqn:E
  end.
  assert (Hr : r = [0 + sum_sq_resid c u uold dt 0; 0 + sum_sq_resid c u uold dt 1;
                    0 + sum_sq_resid c u uold dt 2]).
  { change r with (fst (r, lr)). rewrite <- E. unfold sum_sq_resid, interior.
    replace (imax c - 2)%nat with (imax c - 1 - 1)%nat by lia.
    replace (jmax c - 2)%nat with (jmax c - 1 - 1)%nat by lia.
    apply H. intros x a' b' d' lr'.
    unfold for_range, neq. cbn [Nat.sub seq for_each fold_left Nat.eqb fst].
    unfold sub. repeat (cbn [nth insert list_insert]). rewrite !pow2_Rabs. reflexivity. }
  subst r. unfold sub. repeat (cbn [nth insert list_insert]).
  rewrite !Rplus_0_l. reflexivity.
Qed.

(** C4: the monitor leaves in [res[k]] the square root of the sum, over
    the interior nodes, of the squared residual of equation [k], divided by
    [imax * jmax]; the convergence ratio is the largest of the three
    divided by [sqrt(resinit[0]^2 / (imax * jmax))], so that [resinit[1]]
    and [resinit[2]] have no influence on it. *)
Theorem check_iterative_convergence_norms (n : Z) (u uold : Array3) (dt : Array2)
    (res resinit : list R) (ninit : Z) (rtime dtmin : R) :
  length res = 3%nat ->
  let res' := fst (check_iterative_convergence c n u uold dt res resinit ninit rtime dtmin) in
  let conv' := snd (check_iterative_convergence c n u uold dt res resinit ninit rtime dtmin) in
  (forall k, (k < 3)%nat ->
     sub res' k = sqrt (sum_sq_resid c u uold dt k / INR (imax c * jmax c))) /\
  conv' = Rmax (sub res' 0) (Rmax (sub res' 1) (sub res' 2))
          / sqrt (pow2 (sub resinit 0) / INR (imax c * jmax c)) /\
  (forall resinit', sub resinit' 0 = sub resinit 0 ->
     snd (check_iterative_convergence c n u uold dt res resinit' ninit rtime dtmin) = conv').
Proof.
  intros Hlen res' conv'. subst res' conv'.
  rewrite check_iterative_convergence_res by exact Hlen. cbn [fst snd].
  split; [|split].
  - intros k Hk. destruct k as [|[|[|k]]]; try lia; reflexivity.
  - reflexivity.
  - intros resinit' E. rewrite check_iterative_convergence_res by exact Hlen.
    cbn [snd]. rewrite E. reflexivity.
Qed.

End Monitor.

Lemma check_iterative_convergence_norms_witness :
  length [0; 0; 0] = 3%nat /\
  sub (fst (check_iterative_convergence source_inputs 1
              (one_fast_node source_inputs) (one_fast_node source_inputs)
              (tabulate2 251 251 (fun _ _ => 1)) [0; 0; 0] [1; 1; 1] 1 0 0)) 0
  = sqrt (sum_sq_resid source_inputs (one_fast_node source_inputs)
            (one_fast_node source_inputs) (tabulate2 251 251 (fun _ _ => 1)) 0
          / INR (imax source_inputs * jmax source_inputs)).
Proof.
  split; [reflexivity|].
  exact (proj1 (check_iterative_convergence_norms source_inputs 1
                  (one_fast_node source_inputs) (one_fast_node source_inputs)
                  (tabulate2 251 251 (fun _ _ => 1)) [0; 0; 0] [1; 1; 1] 1 0 0 eq_refl)
               0%nat ltac:(lia)).
Defined.

(** ** NaN and infinite residuals *)

Module IEEEFacts.
Import IEEE.

Lemma sqrt_unsigned (x : double) : unsigned (IEEE.sqrt x).
Proof.
  destruct x as [a| | |]; cbn.
  - destruct (Rlt_dec a 0).
    + left. reflexivity.
    + right. right. exists (R_sqrt.sqrt a). split; [reflexivity | apply sqrt_pos].
  - right. left. reflexivity.
  - left. reflexivity.
  - left. reflexivity.
Qed.

Lemma lt_NaN (y : double) : lt NaN y = false.
Proof. reflexivity. Qed.

Lemma lt_PInf (y : double) : lt PInf y = false.
Proof. destruct y; reflexivity. Qed.

Lemma div_PInf_unsigned (y : double) :
  unsigned y -> div PInf y = PInf \/ div PInf y = NaN.
Proof.
  intros [ -> | [ -> | (r & -> & Hr) ] ]; cbn; auto.
  destruct (Rlt_dec r 0); [lra | auto].
Qed.

Lemma fmax_PInf_l (y : double) : fmax PInf y = PInf.
Proof. destruct y; reflexivity. Qed.

Lemma fmax_PInf_r (x : double) : fmax x PInf = PInf.
Proof. destruct x; reflexivity. Qed.

Lemma nan_or_inf_unsigned (x : double) :
  nan_or_inf x -> unsigned x -> x = NaN \/ x = PInf.
Proof.
  intros [ -> | [ -> | -> ] ] Hu; auto.
  destruct Hu as [E|[E|(r & E & _)]]; discriminate.
Qed.

Lemma div_Num (a b : R) : b <> 0 -> div (Num a) (Num b) = Num (a / b).
Proof. intros Hb. cbn. destruct (Req_dec_T b 0); [contradiction | reflexivity]. Qed.

Lemma sqrt_Num (a : R) : 0 <= a -> IEEE.sqrt (Num a) = Num (R_sqrt.sqrt a).
Proof. intros Ha. cbn. destruct (Rlt_dec a 0); [lra | reflexivity]. Qed.

Lemma lt_Num (a b : R) : a < b -> lt (Num a) (Num b) = true.
Proof. intros Hab. cbn. destruct (Rlt_dec a b); [reflexivity | contradiction]. Qed.

Section Monitor.
Variable c : Inputs.

Lemma residual_norms_unsigned (sums : double * double * double) :
  unsigned (fst (fst (residual_norms c sums))) /\
  unsigned (snd (fst (residual_norms c sums))) /\
  unsigned (snd (residual_norms c sums)).
Proof.
  destruct sums as [[s0 s1] s2]. cbn [residual_norms fst snd].
  repeat split; apply sqrt_unsigned.
Qed.

(** When the largest norm, as [fmax] finds it, is NaN or plus infinity,
    the test is false. *)
Lemma ratio_blocked (res : double * double * double) (resinit0 : double) :
  (fmax (fst (fst res)) (fmax (snd (fst res)) (snd res)) = NaN \/
   fmax (fst (fst res)) (fmax (snd (fst res)) (snd res)) = PInf) ->
  converged_test c (convergence_ratio c res resinit0) = false.
Proof.
  destruct res as [[r0 r1] r2]. cbn [fst snd]. unfold convergence_ratio, converged_test.
  intros [E|E]; rewrite E.
  - reflexivity.
  - destruct (div_PInf_unsigned _ (sqrt_unsigned
      (div (IEEE.pow2 resinit0) (Num (INR (imax c * jmax c)))))) as [E'|E']; rewrite E'.
    + apply lt_PInf.
    + apply lt_NaN.
Qed.

Lemma diverged_test_false (sums : double * double * double) (resinit0 : double) :
  diverged (residual_norms c sums) ->
  converged_test c (convergence_ratio c (residual_norms c sums) resinit0) = false.
Proof.
  intros Hd. apply ratio_blocked.
  destruct (residual_norms_unsigned sums) as (U0 & U1 & U2).
  unfold diverged in Hd.
  destruct (residual_norms c sums) as [[r0 r1] r2]. cbn [fst snd] in *.
  destruct Hd as [(H0 & H1 & H2) | [ -> | [ -> | -> ] ] ].
  - destruct (nan_or_inf_unsigned _ H0 U0) as [ -> | -> ],
             (nan_or_inf_unsigned _ H1 U1) as [ -> | -> ],
             (nan_or_inf_unsigned _ H2 U2) as [ -> | -> ]; cbn; auto.
  - right. apply fmax_PInf_l.
  - right. rewrite fmax_PInf_l. apply fmax_PInf_r.
  - right. rewrite fmax_PInf_r. apply fmax_PInf_r.
Qed.

(** C9, as the code has it: when every residual norm is NaN or infinite,
    or one of them is plus infinity, the ratio is NaN or plus infinity and
    [conv < toler] is false, so that iteration does not take the converged
    exit; a run in which this holds at every iteration leaves the loop
    through the iteration cap.  The monitor has no other test, so it does
    not tell such a run from one that is slow to converge. *)
Theorem diverged_run_not_converged (sums_at : Z -> double * double * double)
    (resinit0 : double) (fuel : nat) (ninit : Z) :
  (forall n, diverged (residual_norms c (sums_at n))) ->
  (forall n, converged_test c
               (convergence_ratio c (residual_norms c (sums_at n)) resinit0) = false) /\
  monitored_run c sums_at resinit0 fuel ninit = notconverged.
Proof.
  intros Hd. split.
  - intros n. apply diverged_test_false, Hd.
  - unfold monitored_run. generalize ninit at 2. revert ninit.
    induction fuel as [|fuel IH]; intros n s; [reflexivity|].
    cbn [control_loop]. rewrite diverged_test_false by apply Hd. apply IH.
Qed.

End Monitor.

Lemma diverged_run_not_converged_witness :
  (forall n : Z, diverged (residual_norms source_inputs ((fun _ => (NaN, NaN, NaN)) n))) /\
  monitored_run source_inputs (fun _ => (NaN, NaN, NaN)) (Num 1) 10 1 = notconverged.
Proof.
  assert (H : forall n : Z,
             diverged (residual_norms source_inputs ((fun _ => (NaN, NaN, NaN)) n))).
  { intros n. left. cbn [residual_norms div IEEE.sqrt fst snd].
    split; [left; reflexivity|]. split; left; reflexivity. }
  split; [exact H|].
  exact (proj2 (diverged_run_not_converged source_inputs (fun _ => (NaN, NaN, NaN))
                  (Num 1) 10 1 H)).
Defined.

(** C9 as the specification words it fails: [fmax] drops a NaN argument.
    With a NaN continuity norm beside two momentum norms of zero the ratio
    is zero, the test is true and the loop takes the converged exit. *)
Lemma nan_beside_numbers_converges :
  nan_or_inf (fst (fst (residual_norms source_inputs (NaN, Num 0, Num 0)))) /\
  converged_test source_inputs
    (convergence_ratio source_inputs (residual_norms source_inputs (NaN, Num 0, Num 0)) (Num 1))
  = true /\
  monitored_run source_inputs (fun _ => (NaN, Num 0, Num 0)) (Num 1) 10 1 = converged 1.
Proof.
  cbn [residual_norms fst snd]. split; [left; reflexivity|].
  assert (E : converged_test source_inputs
    (convergence_ratio source_inputs (residual_norms source_inputs (NaN, Num 0, Num 0)) (Num 1))
    = true).
  { unfold residual_norms, convergence_ratio, converged_test, IEEE.pow2.
    assert (HN : 0 < INR (imax source_inputs * jmax source_inputs)).
    { apply lt_0_INR. cbn [imax jmax source_inputs]. apply Nat.mul_pos_pos; lia. }
    set (N := INR (imax source_inputs * jmax source_inputs)) in *.
    cbn [mul]. rewrite !div_Num by lra.
    replace (0 / N) with 0 by (field; lra).
    rewrite !sqrt_Num, sqrt_0; [|apply Rlt_le, Rdiv_lt_0_compat; lra | lra].
    cbn [fmax]. rewrite Rmax_left by lra.
    assert (Hs : 0 < R_sqrt.sqrt (1 * 1 / N)).
    { apply sqrt_lt_R0, Rdiv_lt_0_compat; lra. }
    change (div NaN (Num N)) with NaN. change (IEEE.sqrt NaN) with NaN. cbn [fmax].
    rewrite div_Num by lra. apply lt_Num.
    replace (0 / R_sqrt.sqrt (1 * 1 / N)) with 0 by (field; lra).
    cbn [toler source_inputs]. lra. }
  split; [exact E|].
  unfold monitored_run. cbn [control_loop]. rewrite E. reflexivity.
Qed.

End IEEEFacts.

(** ** Boundary conditions *)

Ltac shaped := repeat apply shaped3_set3; assumption.

(** Index arithmetic, with the facts about field values out of the way. *)
Ltac index_lia :=
  repeat match goal with
         | H : context [get_cell] |- _ => clear H
         | H : context [get3] |- _ => clear H
         | H : context [get2] |- _ => clear H
         end;
  unfold neq in *; cbn [fst snd] in *; lia.

Ltac side := first [ shaped | index_lia ].

Ltac get_set c :=
  repeat first [ rewrite (get3_set3_same c) by side
               | rewrite (get3_set3_other c) by side ].

Ltac unfold_cells :=
  unfold side_cell, top_bottom_cell, node_cell, get_cell, valid_cell in *.

(** For a loop over a field: its body keeps the shape, and leaves alone
    the cells outside [W]. *)
Ltac loop_facts c W :=
  match goal with
  | |- context [for_each ?xs ?f _] =>
      assert (Hok : forall x s, In x xs -> shaped3 c s -> shaped3 c (f x s))
        by (intros ? ? _ ?; cbv beta; cbn [wr3 rd3 Array3_Field3]; cbv zeta; shaped);
      assert (Hframe : forall x s k', In x xs -> shaped3 c s -> valid_cell c k' ->
                ~ W x k' -> get_cell (f x s) k' = get_cell s k')
        by (let Hin := fresh "Hin" in
            intros ? ? [[? ?] ?] Hin ? (? & ? & ?) ?;
            apply in_seq in Hin; unfold_cells;
            cbn [fst snd wr3 rd3 Array3_Field3] in *; cbv beta zeta;
            get_set c; reflexivity)
  end.

Ltac loop_frame c W ii jj kk :=
  apply (for_each_frame get_cell (shaped3 c) (valid_cell c) _ W _)
    with (k := (ii, jj, kk)); auto;
  [ unfold_cells; index_lia
  | let Hin := fresh "Hin" in
    intros ? Hin; apply in_seq in Hin; unfold_cells; index_lia ].

Ltac loop_value c W xx ii jj kk :=
  apply (for_each_value get_cell (shaped3 c) (valid_cell c) _ W _)
    with (x := xx) (k := (ii, jj, kk)); auto;
  [ apply NoDup_seq | apply in_seq; index_lia | unfold_cells; index_lia
  | intros ? _ ?; unfold_cells; index_lia | ].

Section Cavity.

Variable c : Inputs.
Hypothesis Himax : (4 <= imax c)%nat.
Hypothesis Hjmax : (4 <= jmax c)%nat.

Lemma bndry_side_walls_shaped (u : Array3) :
  shaped3 c u -> shaped3 c (bndry_side_walls c u).
Proof.
  intros Hu. unfold bndry_side_walls, for_range. apply for_each_invariant; [|exact Hu].
  intros j t _ Ht. cbn [wr3 rd3 Array3_Field3]. shaped.
Qed.

Lemma bndry_top_bottom_walls_shaped (u : Array3) :
  shaped3 c u -> shaped3 c (bndry_top_bottom_walls c u).
Proof.
  intros Hu. unfold bndry_top_bottom_walls, for_range. apply for_each_invariant; [|exact Hu].
  intros j t _ Ht. cbn [wr3 rd3 Array3_Field3]. shaped.
Qed.

Lemma bndry_side_walls_value (u : Array3) (i j k : nat) :
  shaped3 c u -> (i < imax c)%nat -> (j < jmax c)%nat -> (k < neq)%nat ->
  get3 (bndry_side_walls c u) i j k = bndry_side_walls_spec c u i j k.
Proof.
  intros Hu Hi Hj Hk. unfold bndry_side_walls, for_range.
  loop_facts c (side_cell c).
  unfold bndry_side_walls_spec.
  destruct (Nat.eqb_spec i 0) as [-> | Hi0]; [|destruct (Nat.eqb_spec i (imax c - 1)) as [-> | Hi1]].
  3: loop_frame c (side_cell c) i j k.
  1: loop_value c (side_cell c) j 0%nat j k.
  2: loop_value c (side_cell c) j (imax c - 1)%nat j k.
  all: intros s Hs Hagree; unfold get_cell; cbn [fst snd wr3 rd3 Array3_Field3]; cbv zeta.
  all: assert (Hin : forall i' k', (1 <= i' <= imax c - 2)%nat -> (k' < neq)%nat ->
                      get3 s i' j k' = get3 u i' j k')
         by (intros i' k' Hi' Hk'; apply (Hagree (i', j, k'));
             [ unfold_cells; index_lia | intros y _ _; unfold_cells; index_lia ]).
  all: destruct k as [|[|[|k]]]; try (exfalso; index_lia); cbn [Nat.eqb].
  all: get_set c; rewrite ?Hin by index_lia; reflexivity.
Qed.

Lemma bndry_top_bottom_walls_value (u : Array3) (i j k : nat) :
  shaped3 c u -> (i < imax c)%nat -> (j < jmax c)%nat -> (k < neq)%nat ->
  get3 (bndry_top_bottom_walls c u) i j k = bndry_top_bottom_walls_spec c u i j k.
Proof.
  intros Hu Hi Hj Hk. unfold bndry_top_bottom_walls, for_range.
  loop_facts c (top_bottom_cell c).
  unfold bndry_top_bottom_walls_spec.
  destruct (Nat.leb_spec 1 i) as [Hi1 | Hi1]; [destruct (Nat.leb_spec i (imax c - 2)) as [Hi2 | Hi2]|];
    cbn [andb].
  1: destruct (Nat.eqb_spec j 0) as [-> | Hj0];
       [|destruct (Nat.eqb_spec j (jmax c - 1)) as [-> | Hj1]].
  1: loop_value c (top_bottom_cell c) i i 0%nat k.
  2: loop_value c (top_bottom_cell c) i i (jmax c - 1)%nat k.
  3, 4, 5: loop_frame c (top_bottom_cell c) i j k.
  all: intros s Hs Hagree; unfold get_cell; cbn [fst snd wr3 rd3 Array3_Field3]; cbv zeta.
  all: assert (Hin : forall j' k', (1 <= j' <= jmax c - 2)%nat -> (k' < neq)%nat ->
                      get3 s i j' k' = get3 u i j' k')
         by (intros j' k' Hj' Hk'; apply (Hagree (i, j', k'));
             [ unfold_cells; index_lia | intros y _ _; unfold_cells; index_lia ]).
  all: destruct k as [|[|[|k]]]; try (exfalso; index_lia); cbn [Nat.eqb].
  all: get_set c; rewrite ?Hin by index_lia; reflexivity.
Qed.

Lemma bndrymms_side_walls_shaped (u : Array3) :
  shaped3 c u -> shaped3 c (bndrymms_side_walls c u).
Proof.
  intros Hu. unfold bndrymms_side_walls, for_range. apply for_each_invariant; [|exact Hu].
  intros j t _ Ht. cbv zeta. shaped.
Qed.

Lemma bndrymms_top_bottom_walls_shaped (u : Array3) :
  shaped3 c u -> shaped3 c (bndrymms_top_bottom_walls c u).
Proof.
  intros Hu. unfold bndrymms_top_bottom_walls, for_range. apply for_each_invariant; [|exact Hu].
  intros j t _ Ht. cbv zeta. shaped.
Qed.

Lemma bndrymms_side_walls_value (u : Array3) (i j k : nat) :
  shaped3 c u -> (i < imax c)%nat -> (j < jmax c)%nat -> (k < neq)%nat ->
  get3 (bndrymms_side_walls c u) i j k = bndrymms_side_walls_spec c u i j k.
Proof.
  intros Hu Hi Hj Hk. unfold bndrymms_side_walls, for_range.
  loop_facts c (side_cell c).
  unfold bndrymms_side_walls_spec.
  destruct (Nat.leb_spec 1 j) as [Hj1 | Hj1]; [destruct (Nat.leb_spec j (jmax c - 2)) as [Hj2 | Hj2]|];
    cbn [andb].
  1: destruct (Nat.eqb_spec i 0) as [-> | Hi0];
       [|destruct (Nat.eqb_spec i (imax c - 1)) as [-> | Hi1]].
  1: loop_value c (side_cell c) j 0%nat j k.
  2: loop_value c (side_cell c) j (imax c - 1)%nat j k.
  3, 4, 5: loop_frame c (side_cell c) i j k.
  all: intros s Hs Hagree; unfold get_cell; cbn [fst snd]; cbv zeta.
  all: assert (Hin : forall i' k', (1 <= i' <= imax c - 2)%nat -> (k' < neq)%nat ->
                      get3 s i' j k' = get3 u i' j k')
         by (intros i' k' Hi' Hk'; apply (Hagree (i', j, k'));
             [ unfold_cells; index_lia | intros y _ _; unfold_cells; index_lia ]).
  all: destruct k as [|[|[|k]]]; try (exfalso; index_lia); cbn [Nat.eqb].
  all: get_set c; rewrite ?Hin by index_lia; reflexivity.
Qed.

Lemma bndrymms_top_bottom_walls_value (u : Array3) (i j k : nat) :
  shaped3 c u -> (i < imax c)%nat -> (j < jmax c)%nat -> (k < neq)%nat ->
  get3 (bndrymms_top_bottom_walls c u) i j k = bndrymms_top_bottom_walls_spec c u i j k.
Proof.
  intros Hu Hi Hj Hk. unfold bndrymms_top_bottom_walls, for_range.
  loop_facts c (top_bottom_cell c).
  unfold bndrymms_top_bottom_walls_spec.
  destruct (Nat.eqb_spec j 0) as [-> | Hj0];
    [|destruct (Nat.eqb_spec j (jmax c - 1)) as [-> | Hj1]].
  1: loop_value c (top_bottom_cell c) i i 0%nat k.
  2: loop_value c (top_bottom_cell c) i i (jmax c - 1)%nat k.
  3: loop_frame c (top_bottom_cell c) i j k.
  all: intros s Hs Hagree; unfold get_cell; cbn [fst snd]; cbv zeta.
  all: assert (Hin : forall j' k', (1 <= j' <= jmax c - 2)%nat -> (k' < neq)%nat ->
                      get3 s i j' k' = get3 u i j' k')
         by (intros j' k' Hj' Hk'; apply (Hagree (i, j', k'));
             [ unfold_cells; index_lia | intros y _ _; unfold_cells; index_lia ]).
  all: destruct k as [|[|[|k]]]; try (exfalso; index_lia); cbn [Nat.eqb].
  all: get_set c; rewrite ?Hin by index_lia; reflexivity.
Qed.

Ltac bc_shaped :=
  repeat first [ assumption
               | apply bndry_side_walls_shaped | apply bndry_top_bottom_walls_shaped
               | apply bndrymms_side_walls_shaped | apply bndrymms_top_bottom_walls_shaped ].

Ltac bc_side := first [ solve [bc_shaped] | index_lia ].

(** Replace a read of a boundary loop by the closed form of the loop. *)
Ltac bc_values :=
  repeat first [ rewrite bndry_side_walls_value by bc_side
               | rewrite bndry_top_bottom_walls_value by bc_side
               | rewrite bndrymms_side_walls_value by bc_side
               | rewrite bndrymms_top_bottom_walls_value by bc_side ].

Ltac split_index :=
  match goal with
  | |- context [Nat.eqb ?a ?b] =>
      destruct (Nat.eqb_spec a b); try (exfalso; index_lia)
  | |- context [Nat.leb ?a ?b] =>
      destruct (Nat.leb_spec a b); try (exfalso; index_lia)
  end.

Ltac bc_cases :=
  unfold bndry_side_walls_spec, bndry_top_bottom_walls_spec,
         bndrymms_side_walls_spec, bndrymms_top_bottom_walls_spec;
  repeat (cbn [andb]; split_index); cbn [andb].

Lemma bndrymms_idempotent (u : Array3) (i j k : nat) :
  shaped3 c u -> (i < imax c)%nat -> (j < jmax c)%nat -> (k < neq)%nat ->
  get3 (bndrymms c (bndrymms c u)) i j k = get3 (bndrymms c u) i j k.
Proof.
  intros Hu Hi Hj Hk. unfold bndrymms.
  repeat (progress (bc_values; bc_cases; subst)); reflexivity.
Qed.

Lemma bndry_idempotent_but_corner_pressure (u : Array3) (i j k : nat) :
  shaped3 c u -> (i < imax c)%nat -> (j < jmax c)%nat -> (k < neq)%nat ->
  ~ (is_corner c i j /\ k = 0%nat) ->
  get3 (bndry c (bndry c u)) i j k = get3 (bndry c u) i j k.
Proof.
  intros Hu Hi Hj Hk Hc. unfold bndry, is_corner in *.
  repeat (progress (bc_values; bc_cases; subst)); reflexivity.
Qed.

Lemma bndry_corner_pressure_once (u : Array3) :
  shaped3 c u ->
  get3 (bndry c u) 0 0 0 = 2 * get3 u 1 0 0 - get3 u 2 0 0.
Proof.
  intros Hu. unfold bndry.
  repeat (progress (bc_values; bc_cases; subst)); reflexivity.
Qed.

Lemma bndry_corner_pressure_twice (u : Array3) :
  shaped3 c u ->
  get3 (bndry c (bndry c u)) 0 0 0
  = 2 * (2 * get3 u 1 1 0 - get3 u 1 2 0) - (2 * get3 u 2 1 0 - get3 u 2 2 0).
Proof.
  intros Hu. unfold bndry.
  repeat (progress (bc_values; bc_cases; subst)); reflexivity.
Qed.

Lemma bndry_corner_value (u : Array3) (i j k : nat) :
  shaped3 c u -> is_corner c i j -> (k < neq)%nat ->
  get3 (bndry c u) i j k = get3 (bndry_side_walls c u) i j k /\
  (k <> 0%nat -> get3 (bndry c u) i j k = 0).
Proof.
  intros Hu Hc Hk. unfold bndry, is_corner in *. split.
  - rewrite bndry_top_bottom_walls_value by bc_side. bc_cases; reflexivity.
  - intros Hk0. repeat (progress (bc_values; bc_cases; subst)); reflexivity.
Qed.

End Cavity.

(** ** The trace of [bndry] *)

Lemma for_each_related {S T X : Type} (rel : S -> T -> Prop) (xs : list X)
    (f : X -> S -> S) (g : X -> T -> T) (s : S) (t : T) :
  (forall x s t, In x xs -> rel s t -> rel (f x s) (g x t)) ->
  rel s t -> rel (for_each xs f s) (for_each xs g t).
Proof.
  revert s t. induction xs as [|x xs IH]; intros s t Hstep Hst; [exact Hst|].
  rewrite !for_each_cons. apply IH.
  - intros y s' t' Hy. apply Hstep. right. exact Hy.
  - apply Hstep; [left; reflexivity | exact Hst].
Qed.

Lemma last_writer_app (l1 l2 : list (wall_pass * cell)) (k : cell) :
  last_writer (l1 ++ l2) k
  = match last_writer l2 k with
    | Some q => Some q
    | None => last_writer l1 k
    end.
Proof.
  induction l1 as [|[p k'] l1 IH]; cbn [app last_writer].
  - destruct (last_writer l2 k); reflexivity.
  - rewrite IH. destruct (last_writer l2 k); reflexivity.
Qed.

Lemma last_writer_absent (p : wall_pass) (l : list cell) (k : cell) :
  ~ In k l -> last_writer (map (pair p) l) k = None.
Proof.
  induction l as [|k' l IH]; intros Hk; [reflexivity|].
  cbn [map last_writer]. rewrite IH by (intros H; apply Hk; right; exact H).
  destruct (decide (k' = k)) as [E|_]; [|reflexivity].
  exfalso. apply Hk. left. exact E.
Qed.

Lemma last_writer_present (p : wall_pass) (l : list cell) (k : cell) :
  In k l -> last_writer (map (pair p) l) k = Some p.
Proof.
  induction l as [|k' l IH]; intros Hk; [destruct Hk|].
  cbn [map last_writer]. destruct (in_dec (fun a b : cell => decide (a = b)) k l) as [Hin|Hnin].
  - rewrite IH by exact Hin. reflexivity.
  - rewrite last_writer_absent by exact Hnin.
    destruct Hk as [E|Hin]; [|contradiction].
    destruct (decide (k' = k)); [reflexivity | contradiction].
Qed.

Section Trace.

Variable c : Inputs.

(** The logged run computes the field of the plain run. *)
Lemma bndry_side_walls_field (l : Logged) :
  field (bndry_side_walls c l) = bndry_side_walls c (field l).
Proof.
  unfold bndry_side_walls, for_range.
  apply (for_each_related (fun (s : Logged) (t : Array3) => field s = t)); [|reflexivity].
  intros x s t _ <-. reflexivity.
Qed.

Lemma bndry_top_bottom_walls_field (l : Logged) :
  field (bndry_top_bottom_walls c l) = bndry_top_bottom_walls c (field l).
Proof.
  unfold bndry_top_bottom_walls, for_range.
  apply (for_each_related (fun (s : Logged) (t : Array3) => field s = t)); [|reflexivity].
  intros x s t _ <-. reflexivity.
Qed.

Lemma bndry_field (l : Logged) : field (bndry c l) = bndry c (field l).
Proof.
  unfold bndry. rewrite bndry_top_bottom_walls_field, bndry_side_walls_field. reflexivity.
Qed.

(** The top and bottom loop assigns cells of the columns [1 .. imax-2]
    only. *)
Lemma top_bottom_walls_columns (u : Array3) (k : cell) :
  In k (top_bottom_walls_writes c u) -> (1 <= fst (fst k) <= imax c - 2)%nat.
Proof.
  unfold top_bottom_walls_writes, bndry_top_bottom_walls, for_range. revert k.
  apply (for_each_invariant
           (fun l : Logged => forall k, In k (writes l) -> (1 <= fst (fst k) <= imax c - 2)%nat)).
  - intros x t Hx Ht k. apply in_seq in Hx. cbn [wr3 rd3 Logged_Field3 writes field]. cbv zeta.
    cbn [writes]. rewrite !in_app_iff. cbn [In].
    intros [[[[[[H|H]|H]|H]|H]|H]|H]; try (apply Ht, H); destruct H as [<-|[]]; cbn [fst snd]; lia.
  - intros k [].
Qed.

(** The side loop assigns every cell of the two walls, corners included. *)
Lemma side_walls_cells (u : Array3) (i j k : nat) :
  (i = 0 \/ i = imax c - 1)%nat -> (j < jmax c)%nat -> (k < neq)%nat ->
  In (i, j, k) (side_walls_writes c u).
Proof.
  intros Hi Hj Hk. unfold side_walls_writes, bndry_side_walls, for_range.
  assert (Hin : In j (seq 0 (jmax c - 0))) by (apply in_seq; lia).
  destruct (in_split _ _ Hin) as (l1 & l2 & ->).
  rewrite for_each_app, for_each_cons.
  apply (for_each_invariant (fun l : Logged => In (i, j, k) (writes l))).
  - intros x t _ Ht. cbn [wr3 rd3 Logged_Field3 writes field]. cbv zeta. cbn [writes].
    rewrite !in_app_iff. tauto.
  - cbn [wr3 rd3 Logged_Field3 writes field]. cbv zeta. cbn [writes].
    rewrite !in_app_iff. cbn [In].
    destruct k as [|[|[|k]]]; [| | |unfold neq in Hk; lia]; destruct Hi as [-> | ->]; tauto.
Qed.

(** What a loop adds to the log does not depend on the log it starts
    from. *)
Lemma bndry_side_walls_log (f : Array3) (l : list cell) :
  writes (bndry_side_walls c (mkLogged f l))
  = l ++ writes (bndry_side_walls c (mkLogged f [])).
Proof.
  unfold bndry_side_walls, for_range.
  apply (for_each_related
           (fun s t : Logged => field s = field t /\ writes s = l ++ writes t)
           _ _ _ (mkLogged f l) (mkLogged f [])); [|split; [reflexivity | symmetry; apply app_nil_r]].
  intros x s t _ [Ef Ew]. cbn [wr3 rd3 Logged_Field3 field writes]. cbv zeta.
  cbn [field writes]. rewrite Ef, Ew. split; [reflexivity|].
  rewrite <- !app_assoc. reflexivity.
Qed.

Lemma bndry_top_bottom_walls_log (f : Array3) (l : list cell) :
  writes (bndry_top_bottom_walls c (mkLogged f l))
  = l ++ writes (bndry_top_bottom_walls c (mkLogged f [])).
Proof.
  unfold bndry_top_bottom_walls, for_range.
  apply (for_each_related
           (fun s t : Logged => field s = field t /\ writes s = l ++ writes t)
           _ _ _ (mkLogged f l) (mkLogged f [])); [|split; [reflexivity | symmetry; apply app_nil_r]].
  intros x s t _ [Ef Ew]. cbn [wr3 rd3 Logged_Field3 field writes]. cbv zeta.
  cbn [field writes]. rewrite Ef, Ew. split; [reflexivity|].
  rewrite <- !app_assoc. reflexivity.
Qed.

(** The trace of [bndry]: the cells the logged run assigns are those of
    the side-wall loop followed by those of the top and bottom loop. *)
Lemma bndry_trace (u : Array3) :
  writes (bndry c (mkLogged u [])) = map snd (bndry_writes c u).
Proof.
  unfold bndry_writes, side_walls_writes, top_bottom_walls_writes, bndry.
  rewrite map_app, !map_map. cbn [snd]. rewrite !map_id.
  set (l1 := bndry_side_walls c (mkLogged u [])).
  replace l1 with (mkLogged (field l1) (writes l1)) at 1 by (destruct l1; reflexivity).
  rewrite bndry_top_bottom_walls_log. subst l1. rewrite bndry_side_walls_field. reflexivity.
Qed.

Lemma corner_last_writer (u : Array3) (i j k : nat) :
  is_corner c i j -> (0 < jmax c)%nat -> (k < neq)%nat ->
  last_writer (bndry_writes c u) (i, j, k) = Some side_walls_pass.
Proof.
  intros Hc Hj Hk. unfold is_corner in Hc.
  unfold bndry_writes. rewrite last_writer_app, last_writer_absent.
  - apply last_writer_present, side_walls_cells; lia.
  - intros Hin. apply top_bottom_walls_columns in Hin. cbn [fst snd] in Hin. lia.
Qed.

Lemma corners_are_corners (i j : nat) : In (i, j) (corners c) -> is_corner c i j.
Proof.
  unfold corners, is_corner. cbn [In].
  intros [E|[E|[E|[E|[]]]]]; inversion E; lia.
Qed.

(** C7, as the code has it: every corner cell is assigned by the loop over
    the side walls and by no other; the loop over the top and bottom walls,
    which runs second, covers the columns [1 .. imax-2] and leaves the
    corners as it finds them.  So the last assignment to a corner cell is
    the side-wall loop's, its final value is the one that loop wrote, and
    the velocities of all four corners, those of the lid too, are zero. *)
Theorem corners_written_by_side_walls (u : Array3) (i j k : nat) :
  (4 <= imax c)%nat -> (4 <= jmax c)%nat -> shaped3 c u ->
  In (i, j) (corners c) -> (k < neq)%nat ->
  last_writer (bndry_writes c u) (i, j, k) = Some side_walls_pass /\
  writes (bndry c (mkLogged u [])) = map snd (bndry_writes c u) /\
  field (bndry c (mkLogged u [])) = bndry c u /\
  get3 (bndry c u) i j k = get3 (bndry_side_walls c u) i j k /\
  (k <> 0%nat -> get3 (bndry c u) i j k = 0).
Proof.
  intros Himax Hjmax Hu Hc Hk. apply corners_are_corners in Hc.
  split; [|split; [|split]].
  - apply corner_last_writer; [exact Hc | lia | exact Hk].
  - apply bndry_trace.
  - apply bndry_field.
  - apply bndry_corner_value; assumption.
Qed.

End Trace.

Lemma corners_written_by_side_walls_witness :
  (4 <= imax source_inputs)%nat /\ (4 <= jmax source_inputs)%nat /\
  shaped3 source_inputs (one_fast_node source_inputs) /\
  In (0%nat, 250%nat) (corners source_inputs) /\ (1 < neq)%nat /\
  last_writer (bndry_writes source_inputs (one_fast_node source_inputs)) (0%nat, 250%nat, 1%nat)
  = Some side_walls_pass.
Proof.
  assert (H4 : (4 <= 251)%nat) by lia.
  assert (Hc : In (0%nat, 250%nat) (corners source_inputs)) by (right; left; reflexivity).
  assert (Hk : (1 < neq)%nat) by (unfold neq; lia).
  split; [exact H4|]. split; [exact H4|]. split; [apply shaped3_tabulate3|].
  split; [exact Hc|]. split; [exact Hk|].
  exact (proj1 (corners_written_by_side_walls source_inputs (one_fast_node source_inputs)
                  0 250 1 H4 H4 (shaped3_tabulate3 source_inputs _) Hc Hk)).
Defined.

(** C7 as the specification words it fails: the last assignment to a corner
    cell is not the top and bottom loop's. *)
Lemma corner_not_written_by_top_bottom_walls :
  ~ (forall i j k, In (i, j) (corners source_inputs) -> (k < neq)%nat ->
       last_writer (bndry_writes source_inputs (one_fast_node source_inputs)) (i, j, k)
       = Some top_bottom_walls_pass).
Proof.
  intros H.
  assert (H4 : (4 <= 251)%nat) by lia.
  assert (Hc : In (0%nat, 250%nat) (corners source_inputs)) by (right; left; reflexivity).
  assert (Hk : (1 < neq)%nat) by (unfold neq; lia).
  specialize (H 0%nat 250%nat 1%nat Hc Hk).
  rewrite corner_last_writer in H;
    [discriminate | apply corners_are_corners, Hc | cbn; lia | exact Hk].
Qed.

(** ** Applying the boundary conditions twice *)

(** C8, as the code has it: [bndrymms] is idempotent, and so is [bndry]
    except in the pressure of the four corner nodes.  Applied a second time
    to its own result, either routine leaves every other boundary value
    (and every interior value) as the first application left it. *)
Theorem boundary_conditions_idempotent (c : Inputs) (u : Array3) (i j k : nat) :
  (4 <= imax c)%nat -> (4 <= jmax c)%nat -> shaped3 c u ->
  (i < imax c)%nat -> (j < jmax c)%nat -> (k < neq)%nat ->
  get3 (bndrymms c (bndrymms c u)) i j k = get3 (bndrymms c u) i j k /\
  (~ (is_corner c i j /\ k = 0%nat) ->
   get3 (bndry c (bndry c u)) i j k = get3 (bndry c u) i j k).
Proof.
  intros Himax Hjmax Hu Hi Hj Hk. split.
  - apply bndrymms_idempotent; assumption.
  - apply bndry_idempotent_but_corner_pressure; assumption.
Qed.

Lemma boundary_conditions_idempotent_witness :
  (4 <= imax source_inputs)%nat /\ (4 <= jmax source_inputs)%nat /\
  shaped3 source_inputs (wall_pressure_bump source_inputs) /\
  (0 < imax source_inputs)%nat /\ (7 < jmax source_inputs)%nat /\ (0 < neq)%nat /\
  get3 (bndrymms source_inputs (bndrymms source_inputs (wall_pressure_bump source_inputs))) 0 7 0
  = get3 (bndrymms source_inputs (wall_pressure_bump source_inputs)) 0 7 0.
Proof.
  assert (H4 : (4 <= 251)%nat) by lia.
  assert (H0 : (0 < 251)%nat) by lia.
  assert (H7 : (7 < 251)%nat) by lia.
  assert (Hk : (0 < neq)%nat) by (unfold neq; lia).
  split; [exact H4|]. split; [exact H4|]. split; [apply shaped3_tabulate3|].
  split; [exact H0|]. split; [exact H7|]. split; [exact Hk|].
  exact (proj1 (boundary_conditions_idempotent source_inputs (wall_pressure_bump source_inputs)
                  0 7 0 H4 H4 (shaped3_tabulate3 source_inputs _) H0 H7 Hk)).
Defined.

(** C8 as the specification words it fails for [bndry]: the pressure of a
    corner node is extrapolated from two wall pressures that the same call
    renews only afterwards, so a second call changes it. *)
Lemma bndry_twice_changes_corner_pressure :
  get3 (bndry source_inputs (bndry source_inputs (wall_pressure_bump source_inputs))) 0 0 0
  <> get3 (bndry source_inputs (wall_pressure_bump source_inputs)) 0 0 0.
Proof.
  assert (H4 : (4 <= imax source_inputs)%nat) by (cbn; lia).
  assert (H4' : (4 <= jmax source_inputs)%nat) by (cbn; lia).
  rewrite (bndry_corner_pressure_twice source_inputs H4 H4' (wall_pressure_bump source_inputs))
    by apply shaped3_tabulate3.
  rewrite (bndry_corner_pressure_once source_inputs H4 H4' (wall_pressure_bump source_inputs))
    by apply shaped3_tabulate3.
  unfold wall_pressure_bump. rewrite !get3_tabulate3 by (cbn; unfold neq; lia).
  cbn [Nat.eqb andb]. lra.
Qed.


(** ** Artificial viscosity *)

Section Viscosity.

Variable c : Inputs.
Hypothesis Himax : (5 <= imax c)%nat.
Hypothesis Hjmax : (5 <= jmax c)%nat.

Lemma Compute_Artificial_Viscosity_viscy (u : Array3) (viscx viscy : Array2) (i j : nat) :
  shaped2 c viscx -> shaped2 c viscy -> (i < imax c)%nat -> (j < jmax c)%nat ->
  get2 (snd (Compute_Artificial_Viscosity c u viscx viscy)) i j
  = if ((2 <=? i) && (i <=? imax c - 3) && (2 <=? j) && (j <=? jmax c - 3))%nat
    then stencil_viscy c u i j
    else get2 viscy i j.
Proof.
  intros Hvx Hvy Hi Hj. unfold Compute_Artificial_Viscosity. cbv zeta.
  rewrite !for_range_nested.
  (* the extrapolation loops leave viscy as the stencil loop made it *)
  match goal with
  | |- context [for_each ?l2 ?f2 (for_each ?l1 ?f1 (for_each ?l0 ?f0 ?s0))] =>
      set (s1 := for_each l0 f0 s0);
      assert (E2 : snd (for_each l2 f2 (for_each l1 f1 s1)) = snd s1)
  end.
  { assert (Hrow : forall (body : nat -> nat -> Array2 * Array2 -> Array2 * Array2)
                          (xs : list nat) (lo hi : nat) (s : Array2 * Array2),
              (forall x y t, snd (body x y t) = snd t) ->
              snd (for_each xs (fun x => for_range lo hi (body x)) s) = snd s).
    { intros body xs lo hi s Hb.
      apply (for_each_invariant (fun t => snd t = snd s)); [|reflexivity].
      intros x t _ <-. unfold for_range.
      apply (for_each_invariant (fun t' => snd t' = snd t)); [|reflexivity].
      intros y t' _ <-. apply Hb. }
    rewrite (Hrow (fun j i '(viscx, viscy) => _)) by (intros x y [vx vy]; reflexivity).
    rewrite (Hrow (fun i j '(viscx, viscy) => _)) by (intros x y [vx vy]; reflexivity).
    reflexivity. }
  rewrite E2. subst s1. clear E2.
  match goal with
  | |- context [for_each ?l ?f ?s] =>
      assert (E : snd (for_each l f s)
                  = for_each l (fun p vy => set2 vy (snd p) (fst p)
                                              (stencil_viscy c u (snd p) (fst p))) viscy)
  end.
  { apply (for_each_related (fun (s : Array2 * Array2) (t : Array2) => snd s = t));
      [|reflexivity].
    intros p [vx vy] t _ <-. reflexivity. }
  rewrite E. clear E.
  assert (Hok : forall (p : nat * nat) (s : Array2),
            In p (list_prod (seq 2 (jmax c - 2 - 2)) (seq 2 (imax c - 2 - 2))) ->
            shaped2 c s ->
            shaped2 c (set2 s (snd p) (fst p) (stencil_viscy c u (snd p) (fst p))))
    by (intros p s _ Hs; apply shaped2_set2, Hs).
  assert (Hframe : forall (p : nat * nat) (s : Array2) (k : nat * nat),
            In p (list_prod (seq 2 (jmax c - 2 - 2)) (seq 2 (imax c - 2 - 2))) ->
            shaped2 c s -> (fst k < imax c)%nat /\ (snd k < jmax c)%nat ->
            ~ k = (snd p, fst p) ->
            get2 (set2 s (snd p) (fst p) (stencil_viscy c u (snd p) (fst p))) (fst k) (snd k)
            = get2 s (fst k) (snd k)).
  { intros [b a] s [i' j'] Hin Hs (Hi' & Hj') Hne. apply in_nodes in Hin.
    apply node_neq_iff in Hne. cbn [fst snd] in *.
    apply (get2_set2_other c); auto; lia. }
  destruct (Nat.leb_spec 2 i) as [Hi2|Hi2];
    [destruct (Nat.leb_spec i (imax c - 3)) as [Hi3|Hi3];
     [destruct (Nat.leb_spec 2 j) as [Hj2|Hj2];
      [destruct (Nat.leb_spec j (jmax c - 3)) as [Hj3|Hj3]|]|]|];
    cbn [andb].
  1: { apply (for_each_value (fun (s : Array2) (k : nat * nat) => get2 s (fst k) (snd k))
                (shaped2 c) (fun k => (fst k < imax c)%nat /\ (snd k < jmax c)%nat) _
                (fun p k => k = (snd p, fst p)) _ Hok Hframe)
         with (x := (j, i)) (k := (i, j)); auto.
       - apply NoDup_nodes.
       - apply in_nodes. cbn [fst snd]. lia.
       - intros [b a] _ Hne E. cbn [fst snd] in E. inversion E; subst. apply Hne. reflexivity.
       - intros s Hs _. cbn [fst snd]. apply (get2_set2_same c); auto. }
  all: apply (for_each_frame (fun (s : Array2) (k : nat * nat) => get2 s (fst k) (snd k))
                (shaped2 c) (fun k => (fst k < imax c)%nat /\ (snd k < jmax c)%nat) _
                (fun p k => k = (snd p, fst p)) _ Hok Hframe)
         with (k := (i, j)); auto;
    intros [b a] Hin E; apply in_nodes in Hin; cbn [fst snd] in *; inversion E; lia.
Qed.

End Viscosity.

(** C3, on the source inputs with a field of uniform pressure at rest and
    both damping arrays holding 7 before the call.  The stencil gives a
    damping of zero at the nodes two cells from the left wall, so linear
    extrapolation to the node [(1,5)] would give zero as well.  After the
    call [viscy] still holds 7 there: no statement of the routine assigns
    [viscy] outside the stencil loop. *)
Theorem viscy_not_extrapolated :
  let v := Compute_Artificial_Viscosity source_inputs (uniform_field source_inputs)
             (constant2 source_inputs 7) (constant2 source_inputs 7) in
  get2 (snd v) 2 5 = 0 /\ get2 (snd v) 3 5 = 0 /\
  get2 (snd v) 1 5 = 7 /\
  get2 (snd v) 1 5 <> two * get2 (snd v) 2 5 - get2 (snd v) 3 5.
Proof.
  assert (H5 : (5 <= imax source_inputs)%nat) by (cbn; lia).
  assert (H5' : (5 <= jmax source_inputs)%nat) by (cbn; lia).
  assert (Hs : shaped2 source_inputs (constant2 source_inputs 7)) by apply shaped2_tabulate2.
  assert (Hz : forall i, (2 <= i <= 3)%nat ->
             stencil_viscy source_inputs (uniform_field source_inputs) i 5 = 0).
  { intros i Hi. unfold stencil_viscy, uniform_field.
    rewrite !get3_tabulate3 by (cbn; unfold neq; lia). cbn [Nat.eqb].
    unfold Rdiv. replace (pinf source_inputs - 4 * pinf source_inputs
      + 6 * pinf source_inputs - 4 * pinf source_inputs + pinf source_inputs) with 0 by lra.
    rewrite !Rmult_0_l, !Rmult_0_r, !Rmult_0_l. reflexivity. }
  cbv zeta.
  rewrite (Compute_Artificial_Viscosity_viscy source_inputs H5 H5'
             (uniform_field source_inputs) _ _ 2 5 Hs Hs) by (cbn; lia).
  rewrite (Compute_Artificial_Viscosity_viscy source_inputs H5 H5'
             (uniform_field source_inputs) _ _ 3 5 Hs Hs) by (cbn; lia).
  rewrite (Compute_Artificial_Viscosity_viscy source_inputs H5 H5'
             (uniform_field source_inputs) _ _ 1 5 Hs Hs) by (cbn; lia).
  change (5 <=? jmax source_inputs - 3)%nat with true.
  change (2 <=? imax source_inputs - 3)%nat with true.
  change (3 <=? imax source_inputs - 3)%nat with true.
  cbn [Nat.leb andb]. rewrite (Hz 2%nat), (Hz 3%nat) by lia.
  unfold constant2. rewrite get2_tabulate2 by (cbn; lia). lra.
Qed.

(** ** Relaxation sweeps *)

Section Sweeps.

Variable c : Inputs.
Hypothesis Himax : (3 <= imax c)%nat.
Hypothesis Hjmax : (3 <= jmax c)%nat.

Lemma point_Jacobi_pressure (u uold : Array3) (viscx viscy dt : Array2) (s : Array3)
    (i j : nat) :
  shaped3 c u -> (1 <= i <= imax c - 2)%nat -> (1 <= j <= jmax c - 2)%nat ->
  get3 (point_Jacobi c u uold viscx viscy dt s) i j 0
  = get3 uold i j 0
    - Rmax (pow2 (get3 u i j 1) + pow2 (get3 u i j 2)) (rkappa c * vel2ref c)
      * get2 dt i j * continuity_resid c uold viscx viscy s i j.
Proof.
  intros Hu Hi Hj. unfold point_Jacobi. rewrite for_range_nested.
  match goal with
  | |- context [for_each ?xs ?f _] =>
      assert (Hok : forall x t, In x xs -> shaped3 c t -> shaped3 c (f x t))
        by (intros ? ? _ ?; cbv beta zeta; shaped);
      assert (Hframe : forall x t k', In x xs -> shaped3 c t -> valid_cell c k' ->
                ~ node_cell x k' -> get_cell (f x t) k' = get_cell t k')
  end.
  { intros [a b] t [[i' j'] k'] Hin Ht (Hi' & Hj' & Hk') Hw. apply in_nodes in Hin.
    unfold node_cell in Hw. cbn [fst snd] in *.
    assert (Hne : a <> i' \/ b <> j') by (apply node_neq_iff; intros E; apply Hw; congruence).
    unfold get_cell. cbn [fst snd]. cbv zeta. get_set c. reflexivity. }
  apply (for_each_value get_cell (shaped3 c) (valid_cell c) _ node_cell _ Hok Hframe)
    with (x := (i, j)) (k := (i, j, 0%nat)).
  - apply NoDup_nodes.
  - apply in_nodes. cbn [fst snd]. lia.
  - exact Hu.
  - unfold_cells. index_lia.
  - intros y _ Hy E. unfold node_cell in E. cbn [fst] in E. congruence.
  - intros t Ht Hagree. unfold get_cell. cbn [fst snd]. cbv zeta. get_set c.
    assert (E : forall k, (k < neq)%nat -> get3 t i j k = get3 u i j k).
    { intros k Hk. apply (Hagree (i, j, k)).
      - unfold_cells. index_lia.
      - intros y _ Hy E. unfold node_cell in E. cbn [fst] in E. congruence. }
    rewrite (E 1%nat), (E 2%nat) by (unfold neq; lia).
    unfold continuity_resid. cbv zeta. reflexivity.
Qed.

Lemma interior_first (n m : nat) :
  list_prod (seq 1 (S n)) (seq 1 (S m))
  = (1%nat, 1%nat) :: (map (pair 1%nat) (seq 2 m) ++ list_prod (seq 2 n) (seq 1 (S m))).
Proof. reflexivity. Qed.

Lemma SGS_forward_sweep_first_pressure (u : Array3) (viscx viscy dt : Array2) (s : Array3) :
  shaped3 c u ->
  get3 (SGS_forward_sweep c u viscx viscy dt s) 1 1 0
  = get3 u 1 1 0
    - Rmax (pow2 (get3 u 1 1 1) + pow2 (get3 u 1 1 2)) (rkappa c * uinf c)
      * get2 dt 1 1 * continuity_resid c u viscx viscy s 1 1.
Proof.
  intros Hu. unfold SGS_forward_sweep. rewrite for_range_nested.
  replace (jmax c - 1 - 1)%nat with (S (jmax c - 3)) by lia.
  replace (imax c - 1 - 1)%nat with (S (imax c - 3)) by lia.
  rewrite interior_first, for_each_cons.
  match goal with
  | |- context [for_each ?xs ?f ?t0] =>
      assert (Hok : forall x t, In x xs -> shaped3 c t -> shaped3 c (f x t))
        by (intros ? ? _ ?; cbv beta zeta; shaped);
      assert (Hframe : forall x t k', In x xs -> shaped3 c t -> valid_cell c k' ->
                ~ node_cell (snd x, fst x) k' -> get_cell (f x t) k' = get_cell t k');
      [| change (get_cell (for_each xs f t0) (1%nat, 1%nat, 0%nat) = 
                 get3 u 1 1 0
    - Rmax (pow2 (get3 u 1 1 1) + pow2 (get3 u 1 1 2)) (rkappa c * uinf c)
      * get2 dt 1 1 * continuity_resid c u viscx viscy s 1 1);
         rewrite (for_each_frame get_cell (shaped3 c) (valid_cell c) f
                    (fun x => node_cell (snd x, fst x)) xs Hok Hframe) ]
  end.
  { intros [b a] t [[i' j'] k'] Hin Ht (Hi' & Hj' & Hk') Hw.
    assert (Hab : (1 <= a <= imax c - 2)%nat /\ (1 <= b <= jmax c - 2)%nat).
    { apply in_app_or in Hin. destruct Hin as [Hin|Hin].
      - apply in_map_iff in Hin as (y & E & Hy). apply in_seq in Hy. inversion E; subst. lia.
      - apply in_nodes in Hin. cbn [fst snd] in Hin. lia. }
    unfold node_cell in Hw. cbn [fst snd] in *.
    assert (Hne : a <> i' \/ b <> j') by (apply node_neq_iff; intros E; apply Hw; congruence).
    unfold get_cell. cbn [fst snd]. cbv zeta. get_set c. reflexivity. }
  - unfold get_cell. cbn [fst snd]. cbv zeta. get_set c.
    unfold continuity_resid. cbv zeta. reflexivity.
  - cbv beta zeta. shaped.
  - unfold_cells. index_lia.
  - intros [b a] Hin E. unfold node_cell in E. cbn [fst snd] in E.
    apply in_app_or in Hin. destruct Hin as [Hin|Hin].
    + apply in_map_iff in Hin as (y & E' & Hy). apply in_seq in Hy. inversion E'; subst.
      inversion E. lia.
    + apply in_nodes in Hin. cbn [fst snd] in Hin. inversion E. lia.
Qed.

Lemma rev_seq_S (n : nat) : rev (seq 1 (S n)) = S n :: rev (seq 1 n).
Proof. rewrite seq_S, rev_app_distr. reflexivity. Qed.

Lemma SGS_backward_sweep_first_pressure (u : Array3) (viscx viscy dt : Array2) (s : Array3) :
  shaped3 c u ->
  get3 (SGS_backward_sweep c u viscx viscy dt s) (imax c - 2) (jmax c - 2) 0
  = get3 u (imax c - 2) (jmax c - 2) 0
    - Rmax (pow2 (get3 u (imax c - 2) (jmax c - 2) 1) + pow2 (get3 u (imax c - 2) (jmax c - 2) 2))
           (rkappa c * uinf c)
      * get2 dt (imax c - 2) (jmax c - 2)
      * continuity_resid c u viscx viscy s (imax c - 2) (jmax c - 2).
Proof.
  intros Hu. unfold SGS_backward_sweep, for_down. rewrite for_each_nested.
  replace (jmax c - 2 - 0)%nat with (S (jmax c - 3)) by lia.
  replace (imax c - 2 - 0)%nat with (S (imax c - 3)) by lia.
  cbn [Nat.add]. rewrite !rev_seq_S. cbn [list_prod map app]. rewrite for_each_cons.
  replace (S (jmax c - 3)) with (jmax c - 2)%nat by lia.
  replace (S (imax c - 3)) with (imax c - 2)%nat by lia.
  match goal with
  | |- context [for_each ?xs ?f ?t0] =>
      assert (Hin : forall x, In x xs ->
                (1 <= snd x <= imax c - 2)%nat /\ (1 <= fst x <= jmax c - 2)%nat /\
                (snd x, fst x) <> ((imax c - 2)%nat, (jmax c - 2)%nat));
      [| assert (Hok : forall x t, In x xs -> shaped3 c t -> shaped3 c (f x t))
           by (intros ? ? _ ?; cbv beta zeta; shaped);
         assert (Hframe : forall x t k', In x xs -> shaped3 c t -> valid_cell c k' ->
                   ~ node_cell (snd x, fst x) k' -> get_cell (f x t) k' = get_cell t k');
         [| change (get_cell (for_each xs f t0) ((imax c - 2)%nat, (jmax c - 2)%nat, 0%nat)
                    = get3 u (imax c - 2) (jmax c - 2) 0
                      - Rmax (pow2 (get3 u (imax c - 2) (jmax c - 2) 1)
                              + pow2 (get3 u (imax c - 2) (jmax c - 2) 2))
                             (rkappa c * uinf c)
                        * get2 dt (imax c - 2) (jmax c - 2)
                        * continuity_resid c u viscx viscy s (imax c - 2) (jmax c - 2));
            rewrite (for_each_frame get_cell (shaped3 c) (valid_cell c) f
                       (fun x => node_cell (snd x, fst x)) xs Hok Hframe) ] ]
  end.
  - intros [b a] Hin. cbn [fst snd]. apply in_app_or in Hin. destruct Hin as [Hin|Hin].
    + apply in_map_iff in Hin as (y & E & Hy). apply in_rev, in_seq in Hy.
      inversion E; subst. repeat split; try lia. intros E'. inversion E'. lia.
    + apply in_prod_iff in Hin as [Hb Ha]. apply in_rev, in_seq in Hb.
      destruct Ha as [<-|Ha].
      * repeat split; try lia. intros E'. inversion E'. lia.
      * apply in_rev, in_seq in Ha. repeat split; try lia. intros E'. inversion E'. lia.
  - intros [b a] t [[i' j'] k'] Hx Ht (Hi' & Hj' & Hk') Hw.
    destruct (Hin _ Hx) as (Ha & Hb & _).
    unfold node_cell in Hw. cbn [fst snd] in *.
    assert (Hne : a <> i' \/ b <> j') by (apply node_neq_iff; intros E; apply Hw; congruence).
    unfold get_cell. cbn [fst snd]. cbv zeta. get_set c. reflexivity.
  - unfold get_cell. cbn [fst snd]. cbv zeta. get_set c.
    unfold continuity_resid. cbv zeta. reflexivity.
  - cbv beta zeta. shaped.
  - unfold_cells. index_lia.
  - intros x Hx E. destruct (Hin _ Hx) as (_ & _ & Hne). unfold node_cell in E.
    cbn [fst] in E. apply Hne. symmetry. exact E.
Qed.

End Sweeps.

(** The Point-Jacobi step exchanges the two buffers and then sweeps with
    the exchanged pair: the write side of [point_Jacobi] holds the data of
    the old [uold], the read side the data of the old [u]. *)
Lemma PJ_iteration_buffers (c : Inputs) (bc : boundaryConditionPointer)
    (u uold src : Array3) (viscx viscy dt : Array2) :
  let u' := mkArray3 (idim3 u) (jdim3 u) (kdim3 u) (data3 uold) in
  let uold' := mkArray3 (idim3 uold) (jdim3 uold) (kdim3 uold) (data3 u) in
  let v := Compute_Artificial_Viscosity c uold' viscx viscy in
  PJ_iteration c bc u uold src viscx viscy dt
  = (bc (point_Jacobi c u' uold' (fst v) (snd v) dt src), uold', fst v, snd v).
Proof.
  cbv zeta. unfold PJ_iteration, swapData3. cbv zeta.
  destruct (Compute_Artificial_Viscosity c _ viscx viscy) as [vx vy]. reflexivity.
Qed.

Lemma zero_quotient (x y : R) : (x - x) / y = 0.
Proof. unfold Rdiv. ring. Qed.

Lemma continuity_resid_uniform (c : Inputs) (i j : nat) :
  (1 <= i <= imax c - 2)%nat -> (1 <= j <= jmax c - 2)%nat ->
  continuity_resid c (uniform_field c) (constant2 c 1) (constant2 c 0) (zero_field c) i j = -1.
Proof.
  intros Hi Hj. unfold continuity_resid, uniform_field, constant2, zero_field. cbv zeta.
  rewrite !get3_tabulate3, !get2_tabulate2 by (unfold neq; lia).
  cbn [Nat.eqb]. rewrite !zero_quotient. lra.
Qed.

(** With the lid velocity the source ships, 1, the two thresholds are the
    same number. *)
Lemma thresholds_agree_at_unit_lid (c : Inputs) :
  uinf c = 1 -> rkappa c * uinf c = rkappa c * vel2ref c.
Proof. intros E. unfold vel2ref. rewrite E. ring. Qed.

(** C1 fails on the code for a lid velocity other than 1.  With [uinf = 2],
    a field at rest and a continuity residual of -1, the forward sweep
    moves the pressure of its first node, [(1,1)], by [rkappa * uinf = 0.2],
    and the backward sweep that of its first node, [(249,249)], by the
    same: their beta squared is [max(u^2+v^2, rkappa * uinf)], as it is in
    the time step, the damping and the monitor.  The Point-Jacobi sweep on
    the same data moves the pressure by [rkappa * uinf^2 = 0.4], which is
    the value the specification gives for every one of them. *)
Theorem beta2_uses_uinf_not_its_square :
  let c := fast_lid_inputs in
  get3 (SGS_forward_sweep c (uniform_field c) (constant2 c 1) (constant2 c 0)
          (constant2 c 1) (zero_field c)) 1 1 0
  = pinf c + rkappa c * uinf c /\
  get3 (SGS_backward_sweep c (uniform_field c) (constant2 c 1) (constant2 c 0)
          (constant2 c 1) (zero_field c)) 249 249 0
  = pinf c + rkappa c * uinf c /\
  get3 (point_Jacobi c (uniform_field c) (uniform_field c) (constant2 c 1) (constant2 c 0)
          (constant2 c 1) (zero_field c)) 1 1 0
  = pinf c + rkappa c * (uinf c * uinf c) /\
  pinf c + rkappa c * uinf c <> pinf c + Rmax (0 * 0 + 0 * 0) (rkappa c * (uinf c * uinf c)).
Proof.
  cbv zeta.
  assert (H3 : (3 <= imax fast_lid_inputs)%nat) by (cbn; lia).
  assert (H3' : (3 <= jmax fast_lid_inputs)%nat) by (cbn; lia).
  assert (Hu : shaped3 fast_lid_inputs (uniform_field fast_lid_inputs))
    by apply shaped3_tabulate3.
  split; [|split; [|split]].
  - rewrite (SGS_forward_sweep_first_pressure fast_lid_inputs H3 H3'
               (uniform_field fast_lid_inputs) (constant2 fast_lid_inputs 1)
               (constant2 fast_lid_inputs 0) (constant2 fast_lid_inputs 1)
               (zero_field fast_lid_inputs) Hu).
    rewrite (continuity_resid_uniform fast_lid_inputs 1 1) by (cbn; lia).
    unfold uniform_field, constant2.
    rewrite !get3_tabulate3, !get2_tabulate2 by (cbn; unfold neq; lia).
    cbn [Nat.eqb]. unfold pow2. cbn [pinf rkappa uinf fast_lid_inputs].
    rewrite Rmax_right by lra. lra.
  - change 249%nat with (imax fast_lid_inputs - 2)%nat at 1.
    change 249%nat with (jmax fast_lid_inputs - 2)%nat.
    rewrite (SGS_backward_sweep_first_pressure fast_lid_inputs H3 H3'
               (uniform_field fast_lid_inputs) (constant2 fast_lid_inputs 1)
               (constant2 fast_lid_inputs 0) (constant2 fast_lid_inputs 1)
               (zero_field fast_lid_inputs) Hu).
    rewrite (continuity_resid_uniform fast_lid_inputs (imax fast_lid_inputs - 2)
               (jmax fast_lid_inputs - 2)) by (cbn; lia).
    unfold uniform_field, constant2.
    rewrite !get3_tabulate3, !get2_tabulate2 by (cbn; unfold neq; lia).
    cbn [Nat.eqb]. unfold pow2. cbn [pinf rkappa uinf fast_lid_inputs].
    rewrite Rmax_right by lra. lra.
  - rewrite (point_Jacobi_pressure fast_lid_inputs H3 H3'
               (uniform_field fast_lid_inputs) (uniform_field fast_lid_inputs)
               (constant2 fast_lid_inputs 1) (constant2 fast_lid_inputs 0)
               (constant2 fast_lid_inputs 1) (zero_field fast_lid_inputs) 1 1 Hu)
      by (cbn; lia).
    rewrite (continuity_resid_uniform fast_lid_inputs 1 1) by (cbn; lia).
    unfold uniform_field, constant2, vel2ref.
    rewrite !get3_tabulate3, !get2_tabulate2 by (cbn; unfold neq; lia).
    cbn [Nat.eqb]. unfold pow2. cbn [pinf rkappa uinf fast_lid_inputs].
    rewrite Rmax_right by lra. lra.
  - cbn [pinf rkappa uinf fast_lid_inputs]. rewrite Rmax_right by lra. lra.
Qed.

(** C2 fails on the code: [point_Jacobi] computes beta squared from the
    velocities of [u], the buffer it writes, not from [uold].  On the
    source inputs, with the same [uold], damping arrays, time steps and
    source terms, the new pressure at node [(1,1)] is [pinf + 0.1] when the
    write-side buffer is at rest there and [pinf + 80000] when it holds the
    velocity (200, 200) there. *)
Theorem point_Jacobi_reads_write_side :
  let c := source_inputs in
  get3 (point_Jacobi c (uniform_field c) (uniform_field c) (constant2 c 1) (constant2 c 0)
          (constant2 c 1) (zero_field c)) 1 1 0
  = pinf c + 0.1 /\
  get3 (point_Jacobi c (one_fast_node c) (uniform_field c) (constant2 c 1) (constant2 c 0)
          (constant2 c 1) (zero_field c)) 1 1 0
  = pinf c + 80000.
Proof.
  cbv zeta.
  assert (H3 : (3 <= imax source_inputs)%nat) by (cbn; lia).
  assert (H3' : (3 <= jmax source_inputs)%nat) by (cbn; lia).
  split.
  - rewrite (point_Jacobi_pressure source_inputs H3 H3'
               (uniform_field source_inputs) (uniform_field source_inputs)
               (constant2 source_inputs 1) (constant2 source_inputs 0)
               (constant2 source_inputs 1) (zero_field source_inputs) 1 1
               (shaped3_tabulate3 source_inputs _)) by (cbn; lia).
    rewrite (continuity_resid_uniform source_inputs 1 1) by (cbn; lia).
    unfold uniform_field, constant2, vel2ref.
    rewrite !get3_tabulate3, !get2_tabulate2 by (cbn; unfold neq; lia).
    cbn [Nat.eqb]. unfold pow2. cbn [pinf rkappa uinf source_inputs].
    rewrite Rmax_right by lra. lra.
  - rewrite (point_Jacobi_pressure source_inputs H3 H3'
               (one_fast_node source_inputs) (uniform_field source_inputs)
               (constant2 source_inputs 1) (constant2 source_inputs 0)
               (constant2 source_inputs 1) (zero_field source_inputs) 1 1
               (shaped3_tabulate3 source_inputs _)) by (cbn; lia).
    rewrite (continuity_resid_uniform source_inputs 1 1) by (cbn; lia).
    unfold uniform_field, one_fast_node, constant2, vel2ref.
    rewrite !get3_tabulate3, !get2_tabulate2 by (cbn; unfold neq; lia).
    cbn [Nat.eqb Nat.leb andb]. unfold pow2. cbn [pinf rkappa uinf source_inputs].
    rewrite Rmax_left by lra. lra.
Qed.

(** ** The main loop *)

Section MainLoop.

Variable c : Inputs.




Lemma copyData3_shaped (this A : Array3) :
  shaped3 c this -> shaped3 c A -> shaped3 c (copyData3 this A).
Proof.
  intros (Hi & Hj & Hk & Hl) (Hi' & Hj' & Hk' & Hl'). unfold copyData3, memcpy, shaped3.
  cbn [idim3 jdim3 kdim3 data3]. repeat split; try assumption.
  rewrite length_app, length_take, length_drop, Hi, Hj, Hk, Hl, Hl'. lia.
Qed.

Lemma swapData3_shaped (this A : Array3) :
  shaped3 c this -> shaped3 c A ->
  shaped3 c (fst (swapData3 this A)) /\ shaped3 c (snd (swapData3 this A)).
Proof.
  intros (Hi & Hj & Hk & Hl) (Hi' & Hj' & Hk' & Hl'). unfold swapData3, shaped3.
  cbn [fst snd idim3 jdim3 kdim3 data3]. tauto.
Qed.





End MainLoop.



Lemma pressure_rescaling_frame_witness :
  shaped3 source_inputs (one_fast_node source_inputs) /\
  (1 < imax source_inputs)%nat /\ (1 < jmax source_inputs)%nat /\
  get3 (pressure_rescaling source_inputs (one_fast_node source_inputs)) 1 1 1
  = get3 (one_fast_node source_inputs) 1 1 1.
Proof.
  assert (H1 : (1 < 251)%nat) by lia.
  split; [apply shaped3_tabulate3|]. split; [exact H1|]. split; [exact H1|].
  exact (proj1 (proj1 (pressure_rescaling_frame source_inputs (one_fast_node source_inputs)
                         (shaped3_tabulate3 source_inputs _)) 1%nat 1%nat H1 H1)).
Defined.

(** ** The manufactured solution and its source terms *)

Lemma dlim_value (f : R -> R) (x l l' : R) :
  derivable_pt_lim f x l -> l = l' -> derivable_pt_lim f x l'.
Proof. intros H <-. exact H. Qed.

Lemma dlim_sin (g : R -> R) (x l : R) :
  derivable_pt_lim g x l -> derivable_pt_lim (fun t => sin (g t)) x (cos (g x) * l).
Proof.
  intros Hg. apply (derivable_pt_lim_comp g sin x l (cos (g x)) Hg).
  apply derivable_pt_lim_sin.
Qed.

Lemma dlim_cos (g : R -> R) (x l : R) :
  derivable_pt_lim g x l -> derivable_pt_lim (fun t => cos (g t)) x (- sin (g x) * l).
Proof.
  intros Hg. apply (derivable_pt_lim_comp g cos x l (- sin (g x)) Hg).
  apply derivable_pt_lim_cos.
Qed.

(** The derivative of an expression in sums, products, sines and cosines,
    one constructor at a time. *)
Ltac dlim_step :=
  lazymatch goal with
  | |- derivable_pt_lim (fun _ => ?k) _ _ => apply derivable_pt_lim_const
  | |- derivable_pt_lim (fun t => t) _ _ => apply derivable_pt_lim_id
  | |- derivable_pt_lim (fun t => @?f t + @?g t) ?x _ =>
      apply (derivable_pt_lim_plus f g x)
  | |- derivable_pt_lim (fun t => @?f t - @?g t) ?x _ =>
      apply (derivable_pt_lim_minus f g x)
  | |- derivable_pt_lim (fun t => @?f t * @?g t) ?x _ =>
      apply (derivable_pt_lim_mult f g x)
  | |- derivable_pt_lim (fun t => - @?f t) ?x _ =>
      apply (derivable_pt_lim_opp f x)
  | |- derivable_pt_lim (fun t => sin (@?g t)) ?x _ => apply (dlim_sin g x)
  | |- derivable_pt_lim (fun t => cos (@?g t)) ?x _ => apply (dlim_cos g x)
  end.

Ltac dlim := unfold Rdiv; eapply dlim_value; [ repeat dlim_step | ].

Ltac unfold_mms :=
  unfold umms, srcmms_mass, srcmms_xmtm, srcmms_ymtm, sub,
         phi0, phix, phiy, phixy, apx, apy, apxy, fsinx, fsiny, fsinxy;
  cbv zeta; cbn [nth].


(** X1: the mass source of the manufactured solution is the density times
    the divergence of the manufactured velocity: [rho * (du/dx + dv/dy)],
    with [u = umms(.,.,1)] and [v = umms(.,.,2)] and the derivatives those
    of analysis. *)
Theorem srcmms_mass_is_divergence (c : Inputs) (x y : R) :
  exists dudx dvdy : R,
    derivable_pt_lim (fun t => umms c t y 1) x dudx /\
    derivable_pt_lim (fun t => umms c x t 2) y dvdy /\
    srcmms_mass c x y = rho c * dudx + rho c * dvdy.
Proof.
  exists (sub phix 1 * sub apx 1 * rpi / rlength c * cos (sub apx 1 * rpi * x / rlength c)
          + sub phixy 1 * sub apxy 1 * rpi * y / rlength c / rlength c
            * cos (sub apxy 1 * rpi * x * y / rlength c / rlength c)).
  exists (- sub phiy 2 * sub apy 2 * rpi / rlength c * sin (sub apy 2 * rpi * y / rlength c)
          - sub phixy 2 * sub apxy 2 * rpi * x / rlength c / rlength c
            * sin (sub apxy 2 * rpi * x * y / rlength c / rlength c)).
  split; [|split].
  - unfold_mms. dlim. unfold Rdiv. ring.
  - unfold_mms. dlim. unfold Rdiv. ring.
  - reflexivity.
Qed.

(** X2: the x-momentum source is the steady x-momentum operator applied to
    the manufactured solution:
    [rho u du/dx + rho v du/dy + dp/dx - mu (d2u/dx2 + d2u/dy2)]. *)
Theorem srcmms_xmtm_is_momentum_operator (c : Inputs) (x y : R) :
  exists (u_x u_y : R -> R) (p_x u_xx u_yy : R),
    (forall t, derivable_pt_lim (fun s => umms c s y 1) t (u_x t)) /\
    (forall t, derivable_pt_lim (fun s => umms c x s 1) t (u_y t)) /\
    derivable_pt_lim (fun s => umms c s y 0) x p_x /\
    derivable_pt_lim u_x x u_xx /\
    derivable_pt_lim u_y y u_yy /\
    srcmms_xmtm c x y
    = rho c * umms c x y 1 * u_x x + rho c * umms c x y 2 * u_y y + p_x
      - rmu c * (u_xx + u_yy).
Proof.
  exists (fun t =>
    sub phix 1 * sub apx 1 * rpi / rlength c * cos (sub apx 1 * rpi * t / rlength c)
    + sub phixy 1 * sub apxy 1 * rpi * y / rlength c / rlength c
      * cos (sub apxy 1 * rpi * t * y / rlength c / rlength c)).
  exists (fun t =>
    - sub phiy 1 * sub apy 1 * rpi / rlength c * sin (sub apy 1 * rpi * t / rlength c)
    + sub phixy 1 * sub apxy 1 * rpi * x / rlength c / rlength c
      * cos (sub apxy 1 * rpi * x * t / rlength c / rlength c)).
  exists (- sub phix 0 * sub apx 0 * rpi / rlength c * sin (sub apx 0 * rpi * x / rlength c)
          + sub phixy 0 * sub apxy 0 * rpi * y / rlength c / rlength c
            * cos (sub apxy 0 * rpi * x * y / rlength c / rlength c)).
  exists (- sub phix 1 * (sub apx 1 * rpi / rlength c) ^ 2 * sin (sub apx 1 * rpi * x / rlength c)
          - sub phixy 1 * (sub apxy 1 * rpi * y / rlength c / rlength c) ^ 2
            * sin (sub apxy 1 * rpi * x * y / rlength c / rlength c)).
  exists (- sub phiy 1 * (sub apy 1 * rpi / rlength c) ^ 2 * cos (sub apy 1 * rpi * y / rlength c)
          - sub phixy 1 * (sub apxy 1 * rpi * x / rlength c / rlength c) ^ 2
            * sin (sub apxy 1 * rpi * x * y / rlength c / rlength c)).
  split; [|split; [|split; [|split; [|split]]]].
  - intros t. unfold_mms. dlim. unfold Rdiv. ring.
  - intros t. unfold_mms. dlim. unfold Rdiv. ring.
  - unfold_mms. dlim. unfold Rdiv. ring.
  - unfold_mms. dlim. unfold Rdiv. ring.
  - unfold_mms. dlim. unfold Rdiv. ring.
  - unfold_mms. unfold Rdiv. ring.
Qed.

(** X3: the y-momentum source is the steady y-momentum operator applied to
    the manufactured solution:
    [rho u dv/dx + rho v dv/dy + dp/dy - mu (d2v/dx2 + d2v/dy2)]. *)
Theorem srcmms_ymtm_is_momentum_operator (c : Inputs) (x y : R) :
  exists (v_x v_y : R -> R) (p_y v_xx v_yy : R),
    (forall t, derivable_pt_lim (fun s => umms c s y 2) t (v_x t)) /\
    (forall t, derivable_pt_lim (fun s => umms c x s 2) t (v_y t)) /\
    derivable_pt_lim (fun s => umms c x s 0) y p_y /\
    derivable_pt_lim v_x x v_xx /\
    derivable_pt_lim v_y y v_yy /\
    srcmms_ymtm c x y
    = rho c * umms c x y 1 * v_x x + rho c * umms c x y 2 * v_y y + p_y
      - rmu c * (v_xx + v_yy).
Proof.
  exists (fun t =>
    - sub phix 2 * sub apx 2 * rpi / rlength c * sin (sub apx 2 * rpi * t / rlength c)
    - sub phixy 2 * sub apxy 2 * rpi * y / rlength c / rlength c
      * sin (sub apxy 2 * rpi * t * y / rlength c / rlength c)).
  exists (fun t =>
    - sub phiy 2 * sub apy 2 * rpi / rlength c * sin (sub apy 2 * rpi * t / rlength c)
    - sub phixy 2 * sub apxy 2 * rpi * x / rlength c / rlength c
      * sin (sub apxy 2 * rpi * x * t / rlength c / rlength c)).
  exists (sub phiy 0 * sub apy 0 * rpi / rlength c * cos (sub apy 0 * rpi * y / rlength c)
          + sub phixy 0 * sub apxy 0 * rpi * x / rlength c / rlength c
            * cos (sub apxy 0 * rpi * x * y / rlength c / rlength c)).
  exists (- sub phix 2 * (sub apx 2 * rpi / rlength c) ^ 2 * cos (sub apx 2 * rpi * x / rlength c)
          - sub phixy 2 * (sub apxy 2 * rpi * y / rlength c / rlength c) ^ 2
            * cos (sub apxy 2 * rpi * x * y / rlength c / rlength c)).
  exists (- sub phiy 2 * (sub apy 2 * rpi / rlength c) ^ 2 * cos (sub apy 2 * rpi * y / rlength c)
          - sub phixy 2 * (sub apxy 2 * rpi * x / rlength c / rlength c) ^ 2
            * cos (sub apxy 2 * rpi * x * y / rlength c / rlength c)).
  split; [|split; [|split; [|split; [|split]]]].
  - intros t. unfold_mms. dlim. unfold Rdiv. ring.
  - intros t. unfold_mms. dlim. unfold Rdiv. ring.
  - unfold_mms. dlim. unfold Rdiv. ring.
  - unfold_mms. dlim. unfold Rdiv. ring.
  - unfold_mms. dlim. unfold Rdiv. ring.
  - unfold_mms. unfold Rdiv. ring.
Qed.

(** ** Loops over the nodes of a field *)

Lemma in_nodes_rev (a n a' n' : nat) (p : nat * nat) :
  In p (list_prod (rev (seq a n)) (rev (seq a' n'))) <->
  (a <= fst p < a + n)%nat /\ (a' <= snd p < a' + n')%nat.
Proof.
  destruct p as [i j]. rewrite in_prod_iff, <- !in_rev, !in_seq. reflexivity.
Qed.

Lemma NoDup_nodes_rev (a n a' n' : nat) :
  NoDup (list_prod (rev (seq a n)) (rev (seq a' n'))).
Proof.
  apply NoDup_list_prod; apply NoDup_ListNoDup, NoDup_rev, NoDup_ListNoDup, NoDup_seq.
Qed.

(** A node of the loop nest that assigns the three cells of its own node
    only. *)
Ltac node_frame c :=
  let Hne := fresh "Hne" in
  match goal with
  | Hw : ~ node_cell (?a, ?b) (?i', ?j', ?k') |- _ =>
      assert (Hne : a <> i' \/ b <> j')
        by (let E := fresh "E" in
            apply node_neq_iff; intros E; apply Hw; unfold node_cell; cbn [fst]; congruence)
  end;
  unfold get_cell; cbn [fst snd]; cbv zeta; get_set c; reflexivity.

Section SourceTerms.

Variable c : Inputs.

Lemma compute_source_terms_shaped (s : Array3) :
  shaped3 c s -> shaped3 c (compute_source_terms c s).
Proof.
  intros Hs. unfold compute_source_terms, for_range.
  apply for_each_invariant; [|exact Hs]. intros i t _ Ht.
  apply for_each_invariant; [|exact Ht]. intros j t' _ Ht'. cbv zeta. shaped.
Qed.

Lemma compute_source_terms_cell (s : Array3) (i j k : nat) :
  shaped3 c s -> (i < imax c)%nat -> (j < jmax c)%nat -> (k < neq)%nat ->
  get3 (compute_source_terms c s) i j k
  = if ((1 <=? i) && (i <=? imax c - 2) && (1 <=? j) && (j <=? jmax c - 2))%nat
    then IZR (imms c) * srcmms c k (xnode c i) (ynode c j)
    else get3 s i j k.
Proof.
  intros Hs Hi Hj Hk. unfold compute_source_terms. rewrite for_range_nested.
  match goal with
  | |- context [for_each ?xs ?f _] =>
      assert (Hok : forall x t, In x xs -> shaped3 c t -> shaped3 c (f x t))
        by (intros ? ? _ ?; cbv beta zeta; shaped);
      assert (Hframe : forall x t k', In x xs -> shaped3 c t -> valid_cell c k' ->
                ~ node_cell x k' -> get_cell (f x t) k' = get_cell t k')
  end.
  { intros [a b] t [[i' j'] k'] Hin Ht (Hi' & Hj' & Hk') Hw. apply in_nodes in Hin.
    cbn [fst snd] in *. node_frame c. }
  destruct (Nat.leb_spec 1 i) as [Hi1|Hi1];
    [destruct (Nat.leb_spec i (imax c - 2)) as [Hi2|Hi2];
     [destruct (Nat.leb_spec 1 j) as [Hj1|Hj1];
      [destruct (Nat.leb_spec j (jmax c - 2)) as [Hj2|Hj2]|]|]|];
    cbn [andb].
  1: { apply (for_each_value get_cell (shaped3 c) (valid_cell c) _ node_cell _ Hok Hframe)
         with (x := (i, j)) (k := (i, j, k)).
       - apply NoDup_nodes.
       - apply in_nodes. cbn [fst snd]. lia.
       - exact Hs.
       - unfold_cells. index_lia.
       - intros y _ Hy E. unfold node_cell in E. cbn [fst] in E. congruence.
       - intros t Ht _. unfold get_cell. cbn [fst snd]. cbv zeta.
         destruct k as [|[|[|k]]]; try (exfalso; index_lia); get_set c; reflexivity. }
  all: apply (for_each_frame get_cell (shaped3 c) (valid_cell c) _ node_cell _ Hok Hframe)
         with (k := (i, j, k)); auto;
    [ unfold_cells; index_lia
    | intros [a b] Hin E; apply in_nodes in Hin; unfold node_cell in E;
      cbn [fst snd] in *; inversion E; lia ].
Qed.

(** X4: [compute_source_terms] stores at every interior node [imms] times
    the three manufactured source terms at the coordinates of the node, and
    assigns no wall node. *)
Theorem compute_source_terms_interior_only (s : Array3) (i j k : nat) :
  shaped3 c s -> (k < neq)%nat ->
  (interior_node c i j ->
   get3 (compute_source_terms c s) i j k
   = IZR (imms c) * srcmms c k (xnode c i) (ynode c j)) /\
  (wall_node c i j -> get3 (compute_source_terms c s) i j k = get3 s i j k).
Proof.
  intros Hs Hk. split.
  - intros ((Hi1 & Hi2) & (Hj1 & Hj2)).
    rewrite compute_source_terms_cell by (auto; lia).
    destruct (Nat.leb_spec 1 i); [|lia]. destruct (Nat.leb_spec i (imax c - 2)); [|lia].
    destruct (Nat.leb_spec 1 j); [|lia]. destruct (Nat.leb_spec j (jmax c - 2)); [|lia].
    reflexivity.
  - intros (Hi & Hj & Hw). rewrite compute_source_terms_cell by auto.
    destruct (Nat.leb_spec 1 i); [|reflexivity].
    destruct (Nat.leb_spec i (imax c - 2)); [|reflexivity].
    destruct (Nat.leb_spec 1 j); [|reflexivity].
    destruct (Nat.leb_spec j (jmax c - 2)); [|reflexivity]. lia.
Qed.

End SourceTerms.

Lemma compute_source_terms_interior_only_witness :
  shaped3 source_inputs (zero_field source_inputs) /\ (0 < neq)%nat /\
  interior_node source_inputs 125 125 /\
  get3 (compute_source_terms source_inputs (zero_field source_inputs)) 125 125 0
  = IZR (imms source_inputs)
    * srcmms source_inputs 0 (xnode source_inputs 125) (ynode source_inputs 125).
Proof.
  assert (Hn : interior_node source_inputs 125 125)
    by (unfold interior_node; cbn [imax jmax source_inputs]; lia).
  assert (Hk : (0 < neq)%nat) by (unfold neq; lia).
  split; [apply shaped3_tabulate3|]. split; [exact Hk|]. split; [exact Hn|].
  exact (proj1 (compute_source_terms_interior_only source_inputs (zero_field source_inputs)
                  125 125 0 (shaped3_tabulate3 source_inputs _) Hk) Hn).
Defined.

(** ** The initial state *)

Lemma for_each_pair {A B X : Type} (xs : list X) (f : X -> A * B -> A * B)
    (g : X -> A -> A) (h : X -> B -> B) (a : A) (b : B) :
  (forall x a b, In x xs -> f x (a, b) = (g x a, h x b)) ->
  for_each xs f (a, b) = (for_each xs g a, for_each xs h b).
Proof.
  revert a b. induction xs as [|x xs IH]; intros a b Hf; [reflexivity|].
  rewrite !for_each_cons, Hf by (left; reflexivity).
  apply IH. intros y a' b' Hy. apply Hf. right. exact Hy.
Qed.

Section Initial.

Variable c : Inputs.

(** One row of a field set to the same three values at every node. *)
Lemma row_fill (i : nat) (p q r : R) (t : Array3) (i' j' k' : nat) :
  shaped3 c t -> (i < imax c)%nat ->
  (i' < imax c)%nat -> (j' < jmax c)%nat -> (k' < neq)%nat ->
  shaped3 c (for_range 0 (jmax c)
               (fun j u => set3 (set3 (set3 u i j 0 p) i j 1 q) i j 2 r) t) /\
  get3 (for_range 0 (jmax c)
          (fun j u => set3 (set3 (set3 u i j 0 p) i j 1 q) i j 2 r) t) i' j' k'
  = if (i' =? i)%nat then nth k' [p; q; r] 0 else get3 t i' j' k'.
Proof.
  intros Ht Hi Hi' Hj' Hk'. unfold for_range.
  match goal with
  | |- context [for_each ?xs ?f _] =>
      assert (Hok : forall x s, In x xs -> shaped3 c s -> shaped3 c (f x s))
        by (intros ? ? _ ?; cbv beta; shaped);
      assert (Hframe : forall x s k, In x xs -> shaped3 c s -> valid_cell c k ->
                ~ node_cell (i, x) k -> get_cell (f x s) k = get_cell s k)
  end.
  { intros b s [[i2 j2] k2] Hin Hs (Hi2 & Hj2 & Hk2) Hw. apply in_seq in Hin.
    cbn [fst snd] in *. node_frame c. }
  split; [apply for_each_invariant; [intros x s Hx; apply Hok; exact Hx | exact Ht]|].
  destruct (Nat.eqb_spec i' i) as [->|Hne].
  - apply (for_each_value get_cell (shaped3 c) (valid_cell c) _
             (fun x => node_cell (i, x)) _ Hok Hframe)
      with (x := j') (k := (i, j', k')).
    + apply NoDup_seq.
    + apply in_seq. lia.
    + exact Ht.
    + unfold_cells. index_lia.
    + intros y _ Hy E. unfold node_cell in E. cbn [fst] in E. congruence.
    + intros s Hs _. unfold get_cell. cbn [fst snd].
      destruct k' as [|[|[|k']]]; try (exfalso; index_lia); get_set c; reflexivity.
  - apply (for_each_frame get_cell (shaped3 c) (valid_cell c) _
             (fun x => node_cell (i, x)) _ Hok Hframe) with (k := (i', j', k')); auto.
    + unfold_cells. index_lia.
    + intros x _ E. unfold node_cell in E. cbn [fst] in E. congruence.
Qed.

Lemma initial_loops (u s : Array3) :
  irstr c = 0%Z ->
  initial c u s
  = Some (1%Z, 0, [1; 1; 1],
          for_range 0 (imax c) (fun i u =>
            set3 (for_range 0 (jmax c)
                    (fun j u => set3 (set3 (set3 u i j 0 (pinf c)) i j 1 0) i j 2 0) u)
                 i (jmax c - 1) 1 (uinf c)) u,
          for_range 0 (imax c) (fun i s =>
            for_range 0 (jmax c)
              (fun j s => set3 (set3 (set3 s i j 0 0) i j 1 0) i j 2 0) s) s).
Proof.
  intros E. unfold initial. rewrite E. cbn [Z.eqb].
  unfold for_range at 1. cbn [neq Nat.sub seq for_each fold_left insert list_insert].
  unfold for_range at 1.
  rewrite for_each_pair with
    (g := fun i u =>
            set3 (for_range 0 (jmax c)
                    (fun j u => set3 (set3 (set3 u i j 0 (pinf c)) i j 1 0) i j 2 0) u)
                 i (jmax c - 1) 1 (uinf c))
    (h := fun i s =>
            for_range 0 (jmax c)
              (fun j s => set3 (set3 (set3 s i j 0 0) i j 1 0) i j 2 0) s).
  - reflexivity.
  - intros i a b _. unfold for_range.
    rewrite for_each_pair with
      (g := fun j u => set3 (set3 (set3 u i j 0 (pinf c)) i j 1 0) i j 2 0)
      (h := fun j s => set3 (set3 (set3 s i j 0 0) i j 1 0) i j 2 0); reflexivity.
Qed.

(** Rows filled one after the other. *)
Lemma rows_fill (body : nat -> Array3 -> Array3) (f : nat -> nat -> nat -> R)
    (t : Array3) (i j k : nat) :
  (forall a s i' j' k', (a < imax c)%nat -> shaped3 c s ->
     (i' < imax c)%nat -> (j' < jmax c)%nat -> (k' < neq)%nat ->
     shaped3 c (body a s) /\
     get3 (body a s) i' j' k' = if (i' =? a)%nat then f a j' k' else get3 s i' j' k') ->
  shaped3 c t -> (i < imax c)%nat -> (j < jmax c)%nat -> (k < neq)%nat ->
  shaped3 c (for_range 0 (imax c) body t) /\
  get3 (for_range 0 (imax c) body t) i j k = f i j k.
Proof.
  intros Hbody Ht Hi Hj Hk. unfold for_range.
  assert (Hok : forall x s, In x (seq 0 (imax c - 0)) -> shaped3 c s -> shaped3 c (body x s)).
  { intros a s Hin Hs. apply in_seq in Hin. apply (Hbody a s i j k); auto; lia. }
  assert (Hframe : forall x s k', In x (seq 0 (imax c - 0)) -> shaped3 c s ->
            valid_cell c k' -> ~ fst (fst k') = x -> get_cell (body x s) k' = get_cell s k').
  { intros a s [[i2 j2] k2] Hin Hs (Hi2 & Hj2 & Hk2) Hw. apply in_seq in Hin.
    cbn [fst snd] in *. unfold get_cell. cbn [fst snd].
    destruct (Hbody a s i2 j2 k2) as [_ ->]; auto; try lia.
    destruct (Nat.eqb_spec i2 a); [contradiction | reflexivity]. }
  split; [apply for_each_invariant; [intros x s Hx; apply Hok; exact Hx | exact Ht]|].
  apply (for_each_value get_cell (shaped3 c) (valid_cell c) _
           (fun x k' => fst (fst k') = x) _ Hok Hframe)
    with (x := i) (k := (i, j, k)).
  - apply NoDup_seq.
  - apply in_seq. lia.
  - exact Ht.
  - unfold_cells. index_lia.
  - intros y _ Hy E. cbn [fst] in E. congruence.
  - intros s Hs _. unfold get_cell. cbn [fst snd].
    destruct (Hbody i s i j k) as [_ ->]; auto.
    rewrite Nat.eqb_refl. reflexivity.
Qed.

Lemma initial_cells (u s : Array3) :
  irstr c = 0%Z -> shaped3 c u -> shaped3 c s ->
  exists u' s',
    initial c u s = Some (1%Z, 0, [1; 1; 1], u', s') /\
    shaped3 c u' /\ shaped3 c s' /\
    forall i j k, (i < imax c)%nat -> (j < jmax c)%nat -> (k < neq)%nat ->
      get3 u' i j k = initial_field c i j k /\ get3 s' i j k = 0.
Proof.
  intros E Hu Hs. rewrite (initial_loops u s E).
  eexists. eexists. split; [reflexivity|].
  assert (Hfill_u : forall a t i' j' k', (a < imax c)%nat -> shaped3 c t ->
     (i' < imax c)%nat -> (j' < jmax c)%nat -> (k' < neq)%nat ->
     shaped3 c (set3 (for_range 0 (jmax c)
                    (fun j u => set3 (set3 (set3 u a j 0 (pinf c)) a j 1 0) a j 2 0) t)
                 a (jmax c - 1) 1 (uinf c)) /\
     get3 (set3 (for_range 0 (jmax c)
                    (fun j u => set3 (set3 (set3 u a j 0 (pinf c)) a j 1 0) a j 2 0) t)
                 a (jmax c - 1) 1 (uinf c)) i' j' k'
     = if (i' =? a)%nat then initial_field c a j' k' else get3 t i' j' k').
  { intros a t i' j' k' Ha Ht Hi' Hj' Hk'.
    destruct (row_fill a (pinf c) 0 0 t i' j' k' Ht Ha Hi' Hj' Hk') as [Hsh Hval].
    split; [apply shaped3_set3, Hsh|].
    unfold initial_field.
    destruct (Nat.eq_dec i' a) as [->|Hia];
      [destruct (Nat.eq_dec k' 1%nat) as [->|Hk1];
       [destruct (Nat.eq_dec j' (jmax c - 1)%nat) as [->|Hj1]|]|].
    - rewrite (get3_set3_same c) by side. rewrite !Nat.eqb_refl. reflexivity.
    - rewrite (get3_set3_other c) by side. rewrite Hval, Nat.eqb_refl.
      destruct (Nat.eqb_spec j' (jmax c - 1)); [contradiction|]. reflexivity.
    - rewrite (get3_set3_other c) by side. rewrite Hval, Nat.eqb_refl.
      destruct k' as [|[|[|k']]]; try (exfalso; index_lia); try contradiction; reflexivity.
    - rewrite (get3_set3_other c) by side. rewrite Hval.
      destruct (Nat.eqb_spec i' a); [contradiction | reflexivity]. }
  assert (Hfill_s : forall a t i' j' k', (a < imax c)%nat -> shaped3 c t ->
     (i' < imax c)%nat -> (j' < jmax c)%nat -> (k' < neq)%nat ->
     shaped3 c (for_range 0 (jmax c)
                  (fun j s => set3 (set3 (set3 s a j 0 0) a j 1 0) a j 2 0) t) /\
     get3 (for_range 0 (jmax c)
             (fun j s => set3 (set3 (set3 s a j 0 0) a j 1 0) a j 2 0) t) i' j' k'
     = if (i' =? a)%nat then 0 else get3 t i' j' k').
  { intros a t i' j' k' Ha Ht Hi' Hj' Hk'.
    destruct (row_fill a 0 0 0 t i' j' k' Ht Ha Hi' Hj' Hk') as [Hsh Hval].
    split; [exact Hsh|]. rewrite Hval.
    destruct (i' =? a)%nat; [|reflexivity].
    destruct k' as [|[|[|k']]]; try (exfalso; index_lia); reflexivity. }
  split; [|split].
  - unfold for_range. apply for_each_invariant; [|exact Hu].
    intros a t _ Ht. apply shaped3_set3. apply for_each_invariant; [|exact Ht].
    intros b t' _ Ht'. shaped.
  - unfold for_range. apply for_each_invariant; [|exact Hs].
    intros a t _ Ht. apply for_each_invariant; [|exact Ht].
    intros b t' _ Ht'. shaped.
  - intros i j k Hi Hj Hk. split.
    + apply (rows_fill _ (initial_field c) u i j k); auto.
    + apply (rows_fill _ (fun _ _ _ => 0) s i j k); auto.
Qed.

(** X5: a run from scratch ([irstr = 0]) starts at iteration 1 and time 0
    with the three initial residuals set to 1; whatever the two arrays
    held, the field has pressure [pinf] at every node, the x-velocity
    [uinf] on the whole lid row (its two corner nodes included) and zero
    elsewhere, zero y-velocity, and the source array is zero at every
    node. *)
Theorem initial_from_scratch (u s : Array3) :
  irstr c = 0%Z -> shaped3 c u -> shaped3 c s ->
  exists u' s',
    initial c u s = Some (1%Z, 0, [1; 1; 1], u', s') /\
    shaped3 c u' /\ shaped3 c s' /\
    forall i j k, (i < imax c)%nat -> (j < jmax c)%nat -> (k < neq)%nat ->
      get3 u' i j k = initial_field c i j k /\ get3 s' i j k = 0.
Proof.
  intros E Hu Hs.
  destruct (initial_cells u s E Hu Hs) as (u' & s' & Einit & Hu' & Hs' & Hval).
  exists u', s'. split; [exact Einit|]. split; [exact Hu'|]. split; [exact Hs'|].
  intros i j k Hi Hj Hk. destruct (Hval i j k Hi Hj Hk) as [Hfield Hsrc].
  split; [exact Hfield | exact Hsrc].
Qed.

End Initial.

Lemma initial_from_scratch_witness :
  irstr source_inputs = 0%Z /\
  shaped3 source_inputs (one_fast_node source_inputs) /\
  exists u' s',
    initial source_inputs (one_fast_node source_inputs) (one_fast_node source_inputs)
    = Some (1%Z, 0, [1; 1; 1], u', s') /\
    get3 u' 0 250 1 = uinf source_inputs.
Proof.
  split; [reflexivity|]. split; [apply shaped3_tabulate3|].
  destruct (initial_from_scratch source_inputs
              (one_fast_node source_inputs) (one_fast_node source_inputs) eq_refl
              (shaped3_tabulate3 source_inputs _) (shaped3_tabulate3 source_inputs _))
    as (u' & s' & E & _ & _ & H).
  exists u', s'. split; [exact E|].
  exact (proj1 (H 0%nat 250%nat 1%nat ltac:(cbn [imax source_inputs]; lia)
                 ltac:(cbn [jmax source_inputs]; lia) ltac:(unfold neq; lia))).
Defined.

(** ** The walls *)

(** Reads of the four boundary loops replaced by their closed forms, and
    the cases of the indices. *)
Ltac wall_shaped c :=
  repeat first [ assumption
               | apply (bndry_side_walls_shaped c)
               | apply (bndry_top_bottom_walls_shaped c)
               | apply (bndrymms_side_walls_shaped c)
               | apply (bndrymms_top_bottom_walls_shaped c) ].

Ltac wall_side c := first [ solve [wall_shaped c] | index_lia ].

Ltac wall_values c Hi Hj :=
  repeat first [ rewrite (bndry_side_walls_value c Hi Hj) by wall_side c
               | rewrite (bndry_top_bottom_walls_value c Hi Hj) by wall_side c
               | rewrite (bndrymms_side_walls_value c Hi Hj) by wall_side c
               | rewrite (bndrymms_top_bottom_walls_value c Hi Hj) by wall_side c ].

Ltac wall_index :=
  match goal with
  | |- context [Nat.eqb ?a ?b] =>
      destruct (Nat.eqb_spec a b); try (exfalso; index_lia)
  | |- context [Nat.leb ?a ?b] =>
      destruct (Nat.leb_spec a b); try (exfalso; index_lia)
  end.

Ltac wall_cases :=
  unfold bndry_side_walls_spec, bndry_top_bottom_walls_spec,
         bndrymms_side_walls_spec, bndrymms_top_bottom_walls_spec;
  repeat (cbn [andb]; wall_index); cbn [andb].

Ltac walls c Hi Hj :=
  repeat (progress (wall_values c Hi Hj; wall_cases; subst)); try reflexivity.

Section Walls.

Variable c : Inputs.
Hypothesis Himax : (4 <= imax c)%nat.
Hypothesis Hjmax : (4 <= jmax c)%nat.

Ltac walls' := walls c Himax Hjmax.

(** X6: what [bndry] leaves in a field.  No interior node is changed.  On
    the four walls both velocities are zero, except the x-velocity of the
    lid nodes [1 <= i <= imax-2], which is [uinf]; the lid corners are at
    rest.  The pressure of a wall node that is no corner is extrapolated
    from its two neighbours along the normal, [2 p1 - p2]. *)
Theorem bndry_walls (u : Array3) (i j k : nat) :
  shaped3 c u ->
  (interior_node c i j -> (k < neq)%nat -> get3 (bndry c u) i j k = get3 u i j k) /\
  (wall_node c i j ->
     get3 (bndry c u) i j 2 = 0 /\
     get3 (bndry c u) i j 1
     = if ((j =? jmax c - 1) && (1 <=? i) && (i <=? imax c - 2))%nat then uinf c else 0) /\
  ((1 <= j <= jmax c - 2)%nat ->
     get3 (bndry c u) 0 j 0 = 2 * get3 u 1 j 0 - get3 u 2 j 0 /\
     get3 (bndry c u) (imax c - 1) j 0
     = 2 * get3 u (imax c - 2) j 0 - get3 u (imax c - 3) j 0) /\
  ((1 <= i <= imax c - 2)%nat ->
     get3 (bndry c u) i 0 0 = 2 * get3 u i 1 0 - get3 u i 2 0 /\
     get3 (bndry c u) i (jmax c - 1) 0
     = 2 * get3 u i (jmax c - 2) 0 - get3 u i (jmax c - 3) 0).
Proof.
  intros Hu. unfold bndry, interior_node, wall_node.
  split; [|split; [|split]].
  - intros (Hi & Hj) Hk. walls'.
  - intros (Hi & Hj & Hw). split; walls'.
  - intros Hj. split; walls'.
  - intros Hi. split; walls'.
Qed.

(** X7: what [bndrymms] leaves in a field.  No interior node is changed.
    On the walls both velocities are those of the manufactured solution:
    at [x = xmin] and [x = xmax] with the [y] of the node on the side
    walls, at [y = ymin] and [y = ymax] with the [x] of the node on the
    bottom and top rows, corners included.  The manufactured pressure the
    routine stores on a wall is replaced at once: the pressure of a wall
    node that is no corner is [2 p1 - p2] of its two neighbours along the
    normal. *)
Theorem bndrymms_walls (u : Array3) (i j k : nat) :
  shaped3 c u ->
  (interior_node c i j -> (k < neq)%nat -> get3 (bndrymms c u) i j k = get3 u i j k) /\
  ((1 <= j <= jmax c - 2)%nat -> (k = 1 \/ k = 2)%nat ->
     get3 (bndrymms c u) 0 j k = umms c (xmin c) (ynode c j) k /\
     get3 (bndrymms c u) (imax c - 1) j k = umms c (xmax c) (ynode c j) k) /\
  ((i < imax c)%nat -> (k = 1 \/ k = 2)%nat ->
     get3 (bndrymms c u) i 0 k = umms c (xnode c i) (ymin c) k /\
     get3 (bndrymms c u) i (jmax c - 1) k = umms c (xnode c i) (ymax c) k) /\
  ((1 <= j <= jmax c - 2)%nat ->
     get3 (bndrymms c u) 0 j 0 = 2 * get3 u 1 j 0 - get3 u 2 j 0 /\
     get3 (bndrymms c u) (imax c - 1) j 0
     = 2 * get3 u (imax c - 2) j 0 - get3 u (imax c - 3) j 0) /\
  ((1 <= i <= imax c - 2)%nat ->
     get3 (bndrymms c u) i 0 0 = 2 * get3 u i 1 0 - get3 u i 2 0 /\
     get3 (bndrymms c u) i (jmax c - 1) 0
     = 2 * get3 u i (jmax c - 2) 0 - get3 u i (jmax c - 3) 0).
Proof.
  intros Hu. unfold bndrymms, interior_node, xnode, ynode.
  split; [|split; [|split; [|split]]].
  - intros (Hi & Hj) Hk. walls'.
  - intros Hj [->| ->]; split; walls'.
  - intros Hi [->| ->]; split; walls'.
  - intros Hj. split; walls'.
  - intros Hi. split; walls'.
Qed.

End Walls.

Lemma source_grid : (4 <= imax source_inputs)%nat /\ (4 <= jmax source_inputs)%nat.
Proof. cbn [imax jmax source_inputs]. lia. Qed.

Lemma bndry_walls_witness :
  shaped3 source_inputs (one_fast_node source_inputs) /\
  interior_node source_inputs 1 1 /\ (1 < neq)%nat /\
  get3 (bndry source_inputs (one_fast_node source_inputs)) 1 1 1
  = get3 (one_fast_node source_inputs) 1 1 1.
Proof.
  assert (Hn : interior_node source_inputs 1 1)
    by (unfold interior_node; cbn [imax jmax source_inputs]; lia).
  assert (Hk : (1 < neq)%nat) by (unfold neq; lia).
  split; [apply shaped3_tabulate3|]. split; [exact Hn|]. split; [exact Hk|].
  exact (proj1 (bndry_walls source_inputs (proj1 source_grid) (proj2 source_grid)
                  (one_fast_node source_inputs) 1 1 1 (shaped3_tabulate3 source_inputs _))
               Hn Hk).
Defined.

Lemma bndrymms_walls_witness :
  shaped3 source_inputs (one_fast_node source_inputs) /\
  (0 < imax source_inputs)%nat /\
  get3 (bndrymms source_inputs (one_fast_node source_inputs)) 0 0 1
  = umms source_inputs (xnode source_inputs 0) (ymin source_inputs) 1.
Proof.
  assert (Hi : (0 < imax source_inputs)%nat) by (cbn [imax source_inputs]; lia).
  split; [apply shaped3_tabulate3|]. split; [exact Hi|].
  exact (proj1 (proj1 (proj2 (proj2
           (bndrymms_walls source_inputs (proj1 source_grid) (proj2 source_grid)
              (one_fast_node source_inputs) 0 0 1 (shaped3_tabulate3 source_inputs _))))
           Hi (or_introl eq_refl))).
Defined.

(** ** The start of a run *)

Section Start.

Variable c : Inputs.
Hypothesis Himax : (4 <= imax c)%nat.
Hypothesis Hjmax : (4 <= jmax c)%nat.

(** X8: the state a cavity run from scratch enters its loop with
    ([imms = 0], [irstr = 0], [isgs] 0 or 1), whatever the arrays held when
    they were allocated.  The pressure is [pinf] at every node; the lid
    moves at [uinf] between its corners and every other velocity is zero,
    the two lid corners being at rest although [initial] had set them
    moving; the source terms are zero at every node; the loop starts at
    iteration 1 and time 0 with [dtmin = 1e99]; [uold], [viscx], [viscy]
    and [dt] still hold what they were allocated with. *)
Theorem cavity_run_starts_at_rest (u0 uold0 src0 : Array3) (viscx0 viscy0 dt0 : Array2)
    (res : list R) (conv : R) :
  imms c = 0%Z -> irstr c = 0%Z -> (isgs c = 0 \/ isgs c = 1)%Z ->
  shaped3 c u0 -> shaped3 c src0 ->
  exists step s0,
    main_setup c u0 uold0 src0 viscx0 viscy0 dt0 res conv = Some (step, bndry c, 1%Z, s0) /\
    select_iterationStep c = Some step /\
    (forall i j, (i < imax c)%nat -> (j < jmax c)%nat ->
       get3 (u s0) i j 0 = pinf c /\
       get3 (u s0) i j 1
       = (if ((j =? jmax c - 1) && (1 <=? i) && (i <=? imax c - 2))%nat then uinf c else 0) /\
       get3 (u s0) i j 2 = 0 /\
       (forall k, (k < neq)%nat -> get3 (src s0) i j k = 0)) /\
    rtime s0 = 0 /\ resinit s0 = [1; 1; 1] /\ dtmin s0 = 1e99 /\
    uold s0 = uold0 /\ viscx s0 = viscx0 /\ viscy s0 = viscy0 /\ dt s0 = dt0.
Proof.
  intros Emms Erstr Esgs Hu Hsrc.
  destruct (initial_cells c u0 src0 Erstr Hu Hsrc) as (u' & s' & E & Hu' & Hs' & Hval).
  assert (Hstep : exists step, select_iterationStep c = Some step).
  { unfold select_iterationStep. destruct Esgs as [->| ->]; cbn [Z.eqb]; eauto. }
  destruct Hstep as [step Hstep].
  exists step. eexists. split; [|split; [exact Hstep|]].
  - unfold main_setup, select_boundary_conditions. rewrite Hstep, Emms, E.
    cbn [Z.eqb]. cbv zeta. reflexivity.
  - cbn [u src rtime resinit dtmin uold viscx viscy dt].
    split; [|split; [reflexivity|]; split; [reflexivity|]; split; [reflexivity|];
             split; [reflexivity|]; split; [reflexivity|]; split; reflexivity].
    intros i j Hi Hj.
    assert (Hin : forall a b k, (a < imax c)%nat -> (b < jmax c)%nat -> (k < neq)%nat ->
              get3 u' a b k = initial_field c a b k)
      by (intros a b k Ha Hb Hk; apply Hval; assumption).
    split; [|split; [|split]].
    + unfold bndry. walls c Himax Hjmax;
        rewrite ?Hin by index_lia; unfold initial_field; cbn [Nat.eqb]; lra.
    + unfold bndry. walls c Himax Hjmax;
        rewrite ?Hin by index_lia; unfold initial_field; cbn [Nat.eqb andb];
        try reflexivity;
        match goal with
        | |- context [Nat.eqb ?a ?b] => destruct (Nat.eqb_spec a b); [index_lia | reflexivity]
        end.
    + unfold bndry. walls c Himax Hjmax;
        rewrite ?Hin by index_lia; unfold initial_field; cbn [Nat.eqb andb]; reflexivity.
    + intros k Hk. rewrite compute_source_terms_cell by auto.
      match goal with |- context [if ?b then _ else _] => destruct b end.
      * rewrite Emms. apply Rmult_0_l.
      * apply Hval; assumption.
Qed.

End Start.

Lemma cavity_run_starts_at_rest_witness :
  (4 <= imax source_inputs)%nat /\ imms source_inputs = 0%Z /\
  exists step s0,
    main_setup source_inputs
      (one_fast_node source_inputs) (one_fast_node source_inputs)
      (one_fast_node source_inputs) (constant2 source_inputs 7) (constant2 source_inputs 7)
      (constant2 source_inputs 7) [0; 0; 0] 0
    = Some (step, bndry source_inputs, 1%Z, s0).
Proof.
  split; [exact (proj1 source_grid)|]. split; [reflexivity|].
  destruct (cavity_run_starts_at_rest source_inputs (proj1 source_grid) (proj2 source_grid)
              (one_fast_node source_inputs) (one_fast_node source_inputs)
              (one_fast_node source_inputs) (constant2 source_inputs 7)
              (constant2 source_inputs 7) (constant2 source_inputs 7) [0; 0; 0] 0
              eq_refl eq_refl (or_intror eq_refl)
              (shaped3_tabulate3 source_inputs _) (shaped3_tabulate3 source_inputs _))
    as (step & s0 & E & _).
  exists step, s0. exact E.
Defined.

(** ** What the sweeps leave alone *)

Section SweepFrame.

Variable c : Inputs.

Ltac sweep_frame nodes_of :=
  match goal with
  | |- context [for_each ?xs ?f _] =>
      assert (Hok : forall x t, In x xs -> shaped3 c t -> shaped3 c (f x t))
        by (intros ? ? _ ?; cbv beta zeta; shaped);
      assert (Hframe : forall x t k', In x xs -> shaped3 c t -> valid_cell c k' ->
                ~ node_cell (nodes_of x) k' -> get_cell (f x t) k' = get_cell t k')
  end.

Lemma SGS_forward_sweep_frame (u : Array3) (viscx viscy dt : Array2) (s : Array3)
    (i j k : nat) :
  shaped3 c u -> wall_node c i j -> (k < neq)%nat ->
  get3 (SGS_forward_sweep c u viscx viscy dt s) i j k = get3 u i j k.
Proof.
  intros Hu (Hi & Hj & Hw) Hk. unfold SGS_forward_sweep. rewrite for_range_nested.
  sweep_frame (fun x : nat * nat => (snd x, fst x)).
  { intros [b a] t [[i' j'] k'] Hin Ht (Hi' & Hj' & Hk') Hw'. apply in_nodes in Hin.
    cbn [fst snd] in *. node_frame c. }
  apply (for_each_frame get_cell (shaped3 c) (valid_cell c) _
           (fun x => node_cell (snd x, fst x)) _ Hok Hframe) with (k := (i, j, k)); auto.
  - unfold_cells. index_lia.
  - intros [b a] Hin E. apply in_nodes in Hin. unfold node_cell in E.
    cbn [fst snd] in *. inversion E. lia.
Qed.

Lemma SGS_backward_sweep_frame (u : Array3) (viscx viscy dt : Array2) (s : Array3)
    (i j k : nat) :
  shaped3 c u -> wall_node c i j -> (k < neq)%nat ->
  get3 (SGS_backward_sweep c u viscx viscy dt s) i j k = get3 u i j k.
Proof.
  intros Hu (Hi & Hj & Hw) Hk. unfold SGS_backward_sweep, for_down. rewrite for_each_nested.
  sweep_frame (fun x : nat * nat => (snd x, fst x)).
  { intros [b a] t [[i' j'] k'] Hin Ht (Hi' & Hj' & Hk') Hw'. apply in_nodes_rev in Hin.
    cbn [fst snd] in *. node_frame c. }
  apply (for_each_frame get_cell (shaped3 c) (valid_cell c) _
           (fun x => node_cell (snd x, fst x)) _ Hok Hframe) with (k := (i, j, k)); auto.
  - unfold_cells. index_lia.
  - intros [b a] Hin E. apply in_nodes_rev in Hin. unfold node_cell in E.
    cbn [fst snd] in *. inversion E. lia.
Qed.

Lemma point_Jacobi_frame (u uold : Array3) (viscx viscy dt : Array2) (s : Array3)
    (i j k : nat) :
  shaped3 c u -> wall_node c i j -> (k < neq)%nat ->
  get3 (point_Jacobi c u uold viscx viscy dt s) i j k = get3 u i j k.
Proof.
  intros Hu (Hi & Hj & Hw) Hk. unfold point_Jacobi. rewrite for_range_nested.
  sweep_frame (fun x : nat * nat => x).
  { intros [a b] t [[i' j'] k'] Hin Ht (Hi' & Hj' & Hk') Hw'. apply in_nodes in Hin.
    cbn [fst snd] in *. node_frame c. }
  apply (for_each_frame get_cell (shaped3 c) (valid_cell c) _
           (fun x => node_cell x) _ Hok Hframe) with (k := (i, j, k)); auto.
  - unfold_cells. index_lia.
  - intros [a b] Hin E. apply in_nodes in Hin. unfold node_cell in E.
    cbn [fst snd] in *. inversion E. lia.
Qed.

(** X9: the three relaxation sweeps assign interior nodes only: after a
    forward sweep, a backward sweep or a Point-Jacobi sweep every cell of
    every wall node of [u] holds what it held before. *)
Theorem sweeps_leave_wall_nodes (u uold : Array3) (viscx viscy dt : Array2) (s : Array3)
    (i j k : nat) :
  shaped3 c u -> wall_node c i j -> (k < neq)%nat ->
  get3 (SGS_forward_sweep c u viscx viscy dt s) i j k = get3 u i j k /\
  get3 (SGS_backward_sweep c u viscx viscy dt s) i j k = get3 u i j k /\
  get3 (point_Jacobi c u uold viscx viscy dt s) i j k = get3 u i j k.
Proof.
  intros Hu Hw Hk. split; [|split].
  - apply SGS_forward_sweep_frame; assumption.
  - apply SGS_backward_sweep_frame; assumption.
  - apply point_Jacobi_frame; assumption.
Qed.

End SweepFrame.

Lemma sweeps_leave_wall_nodes_witness :
  shaped3 source_inputs (one_fast_node source_inputs) /\
  wall_node source_inputs 0 7 /\ (1 < neq)%nat /\
  get3 (SGS_forward_sweep source_inputs (one_fast_node source_inputs)
          (constant2 source_inputs 0) (constant2 source_inputs 0) (constant2 source_inputs 1)
          (zero_field source_inputs)) 0 7 1
  = get3 (one_fast_node source_inputs) 0 7 1.
Proof.
  assert (Hw : wall_node source_inputs 0 7)
    by (unfold wall_node; cbn [imax jmax source_inputs]; lia).
  assert (Hk : (1 < neq)%nat) by (unfold neq; lia).
  split; [apply shaped3_tabulate3|]. split; [exact Hw|]. split; [exact Hk|].
  exact (proj1 (sweeps_leave_wall_nodes source_inputs (one_fast_node source_inputs)
                  (one_fast_node source_inputs)
                  (constant2 source_inputs 0) (constant2 source_inputs 0)
                  (constant2 source_inputs 1) (zero_field source_inputs) 0 7 1
                  (shaped3_tabulate3 source_inputs _) Hw Hk)).
Defined.

(** ** The previous field *)

Lemma get3_same_buffer (c : Inputs) (a b : Array3) (i j k : nat) :
  shaped3 c a -> shaped3 c b -> data3 a = data3 b -> get3 a i j k = get3 b i j k.
Proof.
  intros (_ & Hj & Hk & _) (_ & Hj' & Hk' & _) E.
  unfold get3, index3. rewrite E, Hj, Hk, Hj', Hk'. reflexivity.
Qed.

Lemma copyData3_data (c : Inputs) (this A : Array3) :
  shaped3 c this -> shaped3 c A -> data3 (copyData3 this A) = data3 A.
Proof.
  intros (Hi & Hj & Hk & Hl) (_ & _ & _ & Hl'). unfold copyData3, memcpy. cbn [data3].
  rewrite Hi, Hj, Hk, <- Hl' at 1. rewrite firstn_all.
  rewrite drop_ge by lia. apply app_nil_r.
Qed.

(** X10: the iteration step selected by [isgs] leaves in [uold] the field
    it was given in [u]: the Gauss-Seidel step by copying it before the
    sweeps, the Point-Jacobi step by exchanging the two buffers.  Every
    cell of the new [uold] reads as the cell of the old [u], whatever the
    boundary routine and the other arrays. *)
Theorem iteration_step_saves_field (c : Inputs) (step : iterationStepPointer)
    (bc : boundaryConditionPointer) (u0 uold0 src0 : Array3) (viscx0 viscy0 dt0 : Array2)
    (i j k : nat) :
  select_iterationStep c = Some step -> shaped3 c u0 -> shaped3 c uold0 ->
  get3 (snd (fst (fst (step bc u0 uold0 src0 viscx0 viscy0 dt0)))) i j k = get3 u0 i j k.
Proof.
  unfold select_iterationStep. intros E Hu Huold.
  destruct (isgs c =? 1)%Z; [|destruct (isgs c =? 0)%Z]; inversion E; subst.
  - unfold GS_iteration.
    destruct (Compute_Artificial_Viscosity c u0 viscx0 viscy0) as [vx vy].
    destruct (Compute_Artificial_Viscosity c _ vx vy) as [vx' vy']. cbn [fst snd].
    apply (get3_same_buffer c).
    + apply copyData3_shaped; assumption.
    + exact Hu.
    + apply (copyData3_data c); assumption.
  - rewrite PJ_iteration_buffers. cbv zeta. cbn [fst snd].
    apply (get3_same_buffer c).
    + apply (swapData3_shaped c uold0 u0 Huold Hu).
    + exact Hu.
    + reflexivity.
Qed.

Lemma iteration_step_saves_field_witness :
  select_iterationStep source_inputs = Some (GS_iteration source_inputs) /\
  shaped3 source_inputs (one_fast_node source_inputs) /\
  get3 (snd (fst (fst (GS_iteration source_inputs (bndry source_inputs)
                         (one_fast_node source_inputs) (uniform_field source_inputs)
                         (zero_field source_inputs) (constant2 source_inputs 0)
                         (constant2 source_inputs 0) (constant2 source_inputs 1))))) 1 1 1
  = get3 (one_fast_node source_inputs) 1 1 1.
Proof.
  split; [reflexivity|]. split; [apply shaped3_tabulate3|].
  exact (iteration_step_saves_field source_inputs (GS_iteration source_inputs)
           (bndry source_inputs) (one_fast_node source_inputs) (uniform_field source_inputs)
           (zero_field source_inputs) (constant2 source_inputs 0)
           (constant2 source_inputs 0) (constant2 source_inputs 1) 1 1 1 eq_refl
           (shaped3_tabulate3 source_inputs _) (shaped3_tabulate3 source_inputs _)).
Defined.

(** ** The size of the time step *)

Section StepSize.

Variable c : Inputs.
Hypothesis Hc : physical c.

Lemma physical_spacing : 0 < dx c /\ 0 < dy c.
Proof.
  destruct Hc as (_ & _ & _ & _ & _ & Hx & Hy & Hi & Hj). unfold dx, dy. split.
  - apply Rdiv_lt_0_compat; [lra|]. apply lt_0_INR. lia.
  - apply Rdiv_lt_0_compat; [lra|]. apply lt_0_INR. lia.
Qed.





End StepSize.

Lemma source_inputs_physical : physical source_inputs.
Proof.
  unfold physical. cbn [cfl rho uinf Re rkappa xmin xmax ymin ymax imax jmax source_inputs].
  repeat split; try lra; lia.
Qed.


(** ** Rescaling twice *)

(** X12: pressure rescaling is idempotent: a second rescaling finds the
    reference pressure at the centre node, subtracts zero and leaves every
    cell as the first rescaling made it. *)
Theorem pressure_rescaling_idempotent (c : Inputs) (f : Array3) (i j k : nat) :
  shaped3 c f -> (i < imax c)%nat -> (j < jmax c)%nat -> (k < neq)%nat ->
  rescaling_deltap c (pressure_rescaling c f) = 0 /\
  get3 (pressure_rescaling c (pressure_rescaling c f)) i j k
  = get3 (pressure_rescaling c f) i j k.
Proof.
  intros Hf Hi Hj Hk.
  assert (Hd : rescaling_deltap c (pressure_rescaling c f) = 0).
  { unfold rescaling_deltap. rewrite pressure_rescaling_center_value by (auto; lia). lra. }
  split; [exact Hd|].
  destruct k as [|[|[|k]]]; try (exfalso; index_lia).
  - rewrite (pressure_rescaling_pressure c (pressure_rescaling c f))
      by (auto; apply pressure_rescaling_shaped, Hf).
    rewrite Hd. lra.
  - apply pressure_rescaling_velocity; auto. apply pressure_rescaling_shaped, Hf.
  - apply pressure_rescaling_velocity; auto. apply pressure_rescaling_shaped, Hf.
Qed.

Lemma pressure_rescaling_idempotent_witness :
  shaped3 source_inputs (one_fast_node source_inputs) /\
  get3 (pressure_rescaling source_inputs
          (pressure_rescaling source_inputs (one_fast_node source_inputs))) 3 4 0
  = get3 (pressure_rescaling source_inputs (one_fast_node source_inputs)) 3 4 0.
Proof.
  split; [apply shaped3_tabulate3|].
  exact (proj2 (pressure_rescaling_idempotent source_inputs (one_fast_node source_inputs)
                  3 4 0 (shaped3_tabulate3 source_inputs _)
                  ltac:(cbn [imax source_inputs]; lia) ltac:(cbn [jmax source_inputs]; lia)
                  ltac:(unfold neq; lia))).
Defined.

(** ** The two ways out of the main loop *)




(** ** The convergence ratio *)


Lemma Rsum_squares_nonneg {X : Type} (f : X -> R) (xs : list X) :
  0 <= Rsum (map (fun x => f x * f x) xs).
Proof.
  induction xs as [|x xs IH]; [apply Rle_refl|].
  cbn [map]. rewrite Rsum_cons. nra.
Qed.

Lemma sum_sq_resid_nonneg (c : Inputs) (u uold : Array3) (dt : Array2) (k : nat) :
  0 <= sum_sq_resid c u uold dt k.
Proof.
  unfold sum_sq_resid.
  apply (Rsum_squares_nonneg (fun p => local_resid c u uold dt k (fst p) (snd p))).
Qed.



Lemma sqrt_sq_abs (x : R) : sqrt (x * x) = Rabs x.
Proof. exact (sqrt_Rsqr_abs x). Qed.

Lemma sqrt_quotient (s n : R) : 0 <= s -> 0 < n -> sqrt (s / n) = sqrt s / sqrt n.
Proof. intros Hs Hn. apply sqrt_div_alt. exact Hn. Qed.

(** X15: the number of nodes cancels out of the convergence ratio.  On a
    grid with at least one node and for [resinit[0]] other than zero, the
    ratio is the root of the largest of the three sums of squared
    residuals, divided by the magnitude of [resinit[0]]; a run from
    scratch, where [resinit[0] = 1], compares that root itself with
    [toler]. *)
Theorem convergence_ratio_without_node_count (c : Inputs) (n : Z) (f fold : Array3)
    (d : Array2) (res0 resinit0 : list R) (ninit : Z) (rtime0 dtmin0 : R) :
  length res0 = 3%nat -> (0 < imax c * jmax c)%nat -> sub resinit0 0 <> 0 ->
  snd (check_iterative_convergence c n f fold d res0 resinit0 ninit rtime0 dtmin0)
  = Rmax (sqrt (sum_sq_resid c f fold d 0))
         (Rmax (sqrt (sum_sq_resid c f fold d 1)) (sqrt (sum_sq_resid c f fold d 2)))
    / Rabs (sub resinit0 0).
Proof.
  intros Hlen HN Hr. rewrite check_iterative_convergence_res by exact Hlen. cbn [snd].
  assert (Hn : 0 < INR (imax c * jmax c)) by (apply lt_0_INR; exact HN).
  assert (Hsn : 0 < sqrt (INR (imax c * jmax c))) by (apply sqrt_lt_R0; exact Hn).
  rewrite !sqrt_quotient by (try apply sum_sq_resid_nonneg; try exact Hn;
                             unfold pow2; cbv zeta; nra).
  unfold pow2. cbv zeta. rewrite sqrt_sq_abs.
  unfold Rdiv. rewrite !(Rmult_comm _ (/ sqrt (INR (imax c * jmax c)))).
  rewrite !RmaxRmult by (left; apply Rinv_0_lt_compat; exact Hsn).
  assert (Ha : Rabs (sub resinit0 0) <> 0) by (apply Rabs_no_R0; exact Hr).
  field. split; [exact Ha | lra].
Qed.

Lemma convergence_ratio_without_node_count_witness :
  length [0; 0; 0] = 3%nat /\
  (0 < imax source_inputs * jmax source_inputs)%nat /\ sub [1; 1; 1] 0 <> 0 /\
  snd (check_iterative_convergence source_inputs 1 (one_fast_node source_inputs)
         (uniform_field source_inputs) (constant2 source_inputs 1) [0; 0; 0] [1; 1; 1] 1 0 0)
  = Rmax (sqrt (sum_sq_resid source_inputs (one_fast_node source_inputs)
                  (uniform_field source_inputs) (constant2 source_inputs 1) 0))
         (Rmax (sqrt (sum_sq_resid source_inputs (one_fast_node source_inputs)
                        (uniform_field source_inputs) (constant2 source_inputs 1) 1))
               (sqrt (sum_sq_resid source_inputs (one_fast_node source_inputs)
                        (uniform_field source_inputs) (constant2 source_inputs 1) 2)))
    / Rabs (sub [1; 1; 1] 0).
Proof.
  assert (HN : (0 < imax source_inputs * jmax source_inputs)%nat)
    by (cbn [imax jmax source_inputs]; apply Nat.mul_pos_pos; lia).
  assert (Hr : sub [1; 1; 1] 0 <> 0) by (unfold sub; cbn [nth]; lra).
  split; [reflexivity|]. split; [exact HN|]. split; [exact Hr|].
  exact (convergence_ratio_without_node_count source_inputs 1 (one_fast_node source_inputs)
           (uniform_field source_inputs) (constant2 source_inputs 1) [0; 0; 0] [1; 1; 1]
           1 0 0 eq_refl HN Hr).
Defined.

(** ** Discretization error norms *)

(** A loop that adds one term to each of three sums, one square to each of
    three sums of squares, and folds one term into each of three maxima. *)
Lemma for_each_three_norms {X : Type} (xs : list X)
    (step : X -> list R * list R * list R -> list R * list R * list R)
    (e0 e1 e2 : X -> R) :
  (forall x a0 a1 a2 b0 b1 b2 m0 m1 m2,
     step x ([a0; a1; a2], [b0; b1; b2], [m0; m1; m2])
     = ([a0 + e0 x; a1 + e1 x; a2 + e2 x],
        [b0 + e0 x * e0 x; b1 + e1 x * e1 x; b2 + e2 x * e2 x],
        [Rmax m0 (e0 x); Rmax m1 (e1 x); Rmax m2 (e2 x)])) ->
  forall a0 a1 a2 b0 b1 b2 m0 m1 m2,
    for_each xs step ([a0; a1; a2], [b0; b1; b2], [m0; m1; m2])
    = ([a0 + Rsum (map e0 xs); a1 + Rsum (map e1 xs); a2 + Rsum (map e2 xs)],
       [b0 + Rsum (map (fun x => e0 x * e0 x) xs);
        b1 + Rsum (map (fun x => e1 x * e1 x) xs);
        b2 + Rsum (map (fun x => e2 x * e2 x) xs)],
       [Rmax_list m0 (map e0 xs); Rmax_list m1 (map e1 xs); Rmax_list m2 (map e2 xs)]).
Proof.
  intros Hstep. induction xs as [|x xs IH]; intros a0 a1 a2 b0 b1 b2 m0 m1 m2.
  - cbn. rewrite !Rplus_0_r. reflexivity.
  - rewrite for_each_cons, Hstep, IH. cbn [map]. rewrite !Rsum_cons.
    unfold Rmax_list. cbn [fold_left].
    repeat (f_equal; try lra).
Qed.

(** X16: in verification mode ([imms = 1]) the three reported norms of
    equation [k] are built on what the accumulators [rL1], [rL2] and
    [rLinf] hold when the routine is entered, which no statement sets:
    the L1 norm is that content plus the sum over the interior nodes of
    the error [|u - umms|], divided by [imax * jmax]; the L2 norm is the
    root of that content plus the sum of squared errors, divided by
    [imax * jmax]; the maximum norm is the largest of that content and the
    errors.  In any other mode the three norm arrays are left as they
    were. *)
Theorem Discretization_Error_Norms_accumulate (c : Inputs) (f : Array3)
    (rL1norm rL2norm rLinfnorm rL1 rL2 rLinf : list R) (k : nat) :
  length rL1norm = 3%nat -> length rL2norm = 3%nat -> length rLinfnorm = 3%nat ->
  length rL1 = 3%nat -> length rL2 = 3%nat -> length rLinf = 3%nat -> (k < neq)%nat ->
  let norms := Discretization_Error_Norms c f rL1norm rL2norm rLinfnorm rL1 rL2 rLinf in
  (imms c = 1%Z ->
     sub (fst (fst norms)) k
     = (sub rL1 k + Rsum (map (node_error c f k) (interior c))) / INR (imax c * jmax c) /\
     sub (snd (fst norms)) k
     = sqrt ((sub rL2 k
              + Rsum (map (fun p => node_error c f k p * node_error c f k p) (interior c)))
             / INR (imax c * jmax c)) /\
     sub (snd norms) k = Rmax_list (sub rLinf k) (map (node_error c f k) (interior c))) /\
  (imms c <> 1%Z -> norms = (rL1norm, rL2norm, rLinfnorm)).
Proof.
  intros H1 H2 H3 H4 H5 H6 Hk norms. subst norms. unfold Discretization_Error_Norms.
  split.
  - intros ->. cbn [Z.eqb Pos.eqb].
    destruct rL1norm as [|n10 [|n11 [|n12 [|? ?]]]]; try discriminate.
    destruct rL2norm as [|n20 [|n21 [|n22 [|? ?]]]]; try discriminate.
    destruct rLinfnorm as [|n30 [|n31 [|n32 [|? ?]]]]; try discriminate.
    destruct rL1 as [|a0 [|a1 [|a2 [|? ?]]]]; try discriminate.
    destruct rL2 as [|b0 [|b1 [|b2 [|? ?]]]]; try discriminate.
    destruct rLinf as [|m0 [|m1 [|m2 [|? ?]]]]; try discriminate.
    unfold for_range at 1. cbn [neq Nat.sub seq for_each fold_left insert list_insert].
    rewrite for_range_nested.
    rewrite (for_each_three_norms _ _ (node_error c f 0) (node_error c f 1)
               (node_error c f 2)).
    + unfold for_range, neq, sub, interior.
      cbn [Nat.sub seq for_each fold_left insert list_insert nth].
      replace (imax c - 1 - 1)%nat with (imax c - 2)%nat by lia.
      replace (jmax c - 1 - 1)%nat with (jmax c - 2)%nat by lia.
      destruct k as [|[|[|k]]]; try (exfalso; index_lia); cbn [fst snd nth];
        repeat split; reflexivity.
    + intros [i j] a0' a1' a2' b0' b1' b2' m0' m1' m2'.
      unfold for_range, neq, sub, node_error, xnode, ynode, pow2.
      cbn [Nat.sub seq for_each fold_left insert list_insert nth fst snd]. reflexivity.
  - intros Hne. destruct (Z.eqb_spec (imms c) 1); [contradiction | reflexivity].
Qed.

Lemma Discretization_Error_Norms_accumulate_witness :
  length [0; 0; 0] = 3%nat /\ length [5; 5; 5] = 3%nat /\ (0 < neq)%nat /\
  imms mms_inputs = 1%Z /\
  sub (fst (fst (Discretization_Error_Norms mms_inputs (tabulate3 251 251 neq (fun _ _ _ => 0))
                   [0; 0; 0] [0; 0; 0] [0; 0; 0] [5; 5; 5] [5; 5; 5] [5; 5; 5]))) 0
  = (sub [5; 5; 5] 0
     + Rsum (map (node_error mms_inputs (tabulate3 251 251 neq (fun _ _ _ => 0)) 0)
               (interior mms_inputs)))
    / INR (imax mms_inputs * jmax mms_inputs).
Proof.
  assert (Hk : (0 < neq)%nat) by (unfold neq; lia).
  split; [reflexivity|]. split; [reflexivity|]. split; [exact Hk|]. split; [reflexivity|].
  exact (proj1 (proj1 (Discretization_Error_Norms_accumulate mms_inputs
                         (tabulate3 251 251 neq (fun _ _ _ => 0))
                         [0; 0; 0] [0; 0; 0] [0; 0; 0] [5; 5; 5] [5; 5; 5] [5; 5; 5] 0
                         eq_refl eq_refl eq_refl eq_refl eq_refl eq_refl Hk) eq_refl)).
Defined.

(** ** Finite residuals *)



(** ** Cells of an array *)

(** X18: [Array3::operator()] on an array as its constructor allocates
    it.  Every index triple within the three dimensions addresses an
    element of the block; two triples address the same element only when
    they are equal; so reading a cell after an assignment gives the value
    assigned when it is the cell assigned, and what the cell held before
    otherwise. *)
Theorem Array3_cells_do_not_alias (A : Array3) (i j k i' j' k' : nat) (v : R) :
  length (data3 A) = (idim3 A * jdim3 A * kdim3 A)%nat ->
  (i < idim3 A)%nat -> (j < jdim3 A)%nat -> (k < kdim3 A)%nat ->
  (i' < idim3 A)%nat -> (j' < jdim3 A)%nat -> (k' < kdim3 A)%nat ->
  (index3 A i j k < length (data3 A))%nat /\
  (index3 A i j k = index3 A i' j' k' <-> (i, j, k) = (i', j', k')) /\
  get3 (set3 A i j k v) i' j' k'
  = if decide ((i, j, k) = (i', j', k')) then v else get3 A i' j' k'.
Proof.
  intros Hlen Hi Hj Hk Hi' Hj' Hk'.
  assert (Hin : (index3 A i j k < length (data3 A))%nat)
    by (rewrite Hlen; apply index3_lt; assumption).
  assert (Hinj : index3 A i j k = index3 A i' j' k' <-> (i, j, k) = (i', j', k')).
  { split.
    - intros E. apply index3_inj in E; try assumption. destruct E as (-> & -> & ->).
      reflexivity.
    - intros E. inversion E. reflexivity. }
  split; [exact Hin|]. split; [exact Hinj|].
  unfold get3, set3. cbn [data3].
  change (index3 (mkArray3 _ _ _ _) i' j' k') with (index3 A i' j' k').
  rewrite !nth_lookup. destruct (decide ((i, j, k) = (i', j', k'))) as [E|Hne].
  - apply Hinj in E. rewrite <- E, list_lookup_insert_eq by exact Hin. reflexivity.
  - rewrite list_lookup_insert_ne; [reflexivity|]. intros E. apply Hne, Hinj, E.
Qed.

Lemma Array3_cells_do_not_alias_witness :
  get3 (set3 (tabulate3 2 3 4 (fun _ _ _ => 0)) 1 2 3 9) 1 2 3 = 9 /\
  get3 (set3 (tabulate3 2 3 4 (fun _ _ _ => 0)) 1 2 3 9) 0 2 3 = 0.
Proof.
  assert (Hlen : length (data3 (tabulate3 2 3 4 (fun _ _ _ => 0))) = (2 * 3 * 4)%nat)
    by reflexivity.
  split.
  - exact (proj2 (proj2 (Array3_cells_do_not_alias (tabulate3 2 3 4 (fun _ _ _ => 0))
                           1 2 3 1 2 3 9 Hlen ltac:(cbn; lia) ltac:(cbn; lia) ltac:(cbn; lia)
                           ltac:(cbn; lia) ltac:(cbn; lia) ltac:(cbn; lia)))).
  - rewrite (proj2 (proj2 (Array3_cells_do_not_alias (tabulate3 2 3 4 (fun _ _ _ => 0))
                           1 2 3 0 2 3 9 Hlen ltac:(cbn; lia) ltac:(cbn; lia) ltac:(cbn; lia)
                           ltac:(cbn; lia) ltac:(cbn; lia) ltac:(cbn; lia)))).
    reflexivity.
Defined.

(** X19: the same for [Array2::operator()]. *)
Theorem Array2_cells_do_not_alias (A : Array2) (i j i' j' : nat) (v : R) :
  length (data2 A) = (idim2 A * jdim2 A)%nat ->
  (i < idim2 A)%nat -> (j < jdim2 A)%nat -> (i' < idim2 A)%nat -> (j' < jdim2 A)%nat ->
  (index2 A i j < length (data2 A))%nat /\
  (index2 A i j = index2 A i' j' <-> (i, j) = (i', j')) /\
  get2 (set2 A i j v) i' j' = if decide ((i, j) = (i', j')) then v else get2 A i' j'.
Proof.
  intros Hlen Hi Hj Hi' Hj'.
  assert (Hin : (index2 A i j < length (data2 A))%nat)
    by (rewrite Hlen; unfold index2; nia).
  assert (Hinj : index2 A i j = index2 A i' j' <-> (i, j) = (i', j')).
  { split.
    - intros E. apply index2_inj in E; try assumption. destruct E as (-> & ->). reflexivity.
    - intros E. inversion E. reflexivity. }
  split; [exact Hin|]. split; [exact Hinj|].
  unfold get2, set2. cbn [data2].
  change (index2 (mkArray2 _ _ _) i' j') with (index2 A i' j').
  rewrite !nth_lookup. destruct (decide ((i, j) = (i', j'))) as [E|Hne].
  - apply Hinj in E. rewrite <- E, list_lookup_insert_eq by exact Hin. reflexivity.
  - rewrite list_lookup_insert_ne; [reflexivity|]. intros E. apply Hne, Hinj, E.
Qed.

Lemma Array2_cells_do_not_alias_witness :
  get2 (set2 (tabulate2 2 3 (fun _ _ => 0)) 1 2 9) 1 2 = 9.
Proof.
  exact (proj2 (proj2 (Array2_cells_do_not_alias (tabulate2 2 3 (fun _ _ => 0))
                         1 2 1 2 9 eq_refl ltac:(cbn; lia) ltac:(cbn; lia)
                         ltac:(cbn; lia) ltac:(cbn; lia)))).
Defined.

(** ** The pressure level

    The routines read the pressure through differences only, so a field
    and the same field with its pressure raised by a constant go through
    an iteration side by side. *)

Lemma shifted_pressure (c : Inputs) (d : R) (a b : Array3) (i j : nat) :
  pressure_shifted c d a b -> (i < imax c)%nat -> (j < jmax c)%nat ->
  get3 b i j 0 = get3 a i j 0 + d.
Proof. intros H Hi Hj. apply (H i j 0%nat); auto. unfold neq. lia. Qed.

Lemma shifted_velocity (c : Inputs) (d : R) (a b : Array3) (i j k : nat) :
  pressure_shifted c d a b -> (i < imax c)%nat -> (j < jmax c)%nat ->
  (k = 1 \/ k = 2)%nat -> get3 b i j k = get3 a i j k.
Proof.
  intros H Hi Hj Hk. rewrite (H i j k) by (auto; unfold neq; lia).
  destruct Hk as [->| ->]; reflexivity.
Qed.

Ltac shifted_reads H :=
  repeat first [ rewrite (shifted_pressure _ _ _ _ _ _ H) by index_lia
               | rewrite (shifted_velocity _ _ _ _ _ _ _ H) by index_lia ].

(** A node update of a sweep, run on both fields. *)
Ltac level_node c H H' i j :=
  let i' := fresh "i'" in let j' := fresh "j'" in let k' := fresh "k'" in
  let Hi' := fresh "Hi'" in let Hj' := fresh "Hj'" in let Hk' := fresh "Hk'" in
  intros i' j' k' Hi' Hj' Hk';
  destruct (Nat.eq_dec i' i) as [->|?];
    [destruct (Nat.eq_dec j' j) as [->|?]|];
    [ destruct k' as [|[|[|k']]]; try (exfalso; index_lia);
      cbv zeta; get_set c; shifted_reads H; shifted_reads H'; cbn [Nat.eqb];
      unfold Rdiv; ring
    | cbv zeta; get_set c; apply H; assumption
    | cbv zeta; get_set c; apply H; assumption ].

Section PressureLevel.

Variable c : Inputs.
Variable d : R.

Lemma SGS_forward_sweep_level (u1 u2 : Array3) (viscx viscy dt : Array2) (s : Array3) :
  level_rel c d u1 u2 ->
  level_rel c d (SGS_forward_sweep c u1 viscx viscy dt s)
                (SGS_forward_sweep c u2 viscx viscy dt s).
Proof.
  intros Hrel. unfold SGS_forward_sweep. rewrite !for_range_nested.
  apply (for_each_related (level_rel c d)); [|exact Hrel].
  intros [j i] t1 t2 Hin (Ht1 & Ht2 & H). apply in_nodes in Hin. cbn [fst snd] in *.
  split; [cbv zeta; shaped|]. split; [cbv zeta; shaped|].
  unfold pressure_shifted. level_node c H H i j.
Qed.

Lemma SGS_backward_sweep_level (u1 u2 : Array3) (viscx viscy dt : Array2) (s : Array3) :
  level_rel c d u1 u2 ->
  level_rel c d (SGS_backward_sweep c u1 viscx viscy dt s)
                (SGS_backward_sweep c u2 viscx viscy dt s).
Proof.
  intros Hrel. unfold SGS_backward_sweep, for_down. rewrite !for_each_nested.
  apply (for_each_related (level_rel c d)); [|exact Hrel].
  intros [j i] t1 t2 Hin (Ht1 & Ht2 & H). apply in_nodes_rev in Hin. cbn [fst snd] in *.
  split; [cbv zeta; shaped|]. split; [cbv zeta; shaped|].
  unfold pressure_shifted. level_node c H H i j.
Qed.

Lemma point_Jacobi_level (u1 u2 uold1 uold2 : Array3) (viscx viscy dt : Array2)
    (s : Array3) :
  level_rel c d u1 u2 -> pressure_shifted c d uold1 uold2 ->
  level_rel c d (point_Jacobi c u1 uold1 viscx viscy dt s)
                (point_Jacobi c u2 uold2 viscx viscy dt s).
Proof.
  intros Hrel Hold. unfold point_Jacobi. rewrite !for_range_nested.
  apply (for_each_related (level_rel c d)); [|exact Hrel].
  intros [i j] t1 t2 Hin (Ht1 & Ht2 & H). apply in_nodes in Hin. cbn [fst snd] in *.
  split; [cbv zeta; shaped|]. split; [cbv zeta; shaped|].
  unfold pressure_shifted. level_node c H Hold i j.
Qed.

Lemma Compute_Artificial_Viscosity_level (u1 u2 : Array3) (viscx viscy : Array2) :
  pressure_shifted c d u1 u2 ->
  Compute_Artificial_Viscosity c u2 viscx viscy
  = Compute_Artificial_Viscosity c u1 viscx viscy.
Proof.
  intros H. unfold Compute_Artificial_Viscosity. cbv zeta. do 2 f_equal.
  rewrite !for_range_nested. apply for_each_ext.
  intros [j i] [vx vy] Hin. apply in_nodes in Hin. cbn [fst snd] in *.
  shifted_reads H. f_equal; f_equal; unfold Rdiv; ring.
Qed.

Lemma pressure_rescaling_level (u1 u2 : Array3) (i j k : nat) :
  level_rel c d u1 u2 -> (i < imax c)%nat -> (j < jmax c)%nat -> (k < neq)%nat ->
  get3 (pressure_rescaling c u2) i j k = get3 (pressure_rescaling c u1) i j k.
Proof.
  intros (H1 & H2 & H) Hi Hj Hk.
  assert (Hci : ((imax c - 1) / 2 < imax c)%nat) by (apply Nat.Div0.div_lt_upper_bound; lia).
  assert (Hcj : ((jmax c - 1) / 2 < jmax c)%nat) by (apply Nat.Div0.div_lt_upper_bound; lia).
  destruct k as [|[|[|k]]]; try (exfalso; index_lia).
  - rewrite !pressure_rescaling_pressure by assumption. unfold rescaling_deltap.
    rewrite !(shifted_pressure c d u1 u2) by assumption. lra.
  - rewrite !pressure_rescaling_velocity by (auto; lia).
    apply (shifted_velocity c d u1 u2); auto.
  - rewrite !pressure_rescaling_velocity by (auto; lia).
    apply (shifted_velocity c d u1 u2); auto.
Qed.

Hypothesis Himax : (4 <= imax c)%nat.
Hypothesis Hjmax : (4 <= jmax c)%nat.

Lemma bndry_level (u1 u2 : Array3) :
  level_rel c d u1 u2 -> level_rel c d (bndry c u1) (bndry c u2).
Proof.
  intros (H1 & H2 & H).
  split; [apply bndry_top_bottom_walls_shaped, bndry_side_walls_shaped, H1|].
  split; [apply bndry_top_bottom_walls_shaped, bndry_side_walls_shaped, H2|].
  intros i j k Hi Hj Hk. unfold bndry.
  walls c Himax Hjmax; shifted_reads H; lra.
Qed.

Lemma bndrymms_level (u1 u2 : Array3) :
  level_rel c d u1 u2 -> level_rel c d (bndrymms c u1) (bndrymms c u2).
Proof.
  intros (H1 & H2 & H).
  split; [apply bndrymms_top_bottom_walls_shaped, bndrymms_side_walls_shaped, H1|].
  split; [apply bndrymms_top_bottom_walls_shaped, bndrymms_side_walls_shaped, H2|].
  intros i j k Hi Hj Hk. unfold bndrymms.
  walls c Himax Hjmax; shifted_reads H; lra.
Qed.

Lemma selected_boundary_level (bc : boundaryConditionPointer) (u1 u2 : Array3) :
  select_boundary_conditions c = Some bc ->
  level_rel c d u1 u2 -> level_rel c d (bc u1) (bc u2).
Proof.
  unfold select_boundary_conditions.
  destruct (imms c =? 0)%Z; [|destruct (imms c =? 1)%Z]; intros E; inversion E; subst.
  - apply bndry_level.
  - apply bndrymms_level.
Qed.

Lemma swapped_level (u1 u2 uold1 uold2 : Array3) :
  level_rel c d u1 u2 -> level_rel c d uold1 uold2 ->
  level_rel c d (mkArray3 (idim3 u1) (jdim3 u1) (kdim3 u1) (data3 uold1))
                (mkArray3 (idim3 u2) (jdim3 u2) (kdim3 u2) (data3 uold2)).
Proof.
  intros (H1 & H2 & H) (Ho1 & Ho2 & Ho).
  assert (S1 := proj2 (swapData3_shaped c uold1 u1 Ho1 H1)).
  assert (S2 := proj2 (swapData3_shaped c uold2 u2 Ho2 H2)).
  unfold swapData3 in S1, S2. cbn [snd] in S1, S2.
  split; [exact S1|]. split; [exact S2|].
  intros i j k Hi Hj Hk.
  rewrite (get3_same_buffer c _ uold2 i j k S2 Ho2 eq_refl).
  rewrite (get3_same_buffer c _ uold1 i j k S1 Ho1 eq_refl).
  apply Ho; assumption.
Qed.

(** X20: an iteration does not see the pressure level.  Take the step and
    the boundary routine [main] selects, and run the step on a pair [u],
    [uold] and on the same pair with every pressure raised by [d].  The
    two runs compute the same damping arrays; the second leaves the field
    of the first with every pressure raised by [d]; and after pressure
    rescaling the two fields agree in every cell. *)
Theorem iteration_ignores_pressure_level (step : iterationStepPointer)
    (bc : boundaryConditionPointer) (u1 u2 uold1 uold2 src0 : Array3)
    (viscx0 viscy0 dt0 : Array2) :
  select_iterationStep c = Some step -> select_boundary_conditions c = Some bc ->
  level_rel c d u1 u2 -> level_rel c d uold1 uold2 ->
  let r1 := step bc u1 uold1 src0 viscx0 viscy0 dt0 in
  let r2 := step bc u2 uold2 src0 viscx0 viscy0 dt0 in
  snd (fst r2) = snd (fst r1) /\ snd r2 = snd r1 /\
  pressure_shifted c d (fst (fst (fst r1))) (fst (fst (fst r2))) /\
  forall i j k, (i < imax c)%nat -> (j < jmax c)%nat -> (k < neq)%nat ->
    get3 (pressure_rescaling c (fst (fst (fst r2)))) i j k
    = get3 (pressure_rescaling c (fst (fst (fst r1)))) i j k.
Proof.
  intros Hstep Hbc Hu Hold r1 r2.
  assert (Hlevel : snd (fst r2) = snd (fst r1) /\ snd r2 = snd r1 /\
                   level_rel c d (fst (fst (fst r1))) (fst (fst (fst r2)))).
  { subst r1 r2. unfold select_iterationStep in Hstep.
    destruct (isgs c =? 1)%Z; [|destruct (isgs c =? 0)%Z]; inversion Hstep; subst.
    - unfold GS_iteration.
      rewrite (Compute_Artificial_Viscosity_level u1 u2) by apply Hu.
      destruct (Compute_Artificial_Viscosity c u1 viscx0 viscy0) as [vx vy].
      assert (Hf := selected_boundary_level bc _ _ Hbc
                      (SGS_forward_sweep_level u1 u2 vx vy dt0 src0 Hu)).
      rewrite (Compute_Artificial_Viscosity_level _ _ vx vy (proj2 (proj2 Hf))).
      destruct (Compute_Artificial_Viscosity c _ vx vy) as [vx' vy']. cbn [fst snd].
      split; [reflexivity|]. split; [reflexivity|].
      apply (selected_boundary_level bc _ _ Hbc), SGS_backward_sweep_level, Hf.
    - rewrite !PJ_iteration_buffers. cbv zeta. cbn [fst snd].
      assert (Hw := swapped_level u1 u2 uold1 uold2 Hu Hold).
      assert (Hr := swapped_level uold1 uold2 u1 u2 Hold Hu).
      rewrite (Compute_Artificial_Viscosity_level _ _ viscx0 viscy0 (proj2 (proj2 Hr))).
      split; [reflexivity|]. split; [reflexivity|].
      apply (selected_boundary_level bc _ _ Hbc), point_Jacobi_level;
        [exact Hw | exact (proj2 (proj2 Hr))]. }
  destruct Hlevel as (E1 & E2 & Hl).
  split; [exact E1|]. split; [exact E2|]. split; [exact (proj2 (proj2 Hl))|].
  intros i j k Hi Hj Hk. apply pressure_rescaling_level; assumption.
Qed.

End PressureLevel.

Lemma raised_level (c : Inputs) (d : R) (f : Array3) :
  shaped3 c f -> level_rel c d f (raised c d f).
Proof.
  intros Hf. split; [exact Hf|]. split; [apply shaped3_tabulate3|].
  intros i j k Hi Hj Hk. unfold raised. rewrite get3_tabulate3 by assumption. reflexivity.
Qed.

Lemma iteration_ignores_pressure_level_witness :
  (4 <= imax source_inputs)%nat /\
  level_rel source_inputs 3 (one_fast_node source_inputs)
    (raised source_inputs 3 (one_fast_node source_inputs)) /\
  get3 (pressure_rescaling source_inputs
          (fst (fst (fst (GS_iteration source_inputs (bndry source_inputs)
                            (raised source_inputs 3 (one_fast_node source_inputs))
                            (raised source_inputs 3 (uniform_field source_inputs))
                            (zero_field source_inputs) (constant2 source_inputs 0)
                            (constant2 source_inputs 0) (constant2 source_inputs 1)))))) 7 8 0
  = get3 (pressure_rescaling source_inputs
            (fst (fst (fst (GS_iteration source_inputs (bndry source_inputs)
                              (one_fast_node source_inputs) (uniform_field source_inputs)
                              (zero_field source_inputs) (constant2 source_inputs 0)
                              (constant2 source_inputs 0) (constant2 source_inputs 1)))))) 7 8 0.
Proof.
  assert (H1 := raised_level source_inputs 3 (one_fast_node source_inputs)
                  (shaped3_tabulate3 source_inputs _)).
  assert (H2 := raised_level source_inputs 3 (uniform_field source_inputs)
                  (shaped3_tabulate3 source_inputs _)).
  split; [exact (proj1 source_grid)|]. split; [exact H1|].
  exact (proj2 (proj2 (proj2
           (iteration_ignores_pressure_level source_inputs 3
              (proj1 source_grid) (proj2 source_grid)
              (GS_iteration source_inputs) (bndry source_inputs)
              (one_fast_node source_inputs) (raised source_inputs 3 (one_fast_node source_inputs))
              (uniform_field source_inputs) (raised source_inputs 3 (uniform_field source_inputs))
              (zero_field source_inputs) (constant2 source_inputs 0)
              (constant2 source_inputs 0) (constant2 source_inputs 1)
              eq_refl eq_refl H1 H2)))
           7%nat 8%nat 0%nat ltac:(cbn [imax source_inputs]; lia)
           ltac:(cbn [jmax source_inputs]; lia) ltac:(unfold neq; lia)).
Defined.

(** ** What the main loop keeps *)



Section LoopInvariant.

Variable c : Inputs.
Variable iterationStep : iterationStepPointer.
Variable set_boundary_conditions : boundaryConditionPointer.
Hypothesis Hc : physical c.
Hypothesis Himax : (3 <= imax c)%nat.
Hypothesis Hjmax : (3 <= jmax c)%nat.
Hypothesis Hstep : select_iterationStep c = Some iterationStep.
Hypothesis Hbc : select_boundary_conditions c = Some set_boundary_conditions.



End LoopInvariant.


(** ** Derived inputs and node coordinates *)

(** X22: the quantities [set_derived_inputs] computes fit the inputs and
    the coordinates the routines give to the nodes.  The viscosity gives
    back the Reynolds number, [rho uinf L / mu = Re], and [rhoinv] is the
    inverse of the density.  Neighbouring nodes are [dx] apart in x and
    [dy] apart in y; node 0 has coordinate 0 and the last node the width
    (height) of the cavity, so that coordinates are measured from [xmin]
    and [ymin], not from the origin of the inputs. *)
Theorem derived_inputs_fit (c : Inputs) (i j : nat) :
  physical c ->
  rho c * uinf c * rlength c / rmu c = Re c /\ rho c * rhoinv c = 1 /\
  xnode c (S i) - xnode c i = dx c /\ ynode c (S j) - ynode c j = dy c /\
  xnode c 0 = 0 /\ ynode c 0 = 0 /\
  xnode c (imax c - 1) = xmax c - xmin c /\ ynode c (jmax c - 1) = ymax c - ymin c.
Proof.
  intros (_ & Hrho & Hu & HRe & _ & Hx & Hy & Hi & Hj).
  assert (Hni : 0 < INR (imax c - 1)) by (apply lt_0_INR; lia).
  assert (Hnj : 0 < INR (jmax c - 1)) by (apply lt_0_INR; lia).
  unfold rmu, rhoinv, rlength, xnode, ynode, dx, dy. rewrite !S_INR.
  change (INR 0) with 0.
  repeat split; field; repeat split; lra.
Qed.

Lemma derived_inputs_fit_witness :
  physical source_inputs /\
  rho source_inputs * uinf source_inputs * rlength source_inputs / rmu source_inputs
  = Re source_inputs.
Proof.
  split; [exact source_inputs_physical|].
  exact (proj1 (derived_inputs_fit source_inputs 0 0 source_inputs_physical)).
Defined.

(** ** Flags *)


(** ** The start of a verification run *)

Section StartMMS.

Variable c : Inputs.
Hypothesis Himax : (4 <= imax c)%nat.
Hypothesis Hjmax : (4 <= jmax c)%nat.

(** X24: the state a verification run from scratch enters its loop with
    ([imms = 1], [irstr = 0], [isgs] 0 or 1), whatever the arrays held.
    The pressure is [pinf] at every node, walls included: the manufactured
    pressure is not imposed anywhere.  The interior is at rest; on the
    walls both velocities are those of the manufactured solution, the lid
    speed [initial] had stored being replaced.  The source array holds the
    three manufactured source terms at the interior nodes and zero on the
    walls. *)
Theorem verification_run_start (u0 uold0 src0 : Array3) (viscx0 viscy0 dt0 : Array2)
    (res0 : list R) (conv0 : R) :
  imms c = 1%Z -> irstr c = 0%Z -> (isgs c = 0 \/ isgs c = 1)%Z ->
  shaped3 c u0 -> shaped3 c src0 ->
  exists step s0,
    main_setup c u0 uold0 src0 viscx0 viscy0 dt0 res0 conv0
    = Some (step, bndrymms c, 1%Z, s0) /\
    (forall i j, (i < imax c)%nat -> (j < jmax c)%nat ->
       get3 (u s0) i j 0 = pinf c /\
       (forall k, (k = 1 \/ k = 2)%nat ->
          get3 (u s0) i j k
          = if (j =? 0)%nat then umms c (xnode c i) (ymin c) k
            else if (j =? jmax c - 1)%nat then umms c (xnode c i) (ymax c) k
            else if (i =? 0)%nat then umms c (xmin c) (ynode c j) k
            else if (i =? imax c - 1)%nat then umms c (xmax c) (ynode c j) k
            else 0) /\
       (forall k, (k < neq)%nat ->
          get3 (src s0) i j k
          = if ((1 <=? i) && (i <=? imax c - 2) && (1 <=? j) && (j <=? jmax c - 2))%nat
            then srcmms c k (xnode c i) (ynode c j) else 0)).
Proof.
  intros Emms Erstr Esgs Hu Hsrc.
  destruct (initial_cells c u0 src0 Erstr Hu Hsrc) as (u' & s' & E & Hu' & Hs' & Hval).
  assert (Hstep : exists step, select_iterationStep c = Some step).
  { unfold select_iterationStep. destruct Esgs as [->| ->]; cbn [Z.eqb]; eauto. }
  destruct Hstep as [step Hstep].
  exists step. eexists. split.
  - unfold main_setup, select_boundary_conditions. rewrite Hstep, Emms, E.
    cbn [Z.eqb]. cbv zeta. reflexivity.
  - cbn [u src]. intros i j Hi Hj.
    assert (Hin : forall a b k, (a < imax c)%nat -> (b < jmax c)%nat -> (k < neq)%nat ->
              get3 u' a b k = initial_field c a b k)
      by (intros a b k Ha Hb Hk; apply Hval; assumption).
    split; [|split].
    + unfold bndrymms. walls c Himax Hjmax;
        rewrite ?Hin by index_lia; unfold initial_field; cbn [Nat.eqb]; lra.
    + intros k [->| ->]; unfold bndrymms, xnode, ynode;
        walls c Himax Hjmax;
        rewrite ?Hin by index_lia; unfold initial_field; cbn [Nat.eqb andb];
        try reflexivity;
        match goal with
        | |- context [Nat.eqb ?a ?b] => destruct (Nat.eqb_spec a b); [index_lia | reflexivity]
        end.
    + intros k Hk. rewrite compute_source_terms_cell by auto.
      match goal with |- context [if ?b then _ else _] => destruct b end.
      * rewrite Emms. apply Rmult_1_l.
      * apply Hval; assumption.
Qed.

End StartMMS.

Lemma mms_grid : (4 <= imax mms_inputs)%nat /\ (4 <= jmax mms_inputs)%nat.
Proof. cbn [imax jmax mms_inputs]. lia. Qed.

Lemma mms_shaped (f : nat -> nat -> nat -> R) :
  shaped3 mms_inputs (tabulate3 251 251 neq f).
Proof. exact (shaped3_tabulate3 mms_inputs f). Qed.

Lemma verification_run_start_witness :
  (4 <= imax mms_inputs)%nat /\ imms mms_inputs = 1%Z /\
  exists step s0,
    main_setup mms_inputs (tabulate3 251 251 neq (fun _ _ _ => 7))
      (tabulate3 251 251 neq (fun _ _ _ => 7)) (tabulate3 251 251 neq (fun _ _ _ => 7))
      (tabulate2 251 251 (fun _ _ => 7)) (tabulate2 251 251 (fun _ _ => 7))
      (tabulate2 251 251 (fun _ _ => 7)) [0; 0; 0] 0
    = Some (step, bndrymms mms_inputs, 1%Z, s0).
Proof.
  split; [exact (proj1 mms_grid)|]. split; [reflexivity|].
  destruct (verification_run_start mms_inputs (proj1 mms_grid) (proj2 mms_grid)
              (tabulate3 251 251 neq (fun _ _ _ => 7))
              (tabulate3 251 251 neq (fun _ _ _ => 7)) (tabulate3 251 251 neq (fun _ _ _ => 7))
              (tabulate2 251 251 (fun _ _ => 7)) (tabulate2 251 251 (fun _ _ => 7))
              (tabulate2 251 251 (fun _ _ => 7)) [0; 0; 0] 0
              eq_refl eq_refl (or_intror eq_refl) (mms_shaped _) (mms_shaped _))
    as (step & s0 & E & _).
  exists step, s0. exact E.
Defined.

(** ** The x-damping next to the walls *)

Lemma for_each_skip {S X : Type} (xs : list X) (f : X -> S -> S) (s : S) :
  (forall x t, In x xs -> f x t = t) -> for_each xs f s = s.
Proof.
  intros Hf. apply (for_each_invariant (fun t => t = s)); [|reflexivity].
  intros x t Hx ->. apply Hf, Hx.
Qed.

Lemma for_each_fst {A B X : Type} (xs : list X) (f : X -> A * B -> A * B)
    (g : X -> A -> A) (a : A) (b : B) :
  (forall x a, In x xs -> f x (a, b) = (g x a, b)) ->
  for_each xs f (a, b) = (for_each xs g a, b).
Proof.
  revert a. induction xs as [|x xs IH]; intros a Hf; [reflexivity|].
  rewrite !for_each_cons, Hf by (left; reflexivity).
  apply IH. intros y a' Hy. apply Hf. right. exact Hy.
Qed.

Lemma for_range_skip_pair (lo hi : nat) (s : Array2 * Array2) :
  for_range lo hi (fun (_ : nat) '(viscx, viscy) => (viscx, viscy)) s = s.
Proof. unfold for_range. apply for_each_skip. intros x [a b] _. reflexivity. Qed.

(** A loop over an [Array2] in which every iteration assigns one cell of
    its own. *)
Lemma cell_loop (c : Inputs) {X : Type} (xs : list X) (body : X -> Array2 -> Array2)
    (cellof : X -> nat * nat) (val : X -> R) (a : Array2) :
  NoDup xs ->
  (forall x y, In x xs -> In y xs -> cellof x = cellof y -> x = y) ->
  (forall x, In x xs -> (fst (cellof x) < imax c)%nat /\ (snd (cellof x) < jmax c)%nat) ->
  (forall x s, In x xs -> shaped2 c s -> shaped2 c (body x s)) ->
  (forall x s i j, In x xs -> shaped2 c s -> (i < imax c)%nat -> (j < jmax c)%nat ->
     (i, j) <> cellof x -> get2 (body x s) i j = get2 s i j) ->
  (forall x s, In x xs -> shaped2 c s ->
     (forall i j, (i < imax c)%nat -> (j < jmax c)%nat ->
        (forall y, In y xs -> cellof y <> (i, j)) -> get2 s i j = get2 a i j) ->
     get2 (body x s) (fst (cellof x)) (snd (cellof x)) = val x) ->
  shaped2 c a ->
  shaped2 c (for_each xs body a) /\
  (forall x, In x xs ->
     get2 (for_each xs body a) (fst (cellof x)) (snd (cellof x)) = val x) /\
  (forall i j, (i < imax c)%nat -> (j < jmax c)%nat ->
     (forall y, In y xs -> cellof y <> (i, j)) ->
     get2 (for_each xs body a) i j = get2 a i j).
Proof.
  intros Hnd Hinj Hin Hok Hfr Hval Ha.
  assert (Hframe : forall x s k, In x xs -> shaped2 c s ->
            (fst k < imax c)%nat /\ (snd k < jmax c)%nat -> ~ k = cellof x ->
            get2 (body x s) (fst k) (snd k) = get2 s (fst k) (snd k)).
  { intros x s [i j] Hx Hs (Hi & Hj) Hne. cbn [fst snd] in *. apply Hfr; assumption. }
  split; [|split].
  - apply for_each_invariant; [|exact Ha]. intros x s Hx. apply Hok, Hx.
  - intros x Hx.
    apply (for_each_value (fun (s : Array2) (k : nat * nat) => get2 s (fst k) (snd k))
             (shaped2 c) (fun k => (fst k < imax c)%nat /\ (snd k < jmax c)%nat) _
             (fun x k => k = cellof x) _ Hok Hframe) with (x := x) (k := cellof x).
    + exact Hnd.
    + exact Hx.
    + exact Ha.
    + apply Hin, Hx.
    + intros y Hy Hne E. apply Hne. symmetry. apply Hinj; auto.
    + intros s Hs Hagree. apply Hval; auto.
      intros i j Hi Hj Hnone. apply (Hagree (i, j)); [cbn [fst snd]; auto|].
      intros y Hy _ E. apply (Hnone y Hy). symmetry. exact E.
  - intros i j Hi Hj Hnone.
    apply (for_each_frame (fun (s : Array2) (k : nat * nat) => get2 s (fst k) (snd k))
             (shaped2 c) (fun k => (fst k < imax c)%nat /\ (snd k < jmax c)%nat) _
             (fun x k => k = cellof x) _ Hok Hframe) with (k := (i, j)); auto.
    intros y Hy E. apply (Hnone y Hy). symmetry. exact E.
Qed.

Ltac get_set2 c :=
  repeat first [ rewrite (get2_set2_same c) by (first [ repeat apply shaped2_set2; assumption | lia ])
               | rewrite (get2_set2_other c) by (first [ repeat apply shaped2_set2; assumption | lia ]) ].

Section ViscosityX.

Variable c : Inputs.
Hypothesis Himax : (6 <= imax c)%nat.
Hypothesis Hjmax : (6 <= jmax c)%nat.
Hypothesis Hdx : dx c <> 0.
Hypothesis Hdy : dy c <> 0.

(** The stencil loop, one array at a time. *)
Lemma stencil_cells (val : nat -> nat -> R) (a : Array2) :
  shaped2 c a ->
  let r := for_each (list_prod (seq 2 (jmax c - 2 - 2)) (seq 2 (imax c - 2 - 2)))
             (fun p v => set2 v (snd p) (fst p) (val (snd p) (fst p))) a in
  shaped2 c r /\
  forall i j, (i < imax c)%nat -> (j < jmax c)%nat ->
    get2 r i j
    = if ((2 <=? i) && (i <=? imax c - 3) && (2 <=? j) && (j <=? jmax c - 3))%nat
      then val i j else get2 a i j.
Proof.
  intros Ha r. subst r.
  destruct (cell_loop c (list_prod (seq 2 (jmax c - 2 - 2)) (seq 2 (imax c - 2 - 2)))
              (fun p v => set2 v (snd p) (fst p) (val (snd p) (fst p)))
              (fun p => (snd p, fst p)) (fun p => val (snd p) (fst p)) a)
    as (Hsh & Hv & Hf); auto.
  - apply NoDup_nodes.
  - intros [b a'] [b' a''] _ _ E. cbn [fst snd] in E. inversion E. reflexivity.
  - intros [b a'] Hin. apply in_nodes in Hin. cbn [fst snd] in *. lia.
  - intros p s _ Hs. apply shaped2_set2, Hs.
  - intros [b a'] s i j Hin Hs Hi Hj Hne. apply in_nodes in Hin. cbn [fst snd] in *.
    apply (get2_set2_other c); auto; try lia.
    apply node_neq_iff. intros E. apply Hne. symmetry. exact E.
  - intros [b a'] s Hin Hs _. apply in_nodes in Hin. cbn [fst snd] in *.
    apply (get2_set2_same c); auto; lia.
  - split; [exact Hsh|]. intros i j Hi Hj.
    destruct (Nat.leb_spec 2 i) as [Hi2|Hi2];
      [destruct (Nat.leb_spec i (imax c - 3)) as [Hi3|Hi3];
       [destruct (Nat.leb_spec 2 j) as [Hj2|Hj2];
        [destruct (Nat.leb_spec j (jmax c - 3)) as [Hj3|Hj3]|]|]|];
      cbn [andb].
    1: { apply (Hv (j, i)). apply in_nodes. cbn [fst snd]. lia. }
    all: apply Hf; auto; intros [b a'] Hin E; apply in_nodes in Hin;
      cbn [fst snd] in *; inversion E; lia.
Qed.

Lemma Compute_Artificial_Viscosity_viscx (u : Array3) (viscx viscy : Array2) (i j : nat) :
  shaped2 c viscx -> shaped2 c viscy -> (i < imax c)%nat -> (j < jmax c)%nat ->
  let vx0 := fun a b =>
    if ((2 <=? a) && (a <=? imax c - 3) && (2 <=? b) && (b <=? jmax c - 3))%nat
    then stencil_viscx c u a b else get2 viscx a b in
  let vy0 := fun a b =>
    if ((2 <=? a) && (a <=? imax c - 3) && (2 <=? b) && (b <=? jmax c - 3))%nat
    then stencil_viscy c u a b else get2 viscy a b in
  get2 (fst (Compute_Artificial_Viscosity c u viscx viscy)) i j
  = if ((j =? 1) && (1 <=? i) && (i <=? imax c - 2))%nat then vy0 i 3%nat
    else if ((i =? 1) && (1 <=? j) && (j <=? jmax c - 2))%nat then vx0 3%nat j
    else vx0 i j.
Proof.
  intros Hvx Hvy Hi Hj vx0 vy0. unfold Compute_Artificial_Viscosity. cbv zeta.
  cbn [for_each fold_left].
  assert (E1 : (imax c - 2 =? 1)%nat = false) by (apply Nat.eqb_neq; lia).
  assert (E2 : (imax c - 2 =? imax c - 1)%nat = false) by (apply Nat.eqb_neq; lia).
  assert (E3 : (1 =? imax c - 1)%nat = false) by (apply Nat.eqb_neq; lia).
  assert (E4 : (jmax c - 2 =? 1)%nat = false) by (apply Nat.eqb_neq; lia).
  assert (E5 : (jmax c - 2 =? jmax c - 1)%nat = false) by (apply Nat.eqb_neq; lia).
  assert (E6 : (1 =? jmax c - 1)%nat = false) by (apply Nat.eqb_neq; lia).
  rewrite E1, E2, E3, E4, E5, E6. cbn [Nat.eqb Nat.add].
  rewrite !for_range_skip_pair. clear E1 E2 E3 E4 E5 E6.
  (* the stencil loop *)
  rewrite for_range_nested.
  rewrite for_each_pair with
    (g := fun p v => set2 v (snd p) (fst p) (stencil_viscx c u (snd p) (fst p)))
    (h := fun p v => set2 v (snd p) (fst p) (stencil_viscy c u (snd p) (fst p)))
    by (intros p a b _; reflexivity).
  destruct (stencil_cells (stencil_viscx c u) viscx Hvx) as [Hsx Hx0].
  destruct (stencil_cells (stencil_viscy c u) viscy Hvy) as [Hsy Hy0].
  cbv zeta in Hsx, Hx0, Hsy, Hy0.
  set (X0 := for_each _ _ viscx) in *. set (Y0 := for_each _ _ viscy) in *.
  (* the column next to the left wall *)
  unfold for_range at 2.
  rewrite for_each_fst with
    (g := fun j0 v =>
            set2 (set2 v 1 j0 (get2 v 2 j0 + (get2 v 3 j0 - get2 v 2 j0) / dx c * dx c))
                 1 j0
                 (get2 (set2 v 1 j0 (get2 v 2 j0 + (get2 v 3 j0 - get2 v 2 j0) / dx c * dx c))
                       2 j0
                  + (get2 (set2 v 1 j0 (get2 v 2 j0 + (get2 v 3 j0 - get2 v 2 j0) / dx c * dx c))
                          3 j0
                     - get2 (set2 v 1 j0
                               (get2 v 2 j0 + (get2 v 3 j0 - get2 v 2 j0) / dx c * dx c))
                            2 j0) / dx c * dx c))
    by (intros j0 a _; reflexivity).
  match goal with
  | |- context [for_each ?xs ?f X0] =>
      destruct (cell_loop c xs f (fun j0 => (1%nat, j0)) (fun j0 => get2 X0 3 j0) X0)
        as (Hs1 & Hv1 & Hf1); auto;
      [ apply NoDup_seq
      | intros x y _ _ E; inversion E; reflexivity
      | intros x Hin; apply in_seq in Hin; cbn [fst snd]; lia
      | intros x s _ Hs; repeat apply shaped2_set2; exact Hs
      | intros x s a b Hin Hs Ha Hb Hne; apply in_seq in Hin;
        assert (1%nat <> a \/ x <> b)
          by (apply node_neq_iff; intros E; apply Hne; symmetry; exact E);
        get_set2 c; reflexivity
      | intros x s Hin Hs Hagree; apply in_seq in Hin; cbn [fst snd]; get_set2 c;
        rewrite !Hagree by (try lia; intros y _ E; inversion E; lia);
        field; exact Hdx
      | set (X1 := for_each xs f X0) in * ]
  end.
  cbn [fst snd] in Hv1.
  (* the row next to the bottom wall *)
  unfold for_range.
  rewrite for_each_fst with
    (g := fun i0 v =>
            set2 (set2 v i0 1 (get2 v i0 2 + (get2 v i0 3 - get2 v i0 2) / dy c * dy c))
                 i0 1 (get2 Y0 i0 2 + (get2 Y0 i0 3 - get2 Y0 i0 2) / dy c * dy c))
    by (intros i0 a _; reflexivity).
  cbn [fst].
  match goal with
  | |- context [for_each ?xs ?f X1] =>
      destruct (cell_loop c xs f (fun i0 => (i0, 1%nat)) (fun i0 => get2 Y0 i0 3) X1)
        as (Hs2 & Hv2 & Hf2); auto;
      [ apply NoDup_seq
      | intros x y _ _ E; inversion E; reflexivity
      | intros x Hin; apply in_seq in Hin; cbn [fst snd]; lia
      | intros x s _ Hs; repeat apply shaped2_set2; exact Hs
      | intros x s a b Hin Hs Ha Hb Hne; apply in_seq in Hin;
        assert (x <> a \/ 1%nat <> b)
          by (apply node_neq_iff; intros E; apply Hne; symmetry; exact E);
        get_set2 c; reflexivity
      | intros x s Hin Hs Hagree; apply in_seq in Hin; cbn [fst snd]; get_set2 c;
        field; exact Hdy
      | set (X2 := for_each xs f X1) in * ]
  end.
  cbn [fst snd] in Hv2.
  (* the cases *)
  destruct (Nat.eqb_spec j 1) as [->|Hj1];
    [destruct (Nat.leb_spec 1 i) as [Hi1|Hi1];
     [destruct (Nat.leb_spec i (imax c - 2)) as [Hi2|Hi2]|]|]; cbn [andb].
  - rewrite (Hv2 i) by (apply in_seq; lia). apply Hy0; lia.
  - rewrite Hf2 by (auto; intros y Hy E; apply in_seq in Hy; inversion E; lia).
    destruct (Nat.eqb_spec i 1) as [->|Hne]; [lia|]. cbn [andb].
    rewrite Hf1 by (auto; intros y Hy E; apply in_seq in Hy; inversion E; lia).
    apply Hx0; assumption.
  - rewrite Hf2 by (auto; intros y Hy E; apply in_seq in Hy; inversion E; lia).
    destruct (Nat.eqb_spec i 1) as [->|Hne]; [lia|]. cbn [andb].
    rewrite Hf1 by (auto; intros y Hy E; apply in_seq in Hy; inversion E; lia).
    apply Hx0; assumption.
  - rewrite Hf2 by (auto; intros y Hy E; apply in_seq in Hy; inversion E; lia).
    destruct (Nat.eqb_spec i 1) as [->|Hne];
      [destruct (Nat.leb_spec 1 j) as [Hj2|Hj2];
       [destruct (Nat.leb_spec j (jmax c - 2)) as [Hj3|Hj3]|]|]; cbn [andb].
    + rewrite (Hv1 j) by (apply in_seq; lia). apply Hx0; lia.
    + rewrite Hf1 by (auto; intros y Hy E; apply in_seq in Hy; inversion E; lia).
      apply Hx0; assumption.
    + rewrite Hf1 by (auto; intros y Hy E; apply in_seq in Hy; inversion E; lia).
      apply Hx0; assumption.
    + rewrite Hf1 by (auto; intros y Hy E; apply in_seq in Hy; inversion E; lia).
      apply Hx0; assumption.
Qed.

(** X25: what [Compute_Artificial_Viscosity] leaves in [viscx], on a grid
    of at least 6 x 6 nodes with non-zero spacings.  At the nodes two or
    more cells from every wall it is the stencil value.  Next to the left
    wall the node [(1,j)] receives the x-damping of the node [(3,j)], two
    cells further in: the value [v(2) + slope * dx] with
    [slope = (v(3) - v(2)) / dx] is [v(3)].  Next to the bottom wall the
    node [(i,1)] receives the y-damping of the node [(i,3)], which replaces
    the value taken from [viscx].  Next to the right wall and next to the
    top wall, and on the walls, [viscx] is left as it was. *)
Theorem viscx_next_to_walls (u : Array3) (viscx viscy : Array2) :
  shaped2 c viscx -> shaped2 c viscy ->
  let viscx' := fst (Compute_Artificial_Viscosity c u viscx viscy) in
  (forall i j, stencil_node c i j -> get2 viscx' i j = stencil_viscx c u i j) /\
  (forall j, (2 <= j <= jmax c - 3)%nat -> get2 viscx' 1 j = stencil_viscx c u 3 j) /\
  (forall i, (2 <= i <= imax c - 3)%nat -> get2 viscx' i 1 = stencil_viscy c u i 3) /\
  (forall j, (2 <= j <= jmax c - 2)%nat ->
     get2 viscx' (imax c - 2) j = get2 viscx (imax c - 2) j) /\
  (forall i, (2 <= i <= imax c - 2)%nat ->
     get2 viscx' i (jmax c - 2) = get2 viscx i (jmax c - 2)) /\
  (forall i j, wall_node c i j -> get2 viscx' i j = get2 viscx i j).
Proof.
  intros Hvx Hvy viscx'. subst viscx'.
  assert (Hcases : forall i j, (i < imax c)%nat -> (j < jmax c)%nat ->
            get2 (fst (Compute_Artificial_Viscosity c u viscx viscy)) i j
            = if ((j =? 1) && (1 <=? i) && (i <=? imax c - 2))%nat
              then (if ((2 <=? i) && (i <=? imax c - 3) && (2 <=? 3)
                        && (3 <=? jmax c - 3))%nat
                    then stencil_viscy c u i 3 else get2 viscy i 3)
              else if ((i =? 1) && (1 <=? j) && (j <=? jmax c - 2))%nat
              then (if ((2 <=? 3) && (3 <=? imax c - 3) && (2 <=? j)
                        && (j <=? jmax c - 3))%nat
                    then stencil_viscx c u 3 j else get2 viscx 3 j)
              else (if ((2 <=? i) && (i <=? imax c - 3) && (2 <=? j)
                        && (j <=? jmax c - 3))%nat
                    then stencil_viscx c u i j else get2 viscx i j)).
  { intros i j Hi Hj.
    exact (Compute_Artificial_Viscosity_viscx u viscx viscy i j Hvx Hvy Hi Hj). }
  unfold stencil_node, wall_node.
  split; [|split; [|split; [|split; [|split]]]].
  - intros i j (Hi & Hj). rewrite Hcases by lia.
    repeat (cbn [andb]; wall_index); reflexivity.
  - intros j Hj. rewrite Hcases by lia.
    repeat (cbn [andb]; wall_index); reflexivity.
  - intros i Hi. rewrite Hcases by lia.
    repeat (cbn [andb]; wall_index); reflexivity.
  - intros j Hj. rewrite Hcases by lia.
    repeat (cbn [andb]; wall_index); reflexivity.
  - intros i Hi. rewrite Hcases by lia.
    repeat (cbn [andb]; wall_index); reflexivity.
  - intros i j (Hi & Hj & Hw). rewrite Hcases by lia.
    repeat (cbn [andb]; wall_index); reflexivity.
Qed.

End ViscosityX.

Lemma viscx_next_to_walls_witness :
  (6 <= imax source_inputs)%nat /\ dx source_inputs <> 0 /\
  shaped2 source_inputs (constant2 source_inputs 7) /\
  get2 (fst (Compute_Artificial_Viscosity source_inputs (uniform_field source_inputs)
               (constant2 source_inputs 7) (constant2 source_inputs 7))) 1 5
  = stencil_viscx source_inputs (uniform_field source_inputs) 3 5.
Proof.
  assert (H6 : (6 <= imax source_inputs)%nat) by (cbn [imax source_inputs]; lia).
  assert (H6' : (6 <= jmax source_inputs)%nat) by (cbn [jmax source_inputs]; lia).
  destruct (physical_spacing source_inputs source_inputs_physical) as [Hx Hy].
  assert (Hdx : dx source_inputs <> 0) by lra.
  assert (Hdy : dy source_inputs <> 0) by lra.
  split; [exact H6|]. split; [exact Hdx|]. split; [apply shaped2_tabulate2|].
  exact (proj1 (proj2 (viscx_next_to_walls source_inputs H6 H6' Hdx Hdy
                         (uniform_field source_inputs) (constant2 source_inputs 7)
                         (constant2 source_inputs 7) (shaped2_tabulate2 source_inputs _)
                         (shaped2_tabulate2 source_inputs _)))
               5%nat ltac:(cbn [jmax source_inputs]; lia)).
Defined.

(** ** The order of the Gauss-Seidel sweeps *)

Lemma list_prod_app_l {X Y : Type} (l l' : list X) (ys : list Y) :
  list_prod (l ++ l') ys = list_prod l ys ++ list_prod l' ys.
Proof.
  induction l as [|x l IH]; [reflexivity|].
  cbn [app list_prod]. rewrite IH, app_assoc. reflexivity.
Qed.

Lemma list_prod_rev {X Y : Type} (xs : list X) (ys : list Y) :
  list_prod (rev xs) (rev ys) = rev (list_prod xs ys).
Proof.
  induction xs as [|x xs IH]; [reflexivity|].
  cbn [rev list_prod]. rewrite list_prod_app_l, IH, rev_app_distr.
  cbn [list_prod]. rewrite app_nil_r, map_rev. reflexivity.
Qed.

Lemma seq_split (lo n i : nat) :
  (lo <= i < lo + n)%nat -> seq lo n = seq lo (i - lo) ++ i :: seq (S i) (lo + n - S i).
Proof.
  intros Hi. replace n with ((i - lo) + S (lo + n - S i))%nat at 1 by lia.
  rewrite seq_app. cbn [seq]. replace (lo + (i - lo))%nat with i by lia. reflexivity.
Qed.

(** The nodes of a sweep, split at one of them. *)
Lemma nodes_split (n m j i : nat) :
  (1 <= j <= n)%nat -> (1 <= i <= m)%nat ->
  exists l1 l2,
    list_prod (seq 1 n) (seq 1 m) = l1 ++ (j, i) :: l2 /\
    (forall p, In p l1 -> swept_before (snd p) (fst p) i j = true) /\
    (forall p, In p l2 -> swept_before i j (snd p) (fst p) = true).
Proof.
  intros Hj Hi.
  exists (list_prod (seq 1 (j - 1)) (seq 1 m) ++ map (pair j) (seq 1 (i - 1))),
         (map (pair j) (seq (S i) (1 + m - S i))
          ++ list_prod (seq (S j) (1 + n - S j)) (seq 1 m)).
  split; [|split].
  - rewrite (seq_split 1 n j) at 1 by lia. rewrite list_prod_app_l. cbn [list_prod].
    rewrite (seq_split 1 m i) at 2 by lia. rewrite map_app. cbn [map].
    rewrite <- !app_assoc. reflexivity.
  - intros [b a] Hin. unfold swept_before. cbn [fst snd].
    apply in_app_or in Hin. destruct Hin as [Hin|Hin].
    + apply in_nodes in Hin. cbn [fst snd] in Hin.
      destruct (Nat.ltb_spec b j); [reflexivity | lia].
    + apply in_map_iff in Hin as (y & E & Hy). apply in_seq in Hy. inversion E; subst.
      rewrite Nat.eqb_refl. destruct (Nat.ltb_spec a i); [|lia].
      apply orb_true_r.
  - intros [b a] Hin. unfold swept_before. cbn [fst snd].
    apply in_app_or in Hin. destruct Hin as [Hin|Hin].
    + apply in_map_iff in Hin as (y & E & Hy). apply in_seq in Hy. inversion E; subst.
      rewrite Nat.eqb_refl. destruct (Nat.ltb_spec i a); [|lia].
      apply orb_true_r.
    + apply in_nodes in Hin. cbn [fst snd] in Hin.
      destruct (Nat.ltb_spec j b); [reflexivity | lia].
Qed.

Lemma swept_before_asym (a b i j : nat) :
  swept_before a b i j = true -> swept_before i j a b = false.
Proof.
  unfold swept_before.
  destruct (Nat.ltb_spec b j), (Nat.ltb_spec j b), (Nat.eqb_spec b j), (Nat.eqb_spec j b),
           (Nat.ltb_spec a i), (Nat.ltb_spec i a); cbn; try reflexivity; try discriminate; lia.
Qed.

Lemma swept_before_irrefl (i j : nat) : swept_before i j i j = false.
Proof.
  unfold swept_before. rewrite !Nat.ltb_irrefl, Nat.eqb_refl. reflexivity.
Qed.

Section SweepOrder.

Variable c : Inputs.

(** A loop over the nodes of a field, each iteration assigning the cells
    of its own node: the state an iteration starts from holds the final
    values at the nodes visited before it and the first values at every
    other node. *)
Lemma node_loop_at (body : nat * nat -> Array3 -> Array3) (node : nat * nat -> nat * nat)
    (l1 l2 : list (nat * nat)) (x : nat * nat) (u : Array3) :
  NoDup (l1 ++ x :: l2) ->
  (forall y z, In y (l1 ++ x :: l2) -> In z (l1 ++ x :: l2) -> node y = node z -> y = z) ->
  (forall y t, In y (l1 ++ x :: l2) -> shaped3 c t -> shaped3 c (body y t)) ->
  (forall y t k, In y (l1 ++ x :: l2) -> shaped3 c t -> valid_cell c k ->
     ~ node_cell (node y) k -> get_cell (body y t) k = get_cell t k) ->
  shaped3 c u ->
  let before := for_each l1 body u in
  let final := for_each (l1 ++ x :: l2) body u in
  shaped3 c before /\
  (forall k, valid_cell c k -> node_cell (node x) k ->
     get_cell final k = get_cell (body x before) k) /\
  (forall k y, valid_cell c k -> In y l1 -> node_cell (node y) k ->
     get_cell before k = get_cell final k) /\
  (forall k, valid_cell c k -> (forall y, In y l1 -> ~ node_cell (node y) k) ->
     get_cell before k = get_cell u k).
Proof.
  intros Hnd Hinj Hok Hframe Hu before final. subst before final.
  assert (Hnd' := Hnd). apply NoDup_ListNoDup in Hnd'.
  assert (Hx : In x (l1 ++ x :: l2)) by (apply in_or_app; right; left; reflexivity).
  assert (H1 : incl l1 (l1 ++ x :: l2)) by (apply incl_appl, incl_refl).
  assert (H2 : incl l2 (l1 ++ x :: l2)) by (apply incl_appr, incl_tl, incl_refl).
  assert (Hx1 : ~ In x l1).
  { intros Hin. apply NoDup_remove_2 in Hnd'. apply Hnd', in_or_app. left. exact Hin. }
  assert (Hx2 : ~ In x l2).
  { intros Hin. apply NoDup_remove_2 in Hnd'. apply Hnd', in_or_app. right. exact Hin. }
  assert (H12 : forall y, In y l1 -> ~ In y l2).
  { intros y Hy1 Hy2. apply NoDup_remove_1 in Hnd'. apply NoDup_ListNoDup in Hnd'.
    apply NoDup_app in Hnd' as (_ & Hd & _). apply (Hd y); apply list_elem_of_In; assumption. }
  assert (Hb : shaped3 c (for_each l1 body u)).
  { apply (for_each_ok_sub (shaped3 c) body (l1 ++ x :: l2) Hok); assumption. }
  assert (Hbx : shaped3 c (body x (for_each l1 body u))) by (apply Hok; assumption).
  rewrite for_each_app, for_each_cons.
  split; [exact Hb|]. split; [|split].
  - intros k Hk Hkx.
    apply (for_each_frame_sub get_cell (shaped3 c) (valid_cell c) body
             (fun y => node_cell (node y)) (l1 ++ x :: l2) Hok Hframe); auto.
    intros y Hy Hky. apply Hx2. replace x with y; [exact Hy|].
    apply Hinj; auto. unfold node_cell in *. congruence.
  - intros k y Hk Hy Hky. symmetry.
    rewrite (for_each_frame_sub get_cell (shaped3 c) (valid_cell c) body
               (fun y => node_cell (node y)) (l1 ++ x :: l2) Hok Hframe); auto.
    + apply Hframe; auto. intros Hkx. apply Hx1. replace x with y; [exact Hy|].
      apply Hinj; auto. unfold node_cell in *. congruence.
    + intros z Hz Hkz. apply (H12 y Hy). replace y with z; [exact Hz|].
      apply Hinj; auto. unfold node_cell in *. congruence.
  - intros k Hk Hnone.
    apply (for_each_frame_sub get_cell (shaped3 c) (valid_cell c) body
             (fun y => node_cell (node y)) (l1 ++ x :: l2) Hok Hframe); auto.
Qed.

Lemma node_update_ext (rd rd' : nat -> nat -> nat -> R) (viscx viscy dt : Array2)
    (s : Array3) (i j : nat) :
  interior_node c i j ->
  (forall a b k, (a < imax c)%nat -> (b < jmax c)%nat -> (k < neq)%nat ->
     rd a b k = rd' a b k) ->
  node_update c rd viscx viscy dt s i j = node_update c rd' viscx viscy dt s i j.
Proof.
  intros (Hi & Hj) H. unfold node_update. cbv zeta.
  rewrite !H by (unfold neq; lia). reflexivity.
Qed.

(** The final values at a node, from the state its iteration starts
    from. *)
Lemma sweep_order (body : nat * nat -> Array3 -> Array3) (l1 l2 : list (nat * nat))
    (earlier : nat -> nat -> bool) (u : Array3) (viscx viscy dt : Array2) (s : Array3)
    (i j : nat) :
  NoDup (l1 ++ (j, i) :: l2) ->
  (forall p, In p (l1 ++ (j, i) :: l2) -> interior_node c (snd p) (fst p)) ->
  (forall p, In p l1 -> earlier (snd p) (fst p) = true) ->
  (forall p, In p l2 -> earlier (snd p) (fst p) = false) ->
  earlier i j = false ->
  (forall p t, In p (l1 ++ (j, i) :: l2) -> shaped3 c t ->
     shaped3 c (body p t) /\
     (forall k, valid_cell c k -> ~ node_cell (snd p, fst p) k ->
        get_cell (body p t) k = get_cell t k) /\
     (get3 (body p t) (snd p) (fst p) 0, get3 (body p t) (snd p) (fst p) 1,
      get3 (body p t) (snd p) (fst p) 2)
     = node_update c (get3 t) viscx viscy dt s (snd p) (fst p)) ->
  shaped3 c u ->
  let final := for_each (l1 ++ (j, i) :: l2) body u in
  (get3 final i j 0, get3 final i j 1, get3 final i j 2)
  = node_update c (fun a b k => if earlier a b then get3 final a b k else get3 u a b k)
      viscx viscy dt s i j.
Proof.
  intros Hnd Hint He1 He2 Hex Hbody Hu final.
  assert (Hx : In (j, i) (l1 ++ (j, i) :: l2)) by (apply in_or_app; right; left; reflexivity).
  assert (Hij : interior_node c i j) by (apply (Hint (j, i)), Hx).
  assert (Hok : forall y t, In y (l1 ++ (j, i) :: l2) -> shaped3 c t -> shaped3 c (body y t))
    by (intros y t Hy Ht; apply (Hbody y t Hy Ht)).
  assert (Hframe : forall y t k, In y (l1 ++ (j, i) :: l2) -> shaped3 c t -> valid_cell c k ->
            ~ node_cell (snd y, fst y) k -> get_cell (body y t) k = get_cell t k)
    by (intros y t k Hy Ht; apply (Hbody y t Hy Ht)).
  destruct (node_loop_at body (fun p => (snd p, fst p)) l1 l2 (j, i) u Hnd)
    as (Hsb & Hfin & Hearly & Hrest); auto.
  { intros [b a] [b' a'] _ _ E. cbn [fst snd] in E. inversion E. reflexivity. }
  fold final in Hfin, Hearly.
  set (before := for_each l1 body u) in *.
  assert (Hval : forall k, (k < neq)%nat -> get3 final i j k = get3 (body (j, i) before) i j k).
  { intros k Hk. apply (Hfin (i, j, k)).
    - destruct Hij as (Hi & Hj). unfold valid_cell. cbn [fst snd]. lia.
    - reflexivity. }
  rewrite !Hval by (unfold neq; lia).
  destruct (Hbody (j, i) before Hx Hsb) as (_ & _ & Et). cbn [fst snd] in Et. rewrite Et.
  apply node_update_ext; [exact Hij|].
  intros a b k Ha Hb Hk.
  assert (Hv : valid_cell c (a, b, k)) by (unfold valid_cell; cbn [fst snd]; auto).
  destruct (in_dec (fun p q : nat * nat => decide (p = q)) (b, a) l1) as [Hin|Hnin].
  - pose proof (He1 _ Hin) as Eab. cbn [fst snd] in Eab. rewrite Eab.
    apply (Hearly (a, b, k) (b, a)); auto. reflexivity.
  - assert (Hu' : get3 before a b k = get3 u a b k).
    { apply (Hrest (a, b, k)); auto.
      intros [b' a'] Hy E. unfold node_cell in E. cbn [fst snd] in E. inversion E; subst.
      contradiction. }
    rewrite Hu'. destruct (earlier a b) eqn:Eab; [|reflexivity].
    symmetry. unfold final.
    change (get_cell (for_each (l1 ++ (j, i) :: l2) body u) (a, b, k) = get_cell u (a, b, k)).
    apply (for_each_frame get_cell (shaped3 c) (valid_cell c) body
             (fun y => node_cell (snd y, fst y)) (l1 ++ (j, i) :: l2) Hok Hframe); auto.
    intros [b' a'] Hy E. unfold node_cell in E. cbn [fst snd] in E. inversion E; subst.
    apply in_app_or in Hy. destruct Hy as [Hy|[Hy|Hy]].
    + contradiction.
    + inversion Hy; subst. congruence.
    + apply He2 in Hy. cbn [fst snd] in Hy. congruence.
Qed.

(** X26: the order of the two Gauss-Seidel sweeps.  The three values a
    sweep leaves at an interior node are those of one node update whose
    reads find, at every node the sweep visited earlier, the value the
    sweep has left there, and at every other node the value the field had
    before the sweep.  The forward sweep visits rows from the bottom and
    each row from the left, so it reads new values to the west and south
    and old values to the east and north; the backward sweep visits in the
    opposite order and reads the opposite way.  In both, the y-momentum
    residual of the node takes the x-velocity just assigned to it. *)
Theorem Gauss_Seidel_order (u : Array3) (viscx viscy dt : Array2) (s : Array3) (i j : nat) :
  shaped3 c u -> interior_node c i j ->
  let fwd := SGS_forward_sweep c u viscx viscy dt s in
  let bwd := SGS_backward_sweep c u viscx viscy dt s in
  (get3 fwd i j 0, get3 fwd i j 1, get3 fwd i j 2)
  = node_update c
      (fun a b k => if swept_before a b i j then get3 fwd a b k else get3 u a b k)
      viscx viscy dt s i j /\
  (get3 bwd i j 0, get3 bwd i j 1, get3 bwd i j 2)
  = node_update c
      (fun a b k => if swept_before i j a b then get3 bwd a b k else get3 u a b k)
      viscx viscy dt s i j.
Proof.
  intros Hu (Hi & Hj) fwd bwd. subst fwd bwd.
  destruct (nodes_split (jmax c - 2) (imax c - 2) j i) as (l1 & l2 & E & Hb1 & Hb2);
    [lia | lia |].
  assert (Hin : forall p, In p (l1 ++ (j, i) :: l2) -> interior_node c (snd p) (fst p)).
  { intros p Hp. rewrite <- E in Hp. apply in_nodes in Hp. unfold interior_node. lia. }
  assert (Hnd : NoDup (l1 ++ (j, i) :: l2)) by (rewrite <- E; apply NoDup_nodes).
  split.
  - unfold SGS_forward_sweep. rewrite for_range_nested.
    replace (jmax c - 1 - 1)%nat with (jmax c - 2)%nat by lia.
    replace (imax c - 1 - 1)%nat with (imax c - 2)%nat by lia.
    rewrite E.
    apply (sweep_order _ l1 l2 (fun a b => swept_before a b i j)); auto.
    + intros p Hp. apply swept_before_asym, Hb2, Hp.
    + apply swept_before_irrefl.
    + intros [b a] t Hp Ht. apply Hin in Hp. destruct Hp as (Ha & Hb). cbn [fst snd] in *.
      split; [cbv zeta; shaped|]. split.
      * intros [[i' j'] k'] (Hi' & Hj' & Hk') Hw. cbn [fst snd] in *. node_frame c.
      * unfold node_update. cbv zeta. get_set c. reflexivity.
  - unfold SGS_backward_sweep, for_down. rewrite for_each_nested.
    cbn [Nat.add]. rewrite !Nat.sub_0_r, list_prod_rev, E, rev_app_distr.
    cbn [rev]. rewrite <- app_assoc. cbn [app].
    apply (sweep_order _ (rev l2) (rev l1) (fun a b => swept_before i j a b)).
    + apply NoDup_ListNoDup. replace (rev l2 ++ (j, i) :: rev l1) with (rev (l1 ++ (j, i) :: l2)).
      * apply NoDup_rev, NoDup_ListNoDup, Hnd.
      * rewrite rev_app_distr. cbn [rev]. rewrite <- app_assoc. reflexivity.
    + intros p Hp. apply Hin. apply in_app_or in Hp. apply in_or_app.
      destruct Hp as [Hp|[Hp|Hp]].
      * right. right. apply in_rev. exact Hp.
      * right. left. exact Hp.
      * left. apply in_rev. exact Hp.
    + intros p Hp. apply Hb2, in_rev, Hp.
    + intros p Hp. apply swept_before_asym, Hb1, in_rev, Hp.
    + apply swept_before_irrefl.
    + intros [b a] t Hp Ht.
      assert (Hp' : interior_node c a b).
      { apply (Hin (b, a)). apply in_app_or in Hp. apply in_or_app.
        destruct Hp as [Hp|[Hp|Hp]].
        - right. right. apply in_rev. exact Hp.
        - right. left. exact Hp.
        - left. apply in_rev. exact Hp. }
      destruct Hp' as (Ha & Hb). cbn [fst snd] in *.
      split; [cbv zeta; shaped|]. split.
      * intros [[i' j'] k'] (Hi' & Hj' & Hk') Hw. cbn [fst snd] in *. node_frame c.
      * unfold node_update. cbv zeta. get_set c. reflexivity.
    + exact Hu.
Qed.

End SweepOrder.

Lemma Gauss_Seidel_order_witness :
  shaped3 source_inputs (one_fast_node source_inputs) /\ interior_node source_inputs 2 1 /\
  (get3 (SGS_forward_sweep source_inputs (one_fast_node source_inputs)
           (constant2 source_inputs 0) (constant2 source_inputs 0)
           (constant2 source_inputs 1) (zero_field source_inputs)) 2 1 0,
   get3 (SGS_forward_sweep source_inputs (one_fast_node source_inputs)
           (constant2 source_inputs 0) (constant2 source_inputs 0)
           (constant2 source_inputs 1) (zero_field source_inputs)) 2 1 1,
   get3 (SGS_forward_sweep source_inputs (one_fast_node source_inputs)
           (constant2 source_inputs 0) (constant2 source_inputs 0)
           (constant2 source_inputs 1) (zero_field source_inputs)) 2 1 2)
  = node_update source_inputs
      (fun a b k =>
         if swept_before a b 2 1
         then get3 (SGS_forward_sweep source_inputs (one_fast_node source_inputs)
                      (constant2 source_inputs 0) (constant2 source_inputs 0)
                      (constant2 source_inputs 1) (zero_field source_inputs)) a b k
         else get3 (one_fast_node source_inputs) a b k)
      (constant2 source_inputs 0) (constant2 source_inputs 0) (constant2 source_inputs 1)
      (zero_field source_inputs) 2 1.
Proof.
  assert (Hn : interior_node source_inputs 2 1)
    by (unfold interior_node; cbn [imax jmax source_inputs]; lia).
  split; [apply shaped3_tabulate3|]. split; [exact Hn|].
  exact (proj1 (Gauss_Seidel_order source_inputs (one_fast_node source_inputs)
                  (constant2 source_inputs 0) (constant2 source_inputs 0)
                  (constant2 source_inputs 1) (zero_field source_inputs) 2 1
                  (shaped3_tabulate3 source_inputs _) Hn)).
Defined.

